(** * NoteG front end: lexer and recursive-descent parser

    A shallow embedding of [noteg-lang/src/lexer.ts] and
    [noteg-lang/src/parser.ts], and of the methods of the language server
    ([noteg-lang/src/lsp/server.ts]) that run them, followed by the
    properties of the lexer/parser pipeline.

    Conventions of the embedding
    - A JavaScript string is the list of its UTF-16 code units ([jsstring]).
    - [undefined] results of out-of-range indexing are [None].
    - JavaScript numbers used as counters ([line], [column], [length]) are [Z]
      ([column - value.length] can be negative); [pos] is an index, a [nat].
      The line and character of a protocol position are integers, [Z].
    - [while] loops and recursive calls run on fuel; running out of fuel is
      [None] in the lexer and [OutOfFuel] in the parser.  The fuel the entry
      points pass is shown to be sufficient.
    - An exception is an outcome of its own ([Throw]) that carries the state
      reached, since [this.errors] keeps what was pushed before the throw. *)

From Stdlib Require Import List String Ascii NArith ZArith Bool Lia Sorted.
Import ListNotations.

Set Implicit Arguments.
Set Warnings "-register-all".

(** ** Strings *)

Abbreviation char := N (only parsing).
Abbreviation jsstring := (list N) (only parsing).

Definition chr (a : ascii) : char := N_of_ascii a.
Definition str (s : string) : jsstring := map N_of_ascii (list_ascii_of_string s).

Definition NUL : char := 0%N.
Definition LF : char := chr "010".
Definition TAB : char := chr "009".
Definition CR : char := chr "013".
Definition DQUOTE : char := chr "034".
Definition SQUOTE : char := chr "039".
Definition BACKSLASH : char := chr "092".

Definition jsstring_eqb (a b : jsstring) : bool :=
  if list_eq_dec N.eq_dec a b then true else false.

(** [s + x] where [x] may be [undefined]: string concatenation prints it. *)
Definition toStr (x : option char) : jsstring :=
  match x with
  | Some c => [c]
  | None => str "undefined"
  end.

(** ** Loops *)

Inductive LoopStep (A : Type) : Type :=
| Continue (a : A)
| Break (a : A).
Arguments Continue {A} a.
Arguments Break {A} a.

(** [loop fuel step a] iterates [step] from [a] until it breaks. *)
Fixpoint loop {A : Type} (fuel : nat) (step : A -> option (LoopStep A)) (a : A)
  : option A :=
  match fuel with
  | O => None
  | S fuel' =>
      match step a with
      | None => None
      | Some (Break a') => Some a'
      | Some (Continue a') => loop fuel' step a'
      end
  end.

(** ** Tokens (lexer.ts) *)

Inductive TokenType : Set :=
| STRING | NUMBER | BOOLEAN | NULL
| IDENTIFIER | KEYWORD
| ASSIGN | EQUALS | NOT_EQUALS | PLUS | MINUS | MULTIPLY | DIVIDE | MODULO
| AND | OR | NOT | PIPE | ARROW
| LPAREN | RPAREN | LBRACE | RBRACE | LBRACKET | RBRACKET
| COMMA | DOT | COLON | SEMICOLON
| TEMPLATE_START | TEMPLATE_END | TEMPLATE_TEXT
| COMMENT | NEWLINE | EOF | ERROR.

Definition TokenType_eq_dec (a b : TokenType) : {a = b} + {a <> b}.
Proof. decide equality. Defined.

Definition TokenType_eqb (a b : TokenType) : bool :=
  if TokenType_eq_dec a b then true else false.

Module Token.
Record t : Set := mk
  { type : TokenType;
    value : jsstring;
    line : Z;
    column : Z;
    length : Z }.
End Token.

Module LexerError.
Record t : Set := mk
  { message : jsstring;
    line : Z;
    column : Z }.
End LexerError.

Definition KEYWORDS : list jsstring :=
  map str
    [ "let"; "const"; "fn"; "if"; "else"; "for"; "while"; "return";
      "import"; "export"; "from"; "as"; "template"; "content"; "site";
      "true"; "false"; "null"; "and"; "or"; "not" ]%string.

Definition has (set : list jsstring) (x : jsstring) : bool :=
  existsb (jsstring_eqb x) set.

(** ** Lexer (lexer.ts, class Lexer) *)

Module Lexer.

Record State : Set := mkState
  { pos : nat;
    line : Z;
    column : Z;
    tokens : list Token.t;
    errors : list LexerError.t;
    inTemplate : bool }.

Definition set_pos (p : nat) (s : State) : State :=
  mkState p (line s) (column s) (tokens s) (errors s) (inTemplate s).
Definition set_line (l : Z) (s : State) : State :=
  mkState (pos s) l (column s) (tokens s) (errors s) (inTemplate s).
Definition set_column (c : Z) (s : State) : State :=
  mkState (pos s) (line s) c (tokens s) (errors s) (inTemplate s).
Definition push_token (t : Token.t) (s : State) : State :=
  mkState (pos s) (line s) (column s) (tokens s ++ [t]) (errors s) (inTemplate s).
Definition push_error (e : LexerError.t) (s : State) : State :=
  mkState (pos s) (line s) (column s) (tokens s) (errors s ++ [e]) (inTemplate s).
Definition set_inTemplate (b : bool) (s : State) : State :=
  mkState (pos s) (line s) (column s) (tokens s) (errors s) b.

(** The state of a freshly constructed lexer. *)
Definition init : State := mkState 0 1 1 [] [] false.

Definition len (v : jsstring) : Z := Z.of_nat (List.length v).

Definition isDigit (c : char) : bool :=
  (chr "0" <=? c)%N && (c <=? chr "9")%N.

Definition isAlpha (c : char) : bool :=
  ((chr "a" <=? c)%N && (c <=? chr "z")%N)
  || ((chr "A" <=? c)%N && (c <=? chr "Z")%N)
  || (c =? chr "_")%N.

Definition isAlphaNumeric (c : char) : bool := isAlpha c || isDigit c.

Section WithSource.

Variable source : jsstring.

Definition isAtEnd (s : State) : bool := (List.length source <=? pos s)%nat.

Definition peek (s : State) : char :=
  if isAtEnd s then NUL else nth (pos s) source NUL.

Definition peekNext (s : State) : char :=
  if (List.length source <=? pos s + 1)%nat then NUL
  else nth (pos s + 1) source NUL.

(** [this.column++; return this.source[this.pos++]] *)
Definition advance (s : State) : option char * State :=
  (nth_error source (pos s),
   set_pos (S (pos s)) (set_column (column s + 1) s)).

Definition addToken (type : TokenType) (value : jsstring) (s : State) : State :=
  push_token
    (Token.mk type value (line s) (column s - len value) (len value)) s.

(** Every loop of the lexer consumes at least one character per iteration. *)
Definition gas : nat := S (S (List.length source)).

(** *** string *)

Definition unescape (escaped : option char) : jsstring :=
  match escaped with
  | Some c =>
      if (c =? chr "n")%N then [LF]
      else if (c =? chr "t")%N then [TAB]
      else if (c =? chr "r")%N then [CR]
      else if (c =? BACKSLASH)%N then [BACKSLASH]
      else if (c =? DQUOTE)%N then [DQUOTE]
      else if (c =? SQUOTE)%N then [SQUOTE]
      else toStr escaped
  | None => toStr escaped
  end.

Definition string_step (quote : char) (a : State * jsstring)
  : option (LoopStep (State * jsstring)) :=
  let '(s, value) := a in
  if negb (isAtEnd s) && negb (peek s =? quote)%N then
    let s :=
      if (peek s =? LF)%N then set_column 1 (set_line (line s + 1) s) else s in
    if (peek s =? BACKSLASH)%N then
      let '(_, s) := advance s in
      let '(escaped, s) := advance s in
      Some (Continue (s, value ++ unescape escaped))
    else
      let '(c, s) := advance s in
      Some (Continue (s, value ++ toStr c))
  else Some (Break a).

Definition string (quote : char) (s : State) : option State :=
  match loop gas (string_step quote) (s, []) with
  | None => None
  | Some (s, value) =>
      if isAtEnd s then
        Some (push_error
                (LexerError.mk (str "Unterminated string") (line s) (column s)) s)
      else
        let '(_, s) := advance s in
        Some (addToken STRING value s)
  end.

(** *** number *)

Definition digits_step (a : State * jsstring)
  : option (LoopStep (State * jsstring)) :=
  let '(s, value) := a in
  if isDigit (peek s) then
    let '(c, s) := advance s in Some (Continue (s, value ++ toStr c))
  else Some (Break a).

Definition number (first : char) (s : State) : option State :=
  match loop gas digits_step (s, [first]) with
  | None => None
  | Some (s, value) =>
      if (peek s =? chr ".")%N && isDigit (peekNext s) then
        let '(c, s) := advance s in
        match loop gas digits_step (s, value ++ toStr c) with
        | None => None
        | Some (s, value) => Some (addToken NUMBER value s)
        end
      else Some (addToken NUMBER value s)
  end.

(** *** identifier *)

Definition identifier_step (a : State * jsstring)
  : option (LoopStep (State * jsstring)) :=
  let '(s, value) := a in
  if isAlphaNumeric (peek s) then
    let '(c, s) := advance s in Some (Continue (s, value ++ toStr c))
  else Some (Break a).

Definition identifier (first : char) (s : State) : option State :=
  match loop gas identifier_step (s, [first]) with
  | None => None
  | Some (s, value) =>
      if jsstring_eqb value (str "true") || jsstring_eqb value (str "false")
      then Some (addToken BOOLEAN value s)
      else if jsstring_eqb value (str "null") then Some (addToken NULL value s)
      else if has KEYWORDS value then Some (addToken KEYWORD value s)
      else Some (addToken IDENTIFIER value s)
  end.

(** *** comments *)

Definition lineComment_step (a : State * jsstring)
  : option (LoopStep (State * jsstring)) :=
  let '(s, value) := a in
  if negb (isAtEnd s) && negb (peek s =? LF)%N then
    let '(c, s) := advance s in Some (Continue (s, value ++ toStr c))
  else Some (Break a).

Definition lineComment (s : State) : option State :=
  let value := str "//" in
  let '(_, s) := advance s in
  match loop gas lineComment_step (s, value) with
  | None => None
  | Some (s, value) => Some (addToken COMMENT value s)
  end.

Definition blockComment_step (a : State * jsstring)
  : option (LoopStep (State * jsstring)) :=
  let '(s, value) := a in
  if negb (isAtEnd s) then
    if (peek s =? chr "*")%N && (peekNext s =? chr "/")%N then
      let '(c1, s) := advance s in
      let '(c2, s) := advance s in
      Some (Break (s, value ++ (toStr c1 ++ toStr c2)))
    else
      let s :=
        if (peek s =? LF)%N then set_column 1 (set_line (line s + 1) s) else s in
      let '(c, s) := advance s in
      Some (Continue (s, value ++ toStr c))
  else Some (Break a).

Definition blockComment (s : State) : option State :=
  let value := str "/*" in
  let '(_, s) := advance s in
  match loop gas blockComment_step (s, value) with
  | None => None
  | Some (s, value) => Some (addToken COMMENT value s)
  end.

(** *** scanToken *)

Definition unexpected (char : option char) (s : State) : State :=
  push_error
    (LexerError.mk (str "Unexpected character: " ++ toStr char)
       (line s) (column s - 1)) s.

Definition scanToken (s : State) : option State :=
  let '(char, s) := advance s in
  match char with
  | None => Some (unexpected char s)
  | Some c =>
      if (c =? chr "(")%N then Some (addToken LPAREN [c] s)
      else if (c =? chr ")")%N then Some (addToken RPAREN [c] s)
      else if (c =? chr "{")%N then
        if (peek s =? chr "{")%N then
          let '(_, s) := advance s in
          Some (set_inTemplate true (addToken TEMPLATE_START (str "{{") s))
        else Some (addToken LBRACE [c] s)
      else if (c =? chr "}")%N then
        if (peek s =? chr "}")%N && inTemplate s then
          let '(_, s) := advance s in
          Some (set_inTemplate false (addToken TEMPLATE_END (str "}}") s))
        else Some (addToken RBRACE [c] s)
      else if (c =? chr "[")%N then Some (addToken LBRACKET [c] s)
      else if (c =? chr "]")%N then Some (addToken RBRACKET [c] s)
      else if (c =? chr ",")%N then Some (addToken COMMA [c] s)
      else if (c =? chr ".")%N then Some (addToken DOT [c] s)
      else if (c =? chr ":")%N then Some (addToken COLON [c] s)
      else if (c =? chr ";")%N then Some (addToken SEMICOLON [c] s)
      else if (c =? chr "+")%N then Some (addToken PLUS [c] s)
      else if (c =? chr "*")%N then Some (addToken MULTIPLY [c] s)
      else if (c =? chr "%")%N then Some (addToken MODULO [c] s)
      else if (c =? chr "|")%N then
        if (peek s =? chr ">")%N then
          let '(_, s) := advance s in Some (addToken PIPE (str "|>") s)
        else if (peek s =? chr "|")%N then
          let '(_, s) := advance s in Some (addToken OR (str "||") s)
        else Some (addToken PIPE [c] s)
      else if (c =? chr "-")%N then
        if (peek s =? chr ">")%N then
          let '(_, s) := advance s in Some (addToken ARROW (str "->") s)
        else Some (addToken MINUS [c] s)
      else if (c =? chr "=")%N then
        if (peek s =? chr "=")%N then
          let '(_, s) := advance s in Some (addToken EQUALS (str "==") s)
        else Some (addToken ASSIGN [c] s)
      else if (c =? chr "!")%N then
        if (peek s =? chr "=")%N then
          let '(_, s) := advance s in Some (addToken NOT_EQUALS (str "!=") s)
        else Some (addToken NOT [c] s)
      else if (c =? chr "&")%N then
        if (peek s =? chr "&")%N then
          let '(_, s) := advance s in Some (addToken AND (str "&&") s)
        else Some s
      else if (c =? chr "/")%N then
        if (peek s =? chr "/")%N then lineComment s
        else if (peek s =? chr "*")%N then blockComment s
        else Some (addToken DIVIDE [c] s)
      else if (c =? chr " ")%N || (c =? TAB)%N || (c =? CR)%N then Some s
      else if (c =? LF)%N then
        Some (set_column 1 (set_line (line s + 1) (addToken NEWLINE [c] s)))
      else if (c =? DQUOTE)%N || (c =? SQUOTE)%N then string c s
      else if isDigit c then number c s
      else if isAlpha c then identifier c s
      else Some (unexpected char s)
  end.

(** *** tokenize *)

Definition tokenize_step (s : State) : option (LoopStep State) :=
  if negb (isAtEnd s) then
    match scanToken s with
    | None => None
    | Some s => Some (Continue s)
    end
  else Some (Break s).

Definition run : option State :=
  match loop gas tokenize_step init with
  | None => None
  | Some s => Some (addToken EOF [] s)
  end.

Definition tokenize : option (list Token.t * list LexerError.t) :=
  match run with
  | None => None
  | Some s => Some (tokens s, errors s)
  end.

End WithSource.

End Lexer.

(** ** Syntax tree (parser.ts) *)

(** The [value] of a [Literal].  [Number(text)] is kept as the decimal text
    the lexer scanned (one or more digits, optionally a point and digits). *)
Inductive LiteralValue : Set :=
| VNumber (text : jsstring)
| VString (s : jsstring)
| VBoolean (b : bool)
| VNull.

Inductive ExpressionNode : Set :=
| Identifier (name : jsstring)
| Literal (value : LiteralValue) (raw : jsstring)
| BinaryExpression (operator : jsstring) (left right : ExpressionNode)
| UnaryExpression (operator : jsstring) (argument : ExpressionNode)
| CallExpression (callee : ExpressionNode) (arguments : list ExpressionNode)
| MemberExpression (object property : ExpressionNode) (computed : bool)
| ArrayExpression (elements : list ExpressionNode)
| ObjectExpression (properties : list (jsstring * ExpressionNode))
| PipeExpression (left right : ExpressionNode)
| TemplateExpression (expression : ExpressionNode).

(** An element of [TemplateStatement.parts : (string | ExpressionNode)[]]. *)
Inductive TemplatePart : Set :=
| PartText (text : jsstring)
| PartExpression (expression : ExpressionNode).

Inductive StatementNode : Set :=
| VariableDeclaration (kind name : jsstring) (init : option ExpressionNode)
| FunctionDeclaration (name : jsstring) (params : list jsstring)
    (body : list StatementNode)
| ExpressionStatement (expression : ExpressionNode)
| ReturnStatement (argument : option ExpressionNode)
| IfStatement (test : ExpressionNode) (consequent : list StatementNode)
    (alternate : option (list StatementNode))
| ForStatement (variable : jsstring) (iterable : ExpressionNode)
    (body : list StatementNode)
| ImportStatement (specifiers : list jsstring) (source : jsstring)
| ExportStatement (declaration : StatementNode)
| TemplateStatement (parts : list TemplatePart).

Inductive ProgramNode : Set :=
| Program (body : list StatementNode).

Module ParseError.
Record t : Set := mk
  { message : jsstring;
    token : Token.t }.
End ParseError.

(** What a [throw] carries: the parser's own [ParseError], or the
    [TypeError] of reading a field of [undefined]. *)
Inductive Exception : Set :=
| EParseError (e : ParseError.t)
| ETypeError.

(** ** Parser (parser.ts, class Parser) *)

Module Parser.

Record State : Set := mkState
  { pos : nat;
    errors : list ParseError.t }.

Inductive Outcome (A : Type) : Type :=
| Ok (a : A) (s : State)
| Throw (e : Exception) (s : State)
| OutOfFuel.
Arguments Ok {A} a s.
Arguments Throw {A} e s.
Arguments OutOfFuel {A}.

(** A method of the parser: it reads and updates [pos] and [errors], and
    returns, throws, or runs out of fuel. *)
Definition M (A : Type) : Type := State -> Outcome A.

Definition ret {A} (a : A) : M A := fun s => Ok a s.

Definition bind {A B} (m : M A) (f : A -> M B) : M B :=
  fun s =>
    match m s with
    | Ok a s' => f a s'
    | Throw e s' => Throw e s'
    | OutOfFuel => OutOfFuel
    end.

Definition throw {A} (e : Exception) : M A := fun s => Throw e s.

(** [try { m } catch (e) { h }] *)
Definition tryCatch {A} (m : M A) (h : M A) : M A :=
  fun s =>
    match m s with
    | Ok a s' => Ok a s'
    | Throw _ s' => h s'
    | OutOfFuel => OutOfFuel
    end.

Declare Scope parser_scope.
Delimit Scope parser_scope with parser.
Notation "x <- m ;; k" := (bind m (fun x => k))
  (at level 61, m at next level, right associativity) : parser_scope.
Notation "m ;;; k" := (bind m (fun _ => k))
  (at level 61, right associativity) : parser_scope.
Local Open Scope parser_scope.

(** [a || b] on method calls: [b] runs only when [a] is false. *)
Definition orM (a b : M bool) : M bool :=
  x <- a ;; if x then ret true else b.

Fixpoint loopM {A : Type} (fuel : nat) (step : A -> M (LoopStep A)) (a : A)
  : M A :=
  match fuel with
  | O => fun _ => OutOfFuel
  | S fuel' =>
      r <- step a ;;
      match r with
      | Break a' => ret a'
      | Continue a' => loopM fuel' step a'
      end
  end.

(** [x.value] and [x.type], a [TypeError] when [x] is [undefined]. *)
Definition valueOf (x : option Token.t) : M jsstring :=
  match x with
  | Some t => ret (Token.value t)
  | None => throw ETypeError
  end.

Definition typeOf (x : option Token.t) : M TokenType :=
  match x with
  | Some t => ret (Token.type t)
  | None => throw ETypeError
  end.

Definition includes (l : list jsstring) (x : jsstring) : bool :=
  existsb (jsstring_eqb x) l.

Section WithTokens.

(** [this.tokens], assigned once by the constructor. *)
Variable tokens : list Token.t.

(** [this.tokens[this.pos]] and [this.tokens[this.pos - 1]] *)
Definition peek : M (option Token.t) :=
  fun s => Ok (nth_error tokens (pos s)) s.

Definition previous : M (option Token.t) :=
  fun s =>
    Ok (match pos s with
        | O => None
        | S p => nth_error tokens p
        end) s.

Definition isAtEnd : M bool :=
  t <- peek ;; ty <- typeOf t ;; ret (TokenType_eqb ty EOF).

Definition advance : M (option Token.t) :=
  e <- isAtEnd ;;
  (if negb e then fun s => Ok tt (mkState (S (pos s)) (errors s)) else ret tt) ;;;
  previous.

Definition check (type : TokenType) : M bool :=
  e <- isAtEnd ;;
  if e then ret false
  else t <- peek ;; ty <- typeOf t ;; ret (TokenType_eqb ty type).

Fixpoint match_ (types : list TokenType) : M bool :=
  match types with
  | [] => ret false
  | type :: types' =>
      c <- check type ;;
      if c then advance ;;; ret true else match_ types'
  end.

(** [error] records the error and returns it.  Its argument is always
    [this.peek()] after a failed [check], which has already read
    [this.peek().type]: the token is defined whenever [error] is reached,
    and the record keeps the declared type [token: Token]. *)
Definition error (token : option Token.t) (message : jsstring)
  : M ParseError.t :=
  match token with
  | Some t =>
      fun s =>
        let e := ParseError.mk message t in
        Ok e (mkState (pos s) (errors s ++ [e]))
  | None => throw ETypeError
  end.

Definition expect (type : TokenType) (message : string) : M (option Token.t) :=
  c <- check type ;;
  if c then advance
  else t <- peek ;; e <- error t (str message) ;; throw (EParseError e).

Definition synchronize_step (fuel_ : unit) : M (LoopStep unit) :=
  e <- isAtEnd ;;
  if e then ret (Break tt)
  else
    p <- previous ;; ty <- typeOf p ;;
    if TokenType_eqb ty SEMICOLON then ret (Break tt)
    else
      c <- check KEYWORD ;;
      if c then
        t <- peek ;; kw <- valueOf t ;;
        if includes
             (map str ["let"; "const"; "fn"; "if"; "for"; "return";
                       "import"; "export"]%string) kw
        then ret (Break tt)
        else advance ;;; ret (Continue tt)
      else advance ;;; ret (Continue tt).

Definition synchronize (fuel : nat) : M unit :=
  advance ;;; loopM fuel synchronize_step tt.

(** *** Expressions *)

Section Expressions.

(** The recursive call to [parseExpression] and the fuel of the loops. *)
Variable parseExpression : M ExpressionNode.
Variable fuel : nat.

(** [do { xs.push(this.parseExpression()) } while (this.match(COMMA))] *)
Definition expressions_step (xs : list ExpressionNode)
  : M (LoopStep (list ExpressionNode)) :=
  e <- parseExpression ;;
  c <- match_ [COMMA] ;;
  ret (if c then Continue (xs ++ [e]) else Break (xs ++ [e])).

Definition properties_step (properties : list (jsstring * ExpressionNode))
  : M (LoopStep (list (jsstring * ExpressionNode))) :=
  k <- expect IDENTIFIER "Expected property key" ;; key <- valueOf k ;;
  expect COLON "Expected ':' after property key" ;;;
  value <- parseExpression ;;
  c <- match_ [COMMA] ;;
  ret (if c then Continue (properties ++ [(key, value)])
       else Break (properties ++ [(key, value)])).

Definition parsePrimary : M ExpressionNode :=
  c <- match_ [NUMBER] ;;
  if c then
    p <- previous ;; v <- valueOf p ;; ret (Literal (VNumber v) v)
  else
  c <- match_ [STRING] ;;
  if c then
    p <- previous ;; v <- valueOf p ;;
    ret (Literal (VString v) ([DQUOTE] ++ v ++ [DQUOTE]))
  else
  c <- match_ [BOOLEAN] ;;
  if c then
    p <- previous ;; v <- valueOf p ;;
    ret (Literal (VBoolean (jsstring_eqb v (str "true"))) v)
  else
  c <- match_ [NULL] ;;
  if c then ret (Literal VNull (str "null"))
  else
  c <- match_ [IDENTIFIER] ;;
  if c then p <- previous ;; v <- valueOf p ;; ret (Identifier v)
  else
  c <- match_ [LBRACKET] ;;
  if c then
    c <- check RBRACKET ;;
    elements <- (if negb c then loopM fuel expressions_step [] else ret []) ;;
    expect RBRACKET "Expected ']'" ;;;
    ret (ArrayExpression elements)
  else
  c <- match_ [LBRACE] ;;
  if c then
    c <- check RBRACE ;;
    properties <- (if negb c then loopM fuel properties_step [] else ret []) ;;
    expect RBRACE "Expected '}'" ;;;
    ret (ObjectExpression properties)
  else
  c <- match_ [LPAREN] ;;
  if c then
    expr <- parseExpression ;;
    expect RPAREN "Expected ')'" ;;;
    ret expr
  else
    t <- peek ;; e <- error t (str "Expected expression") ;;
    throw (EParseError e).

Definition parseCall_step (expr : ExpressionNode)
  : M (LoopStep ExpressionNode) :=
  c <- match_ [LPAREN] ;;
  if c then
    c <- check RPAREN ;;
    args <- (if negb c then loopM fuel expressions_step [] else ret []) ;;
    expect RPAREN "Expected ')' after arguments" ;;;
    ret (Continue (CallExpression expr args))
  else
  c <- match_ [DOT] ;;
  if c then
    t <- expect IDENTIFIER "Expected property name" ;; name <- valueOf t ;;
    ret (Continue (MemberExpression expr (Identifier name) false))
  else
  c <- match_ [LBRACKET] ;;
  if c then
    property <- parseExpression ;;
    expect RBRACKET "Expected ']'" ;;;
    ret (Continue (MemberExpression expr property true))
  else ret (Break expr).

Definition parseCall : M ExpressionNode :=
  expr <- parsePrimary ;; loopM fuel parseCall_step expr.

Fixpoint parseUnary (depth : nat) : M ExpressionNode :=
  match depth with
  | O => fun _ => OutOfFuel
  | S depth' =>
      c <- orM (match_ [NOT]) (match_ [MINUS]) ;;
      if c then
        p <- previous ;; operator <- valueOf p ;;
        argument <- parseUnary depth' ;;
        ret (UnaryExpression operator argument)
      else parseCall
  end.

Definition parseFactor_step (left : ExpressionNode)
  : M (LoopStep ExpressionNode) :=
  c <- orM (match_ [MULTIPLY]) (orM (match_ [DIVIDE]) (match_ [MODULO])) ;;
  if c then
    p <- previous ;; operator <- valueOf p ;;
    right <- parseUnary fuel ;;
    ret (Continue (BinaryExpression operator left right))
  else ret (Break left).

Definition parseFactor : M ExpressionNode :=
  left <- parseUnary fuel ;; loopM fuel parseFactor_step left.

Definition parseTerm_step (left : ExpressionNode)
  : M (LoopStep ExpressionNode) :=
  c <- orM (match_ [PLUS]) (match_ [MINUS]) ;;
  if c then
    p <- previous ;; operator <- valueOf p ;;
    right <- parseFactor ;;
    ret (Continue (BinaryExpression operator left right))
  else ret (Break left).

Definition parseTerm : M ExpressionNode :=
  left <- parseFactor ;; loopM fuel parseTerm_step left.

Definition parseComparison : M ExpressionNode := parseTerm.

Definition parseEquality_step (left : ExpressionNode)
  : M (LoopStep ExpressionNode) :=
  c <- orM (match_ [EQUALS]) (match_ [NOT_EQUALS]) ;;
  if c then
    p <- previous ;; operator <- valueOf p ;;
    right <- parseComparison ;;
    ret (Continue (BinaryExpression operator left right))
  else ret (Break left).

Definition parseEquality : M ExpressionNode :=
  left <- parseComparison ;; loopM fuel parseEquality_step left.

Definition parseAnd_step (left : ExpressionNode)
  : M (LoopStep ExpressionNode) :=
  c <- match_ [AND] ;;
  if c then
    right <- parseEquality ;;
    ret (Continue (BinaryExpression (str "&&") left right))
  else ret (Break left).

Definition parseAnd : M ExpressionNode :=
  left <- parseEquality ;; loopM fuel parseAnd_step left.

Definition parseOr_step (left : ExpressionNode)
  : M (LoopStep ExpressionNode) :=
  c <- match_ [OR] ;;
  if c then
    right <- parseAnd ;;
    ret (Continue (BinaryExpression (str "||") left right))
  else ret (Break left).

Definition parseOr : M ExpressionNode :=
  left <- parseAnd ;; loopM fuel parseOr_step left.

Definition parsePipe_step (left : ExpressionNode)
  : M (LoopStep ExpressionNode) :=
  c <- match_ [PIPE] ;;
  if c then
    right <- parseOr ;;
    ret (Continue (PipeExpression left right))
  else ret (Break left).

Definition parsePipe : M ExpressionNode :=
  left <- parseOr ;; loopM fuel parsePipe_step left.

End Expressions.

Fixpoint parseExpression (fuel : nat) : M ExpressionNode :=
  match fuel with
  | O => fun _ => OutOfFuel
  | S fuel' => parsePipe (parseExpression fuel') fuel
  end.

(** *** Statements *)

Section Statements.

(** The recursive call to [parseStatement] and the fuel of the loops. *)
Variable parseStatement : M StatementNode.
Variable fuel : nat.

(** [while (!this.check(RBRACE) && !this.isAtEnd()) { body.push(stmt) }] *)
Definition block_step (body : list StatementNode)
  : M (LoopStep (list StatementNode)) :=
  c <- check RBRACE ;;
  e <- (if negb c then isAtEnd else ret true) ;;
  if negb c && negb e then
    stmt <- parseStatement ;; ret (Continue (body ++ [stmt]))
  else ret (Break body).

(** [do { names.push(this.expect(IDENTIFIER, message).value) }
     while (this.match(COMMA))] *)
Definition names_step (message : string) (names : list jsstring)
  : M (LoopStep (list jsstring)) :=
  t <- expect IDENTIFIER message ;; name <- valueOf t ;;
  c <- match_ [COMMA] ;;
  ret (if c then Continue (names ++ [name]) else Break (names ++ [name])).

Definition parseVariableDeclaration : M StatementNode :=
  k <- advance ;; kind <- valueOf k ;;
  t <- expect IDENTIFIER "Expected variable name" ;; name <- valueOf t ;;
  c <- match_ [ASSIGN] ;;
  init <- (if c then e <- parseExpression fuel ;; ret (Some e)
           else ret None) ;;
  match_ [SEMICOLON] ;;;
  ret (VariableDeclaration kind name init).

Definition parseFunctionDeclaration : M StatementNode :=
  advance ;;;
  t <- expect IDENTIFIER "Expected function name" ;; name <- valueOf t ;;
  expect LPAREN "Expected '(' after function name" ;;;
  c <- check RPAREN ;;
  params <- (if negb c
             then loopM fuel (names_step "Expected parameter name") []
             else ret []) ;;
  expect RPAREN "Expected ')' after parameters" ;;;
  expect LBRACE "Expected '{' before function body" ;;;
  body <- loopM fuel block_step [] ;;
  expect RBRACE "Expected '}' after function body" ;;;
  ret (FunctionDeclaration name params body).

Definition parseReturnStatement : M StatementNode :=
  advance ;;;
  c1 <- check SEMICOLON ;;
  c2 <- (if negb c1 then check RBRACE else ret true) ;;
  argument <- (if negb c1 && negb c2
               then e <- parseExpression fuel ;; ret (Some e)
               else ret None) ;;
  match_ [SEMICOLON] ;;;
  ret (ReturnStatement argument).

Definition parseIfStatement : M StatementNode :=
  advance ;;;
  expect LPAREN "Expected '(' after 'if'" ;;;
  test <- parseExpression fuel ;;
  expect RPAREN "Expected ')' after condition" ;;;
  expect LBRACE "Expected '{' before if body" ;;;
  consequent <- loopM fuel block_step [] ;;
  expect RBRACE "Expected '}' after if body" ;;;
  c <- check KEYWORD ;;
  isElse <- (if c then t <- peek ;; v <- valueOf t ;;
                       ret (jsstring_eqb v (str "else"))
             else ret false) ;;
  alternate <- (if isElse then
                  advance ;;;
                  expect LBRACE "Expected '{' before else body" ;;;
                  alternate <- loopM fuel block_step [] ;;
                  expect RBRACE "Expected '}' after else body" ;;;
                  ret (Some alternate)
                else ret None) ;;
  ret (IfStatement test consequent alternate).

Definition parseForStatement : M StatementNode :=
  advance ;;;
  t <- expect IDENTIFIER "Expected loop variable" ;; variable <- valueOf t ;;
  expect KEYWORD "Expected 'in'" ;;;
  iterable <- parseExpression fuel ;;
  expect LBRACE "Expected '{' before for body" ;;;
  body <- loopM fuel block_step [] ;;
  expect RBRACE "Expected '}' after for body" ;;;
  ret (ForStatement variable iterable body).

Definition parseImportStatement : M StatementNode :=
  advance ;;;
  expect LBRACE "Expected '{' after import" ;;;
  c <- check RBRACE ;;
  specifiers <- (if negb c
                 then loopM fuel (names_step "Expected import name") []
                 else ret []) ;;
  expect RBRACE "Expected '}' after imports" ;;;
  expect KEYWORD "Expected 'from'" ;;;
  t <- expect STRING "Expected module path" ;; source <- valueOf t ;;
  match_ [SEMICOLON] ;;;
  ret (ImportStatement specifiers source).

Definition parseExportStatement : M StatementNode :=
  advance ;;;
  declaration <- parseStatement ;;
  ret (ExportStatement declaration).

Definition template_step (parts : list TemplatePart)
  : M (LoopStep (list TemplatePart)) :=
  e <- isAtEnd ;;
  if negb e then
    c <- match_ [TEMPLATE_START] ;;
    if c then
      x <- parseExpression fuel ;;
      expect TEMPLATE_END "Expected '}}'" ;;;
      ret (Continue (parts ++ [PartExpression x]))
    else
      c <- check TEMPLATE_TEXT ;;
      if c then
        t <- advance ;; v <- valueOf t ;;
        ret (Continue (parts ++ [PartText v]))
      else ret (Break parts)
  else ret (Break parts).

Definition parseTemplateStatement : M StatementNode :=
  advance ;;;
  parts <- loopM fuel template_step [] ;;
  ret (TemplateStatement parts).

Definition parseExpressionStatement : M StatementNode :=
  expression <- parseExpression fuel ;;
  match_ [SEMICOLON] ;;;
  ret (ExpressionStatement expression).

Definition parseStatement_ : M StatementNode :=
  token <- peek ;; ty <- typeOf token ;;
  if TokenType_eqb ty KEYWORD then
    v <- valueOf token ;;
    if jsstring_eqb v (str "let") || jsstring_eqb v (str "const")
    then parseVariableDeclaration
    else if jsstring_eqb v (str "fn") then parseFunctionDeclaration
    else if jsstring_eqb v (str "return") then parseReturnStatement
    else if jsstring_eqb v (str "if") then parseIfStatement
    else if jsstring_eqb v (str "for") then parseForStatement
    else if jsstring_eqb v (str "import") then parseImportStatement
    else if jsstring_eqb v (str "export") then parseExportStatement
    else if jsstring_eqb v (str "template") then parseTemplateStatement
    else parseExpressionStatement
  else parseExpressionStatement.

End Statements.

Fixpoint parseStatement (fuel : nat) : M StatementNode :=
  match fuel with
  | O => fun _ => OutOfFuel
  | S fuel' => parseStatement_ (parseStatement fuel') fuel
  end.

(** *** parse *)

Definition parse_step (fuel : nat) (body : list StatementNode)
  : M (LoopStep (list StatementNode)) :=
  e <- isAtEnd ;;
  if negb e then
    tryCatch
      (stmt <- parseStatement fuel ;; ret (Continue (body ++ [stmt])))
      (synchronize fuel ;;; ret (Continue body))
  else ret (Break body).

Definition parse_ (fuel : nat) : M ProgramNode :=
  body <- loopM fuel (parse_step fuel) [] ;; ret (Program body).

End WithTokens.

(** The constructor: comments and newlines are filtered out. *)
Definition new (tokens : list Token.t) : list Token.t :=
  filter (fun t =>
            negb (TokenType_eqb (Token.type t) COMMENT)
            && negb (TokenType_eqb (Token.type t) NEWLINE)) tokens.

Definition init : State := mkState 0 [].

(** [new Parser(tokens).parse()]: the tree and the error list, or the
    exception that escaped. *)
Definition parse (tokens : list Token.t)
  : Outcome (ProgramNode * list ParseError.t) :=
  let this_tokens := new tokens in
  match parse_ this_tokens (S (List.length this_tokens)) init with
  | Ok ast s => Ok (ast, errors s) s
  | Throw e s => Throw e s
  | OutOfFuel => OutOfFuel
  end.

End Parser.

(** [new Parser(new Lexer(source).tokenize().tokens).parse()] *)
Definition parseSource (source : jsstring)
  : option (Parser.Outcome (ProgramNode * list ParseError.t)) :=
  match Lexer.tokenize source with
  | None => None
  | Some (tokens, _) => Some (Parser.parse tokens)
  end.

(** ** Language server (lsp/server.ts) *)

Module Position.
Record t : Set := mk
  { line : Z;
    character : Z }.
End Position.

Module Range.
Record t : Set := mk
  { start : Position.t;
    end_ : Position.t }.
End Range.

Module Diagnostic.
Record t : Set := mk
  { range : Range.t;
    severity : Z;
    message : jsstring;
    source : jsstring }.
End Diagnostic.

(** An entry of the document store; [ast] is [undefined] until the
    document has been validated. *)
Module Document.
Record t : Set := mk
  { text : jsstring;
    version : Z;
    ast : option ProgramNode }.
End Document.

(** What a method of the server does: it returns, an exception escapes it,
    or the lexer or the parser under it runs out of fuel. *)
Inductive Result (A : Type) : Type :=
| Returned (a : A)
| Thrown (e : Exception)
| Diverged.
Arguments Returned {A} a.
Arguments Thrown {A} e.
Arguments Diverged {A}.

(** What [docs[keyword] ?? fallback] evaluates to: a string, or a member
    that the object literal [docs] inherits from [Object.prototype]. *)
Inductive Member : Set :=
| MString (s : jsstring)
| MInherited.

Module Hover.
Record t : Set := mk
  { contents : Member }.
End Hover.

(** The lines of a text, joined by line feeds. *)
Definition lines (ls : list jsstring) : jsstring :=
  match ls with
  | [] => []
  | l :: rest => l ++ flat_map (fun x => LF :: x) rest
  end.

Module NotegLanguageServer.

(** [const documents = new Map<string, {...}>()], in insertion order. *)
Definition Documents : Set := list (jsstring * Document.t).

Fixpoint get (documents : Documents) (uri : jsstring) : option Document.t :=
  match documents with
  | [] => None
  | (k, d) :: rest => if jsstring_eqb k uri then Some d else get rest uri
  end.

Fixpoint set (documents : Documents) (uri : jsstring) (doc : Document.t)
  : Documents :=
  match documents with
  | [] => [(uri, doc)]
  | (k, d) :: rest =>
      if jsstring_eqb k uri then (k, doc) :: rest
      else (k, d) :: set rest uri doc
  end.

Fixpoint delete (documents : Documents) (uri : jsstring) : Documents :=
  match documents with
  | [] => []
  | (k, d) :: rest =>
      if jsstring_eqb k uri then rest else (k, d) :: delete rest uri
  end.

(** The own properties of the object literal [docs]. *)
Definition docs : list (jsstring * jsstring) :=
  [ (str "let",
     lines [str "**let**"; []; str "Declare a mutable variable."; [];
            str "```noteg"; str "let x = 42"; str "```"]);
    (str "const",
     lines [str "**const**"; []; str "Declare an immutable constant."; [];
            str "```noteg"; str "const PI = 3.14159"; str "```"]);
    (str "fn",
     lines [str "**fn**"; []; str "Declare a function."; [];
            str "```noteg"; str "fn add(a, b) {"; str "  return a + b";
            str "}"; str "```"]);
    (str "if",
     lines [str "**if**"; []; str "Conditional statement."; [];
            str "```noteg"; str "if (condition) {"; str "  // then";
            str "} else {"; str "  // else"; str "}"; str "```"]);
    (str "for",
     lines [str "**for**"; []; str "Loop over iterable."; [];
            str "```noteg"; str "for item in items {"; str "  print(item)";
            str "}"; str "```"]);
    (str "return",
     lines [str "**return**"; []; str "Return value from function."]);
    (str "import",
     lines [str "**import**"; []; str "Import from module."; [];
            str "```noteg";
            str "import { foo } from " ++ [DQUOTE] ++ str "module" ++ [DQUOTE];
            str "```"]);
    (str "export",
     lines [str "**export**"; []; str "Export declaration."]);
    (str "template",
     lines [str "**template**"; [];
            str "Define a template block with {{ variable }} interpolation."]) ].

(** The names every object literal inherits a member for. *)
Definition inherited : list jsstring :=
  map str
    [ "constructor"; "__defineGetter__"; "__defineSetter__"; "hasOwnProperty";
      "__lookupGetter__"; "__lookupSetter__"; "isPrototypeOf";
      "propertyIsEnumerable"; "toString"; "valueOf"; "__proto__";
      "toLocaleString" ]%string.

Fixpoint own (properties : list (jsstring * jsstring)) (key : jsstring)
  : option jsstring :=
  match properties with
  | [] => None
  | (k, v) :: rest => if jsstring_eqb k key then Some v else own rest key
  end.

Definition getKeywordDoc (keyword : jsstring) : Member :=
  match own docs keyword with
  | Some doc => MString doc
  | None =>
      if has inherited keyword then MInherited
      else MString (str "**" ++ keyword ++ str "**")
  end.

(** The test of the loop of [handleHover]. *)
Definition covers (position : Position.t) (token : Token.t) : bool :=
  (Token.line token =? Position.line position + 1)%Z
  && (Token.column token <=? Position.character position + 1)%Z
  && (Token.column token + Token.length token
      >? Position.character position + 1)%Z.

(** [for (const token of tokens) { ... }] of [handleHover] *)
Fixpoint hover_tokens (position : Position.t) (tokens : list Token.t)
  : option Hover.t :=
  match tokens with
  | [] => None
  | token :: rest =>
      if covers position token then
        if TokenType_eqb (Token.type token) KEYWORD
        then Some (Hover.mk (getKeywordDoc (Token.value token)))
        else if TokenType_eqb (Token.type token) IDENTIFIER
        then Some (Hover.mk
                     (MString (str "**" ++ Token.value token ++ str "**"
                               ++ [LF; LF] ++ str "Identifier")))
        else hover_tokens position rest
      else hover_tokens position rest
  end.

Definition handleHover (documents : Documents) (uri : jsstring)
    (position : Position.t) : Result (option Hover.t) :=
  match get documents uri with
  | None => Returned None
  | Some doc =>
      match Lexer.tokenize (Document.text doc) with
      | None => Diverged
      | Some (tokens, _) => Returned (hover_tokens position tokens)
      end
  end.

Definition lexDiagnostic (error : LexerError.t) : Diagnostic.t :=
  Diagnostic.mk
    (Range.mk
       (Position.mk (LexerError.line error - 1) (LexerError.column error - 1))
       (Position.mk (LexerError.line error - 1) (LexerError.column error)))
    1 (LexerError.message error) (str "noteg").

Definition parseDiagnostic (error : ParseError.t) : Diagnostic.t :=
  let token := ParseError.token error in
  Diagnostic.mk
    (Range.mk
       (Position.mk (Token.line token - 1) (Token.column token - 1))
       (Position.mk (Token.line token - 1)
          (Token.column token + Token.length token)))
    1 (ParseError.message error) (str "noteg").

(** [validateDocument] returns the diagnostics and stores the tree in the
    document. *)
Definition validateDocument (documents : Documents) (uri : jsstring)
  : Result (list Diagnostic.t * Documents) :=
  match get documents uri with
  | None => Returned ([], documents)
  | Some doc =>
      match Lexer.tokenize (Document.text doc) with
      | None => Diverged
      | Some (tokens, lexErrors) =>
          let diagnostics := map lexDiagnostic lexErrors in
          match Parser.parse tokens with
          | Parser.Ok (ast, parseErrors) _ =>
              let diagnostics := diagnostics ++ map parseDiagnostic parseErrors in
              Returned
                (diagnostics,
                 set documents uri
                   (Document.mk (Document.text doc) (Document.version doc)
                      (Some ast)))
          | Parser.Throw e _ => Thrown e
          | Parser.OutOfFuel => Diverged
          end
      end
  end.

(** The handlers discard the diagnostics [validateDocument] returns. *)
Definition handleDidOpen (documents : Documents) (uri text : jsstring)
    (version : Z) : Result Documents :=
  let documents := set documents uri (Document.mk text version None) in
  match validateDocument documents uri with
  | Returned (_, documents) => Returned documents
  | Thrown e => Thrown e
  | Diverged => Diverged
  end.

Definition handleDidChange (documents : Documents) (uri : jsstring)
    (version : Z) (contentChanges : list jsstring) : Result Documents :=
  match contentChanges with
  | text :: _ =>
      let documents := set documents uri (Document.mk text version None) in
      match validateDocument documents uri with
      | Returned (_, documents) => Returned documents
      | Thrown e => Thrown e
      | Diverged => Diverged
      end
  | [] => Returned documents
  end.

Definition handleDidClose (documents : Documents) (uri : jsstring)
  : Documents :=
  delete documents uri.

End NotegLanguageServer.

(** ** Template parts of a tree *)

Definition isPartExpression (p : TemplatePart) : bool :=
  match p with
  | PartExpression _ => true
  | PartText _ => false
  end.

(** Every template statement of [stmt], at any depth, has only interpolated
    expressions as parts. *)
Fixpoint interpolations_only (stmt : StatementNode) : bool :=
  match stmt with
  | FunctionDeclaration _ _ body => forallb interpolations_only body
  | IfStatement _ consequent alternate =>
      forallb interpolations_only consequent
      && match alternate with
         | Some stmts => forallb interpolations_only stmts
         | None => true
         end
  | ForStatement _ _ body => forallb interpolations_only body
  | ExportStatement declaration => interpolations_only declaration
  | TemplateStatement parts => forallb isPartExpression parts
  | VariableDeclaration _ _ _ | ExpressionStatement _ | ReturnStatement _
  | ImportStatement _ _ => true
  end.

Definition no_TEMPLATE_TEXT (tokens : list Token.t) : Prop :=
  Forall (fun t => Token.type t <> TEMPLATE_TEXT) tokens.

(** ** The precedence ladder, as the specification words it *)

(** Binding strength of the binary operators, low to high: pipe, logical
    or, logical and, equality, additive, multiplicative. *)
Definition binary_level (type : TokenType) : option nat :=
  match type with
  | PIPE => Some 1
  | OR => Some 2
  | AND => Some 3
  | EQUALS | NOT_EQUALS => Some 4
  | PLUS | MINUS => Some 5
  | MULTIPLY | DIVIDE | MODULO => Some 6
  | _ => None
  end.

(** The node built for the operator token [op] applied to [left] and [right]. *)
Definition binary_node (op : Token.t) (left right : ExpressionNode)
  : ExpressionNode :=
  match Token.type op with
  | PIPE => PipeExpression left right
  | OR => BinaryExpression (str "||") left right
  | AND => BinaryExpression (str "&&") left right
  | _ => BinaryExpression (Token.value op) left right
  end.

Definition number_literal (t : Token.t) : ExpressionNode :=
  Literal (VNumber (Token.value t)) (Token.value t).

(** ** The source text behind the lexer's output *)

(** A stretch of the source and what the lexer made of it. *)
Inductive Piece : Set :=
| PToken (t : Token.t) (raw : jsstring)
| PBlank (c : char)
| PError (e : LexerError.t) (raw : jsstring)
| PSkipped (c : char).

Definition raw_of (p : Piece) : jsstring :=
  match p with
  | PToken _ raw => raw
  | PBlank c => [c]
  | PError _ raw => raw
  | PSkipped c => [c]
  end.

Definition tokens_of (ps : list Piece) : list Token.t :=
  flat_map (fun p => match p with PToken t _ => [t] | _ => [] end) ps.

Definition errors_of (ps : list Piece) : list LexerError.t :=
  flat_map (fun p => match p with PError e _ => [e] | _ => [] end) ps.

Definition is_blank (c : char) : Prop :=
  c = chr " " \/ c = TAB \/ c = CR \/ c = LF.

(** The round trip as claimed: the text of each token is the stretch of
    source it stands for, what lies between tokens is whitespace or line
    breaks, and any other stretch has a lexical error recorded for it. *)
Definition piece_claimed (p : Piece) : Prop :=
  match p with
  | PToken t raw => raw = Token.value t
  | PBlank c => is_blank c
  | PError _ raw => raw <> []
  | PSkipped _ => False
  end.

Definition round_trip_claimed (source : jsstring) (tokens : list Token.t)
    (errors : list LexerError.t) : Prop :=
  exists pieces,
    List.concat (map raw_of pieces) = source
    /\ tokens_of pieces = tokens
    /\ errors_of pieces = errors
    /\ Forall piece_claimed pieces.

(** [resolves quote body text]: [text] is [body] with its escape sequences
    resolved, and [body] has no unescaped [quote]. *)
Inductive resolves (quote : char) : jsstring -> jsstring -> Prop :=
| resolves_nil : resolves quote [] []
| resolves_char body text c :
    resolves quote body text -> c <> quote -> c <> BACKSLASH ->
    resolves quote (body ++ [c]) (text ++ [c])
| resolves_escape body text c :
    resolves quote body text ->
    resolves quote (body ++ [BACKSLASH; c]) (text ++ Lexer.unescape (Some c)).

(** The round trip as the lexer makes it: a string literal stands for its
    quoted source, of which its text is the resolved body; an error is
    recorded for an unexpected character and for an unterminated string up
    to the end of the input; a skipped character is an ampersand. *)
Definition piece_scanned (p : Piece) : Prop :=
  match p with
  | PToken t raw =>
      Token.length t = Lexer.len (Token.value t)
      /\ match Token.type t with
         | STRING =>
             exists quote body,
               (quote = DQUOTE \/ quote = SQUOTE)
               /\ raw = quote :: body ++ [quote]
               /\ resolves quote body (Token.value t)
         | _ => raw = Token.value t
         end
  | PBlank c => c = chr " " \/ c = TAB \/ c = CR
  | PError e raw =>
      (exists c, raw = [c]
                 /\ LexerError.message e = str "Unexpected character: " ++ [c])
      \/ (exists quote rest,
            (quote = DQUOTE \/ quote = SQUOTE)
            /\ raw = quote :: rest
            /\ LexerError.message e = str "Unterminated string")
  | PSkipped c => c = chr "&"
  end.

Definition round_trip_scanned (source : jsstring) (tokens : list Token.t)
    (errors : list LexerError.t) : Prop :=
  exists pieces,
    List.concat (map raw_of pieces) = source
    /\ tokens_of pieces = tokens
    /\ errors_of pieces = errors
    /\ Forall piece_scanned pieces.

(** * Invariants

    The predicates the properties below are stated and proved with. *)

(** ** Positions *)

(** [(l1, c1) <= (l2, c2)] in the lexicographic order of (line, column). *)
Definition position_le (l1 c1 l2 c2 : Z) : Prop :=
  (l1 < l2 \/ (l1 = l2 /\ c1 <= c2))%Z.

Definition Token_le (a b : Token.t) : Prop :=
  position_le (Token.line a) (Token.column a) (Token.line b) (Token.column b).

(** ** The lexer *)

Section LexerInvariants.

Import Lexer.

Variable source : jsstring.

(** What is left to scan, plus one: [string] may step one past the end. *)
Definition left (a : State * jsstring) : nat :=
  S (List.length source) - pos (fst a).

(** A loop of the lexer whose every iteration moves [pos] forward, and
    only runs before the end of the source. *)
Definition advances (step : State * jsstring -> option (LoopStep (State * jsstring)))
  : Prop :=
  forall a,
    match step a with
    | Some (Continue a') =>
        pos (fst a) < List.length source /\ pos (fst a) < pos (fst a')
    | Some (Break a') => pos (fst a) <= pos (fst a')
    | None => False
    end.

(** The inner loops leave the token and error lists alone. *)
Definition frames (step : State * jsstring -> option (LoopStep (State * jsstring)))
  : Prop :=
  forall a a',
    step a = Some (Continue a') \/ step a = Some (Break a') ->
    tokens (fst a') = tokens (fst a) /\ errors (fst a') = errors (fst a).

(** The token [addToken] builds from the state's position. *)
Definition emitted (s s' : State) : Prop :=
  errors s' = errors s /\
  exists type value l c,
    tokens s' = tokens s ++ [Token.mk type value l (c - len value) (len value)]
    /\ type <> TEMPLATE_TEXT /\ type <> EOF.

(** One [scanToken] appends one token and no error, or at most one error
    and no token. *)
Definition appended (s s' : State) : Prop :=
  emitted s s'
  \/ (tokens s' = tokens s /\ errors s' = errors s)
  \/ (tokens s' = tokens s /\ exists e, errors s' = errors s ++ [e]).

(** While a token is scanned on the line [l0] it started on, its text is no
    longer than the columns consumed since [c0]. *)
Definition tracks (l0 c0 : Z) (a : State * jsstring) : Prop :=
  position_le l0 c0 (line (fst a)) (column (fst a) - len (snd a)).

(** [string] can step past the end of the source after a trailing backslash;
    no token is appended then. *)
Definition tracks_string (l0 c0 : Z) (a : State * jsstring) : Prop :=
  position_le l0 c0 (line (fst a)) (column (fst a))
  /\ (List.length source < pos (fst a) \/ tracks l0 c0 a).

(** The effect of scanning one lexeme that started at [(l0, c0)]: the
    position did not move backwards, and a token, if one was appended, lies
    between [(l0, c0)] and the position reached. *)
Definition ordered (l0 c0 : Z) (s s' : State) : Prop :=
  position_le l0 c0 (line s') (column s')
  /\ (tokens s' = tokens s
      \/ exists t, tokens s' = tokens s ++ [t]
           /\ position_le l0 c0 (Token.line t) (Token.column t)
           /\ position_le (Token.line t) (Token.column t) (line s') (column s')).

(** The invariant of the scan loop: the tokens so far are sorted and none
    lies after the current position. *)
Definition sorted_upto (s : State) : Prop :=
  StronglySorted Token_le (tokens s)
  /\ Forall (fun t => position_le (Token.line t) (Token.column t) (line s) (column s))
       (tokens s).

(** The text scanned so far is the source from where the lexeme began. *)
Definition accumulates (base : jsstring) (a : State * jsstring) : Prop :=
  firstn (pos (fst a)) source = base ++ snd a.

(** The body of a string literal scanned so far, and its resolved text;
    after a trailing backslash the lexer is past the end and the text is
    no longer the resolved body. *)
Definition string_inv (base : jsstring) (quote : char) (a : State * jsstring)
  : Prop :=
  exists body,
    firstn (pos (fst a)) source = base ++ quote :: body
    /\ (pos (fst a) <= List.length source -> resolves quote body (snd a)).

(** One lexeme: the stretch of source consumed and what was appended. *)
Definition scanned (base : jsstring) (s s' : State) : Prop :=
  exists p : Piece,
    firstn (pos s') source = base ++ raw_of p
    /\ tokens s' = tokens s ++ tokens_of [p]
    /\ errors s' = errors s ++ errors_of [p]
    /\ piece_scanned p.

(** The invariant of the scan loop: the source up to [pos] is cut into the
    pieces behind the tokens and errors so far. *)
Definition covered (s : State) : Prop :=
  exists pieces,
    List.concat (map raw_of pieces) = firstn (pos s) source
    /\ tokens_of pieces = tokens s
    /\ errors_of pieces = errors s
    /\ Forall piece_scanned pieces.

End LexerInvariants.

(** ** The parser *)

Section ParserInvariants.

Import Parser.

Variable tokens : list Token.t.

(** The state after consuming the current token. *)
Definition next (s : State) : State := mkState (S (pos s)) (errors s).

(** [check type] on the current token [t]. *)
Definition checkb (type : TokenType) (t : Token.t) : bool :=
  if TokenType_eqb (Token.type t) EOF then false
  else TokenType_eqb (Token.type t) type.

(** [this.tokens[this.pos]] is defined. *)
Definition valid (s : State) : Prop := pos s < List.length tokens.

(** An acceptable outcome of a method started at position [p0]: it returned,
    or threw a [ParseError] that it has recorded; the position is still
    valid and did not move backwards, and moved forwards when [Q] says so;
    the value satisfies [R]. *)
Definition goodP {A : Type} (p0 : nat) (Q : A -> bool) (R : A -> Prop)
    (o : Outcome A) : Prop :=
  match o with
  | Ok a s' => valid s' /\ (if Q a then p0 < pos s' else p0 <= pos s') /\ R a
  | Throw (EParseError e) s' => valid s' /\ p0 <= pos s' /\ In e (errors s')
  | Throw ETypeError _ => False
  | OutOfFuel => False
  end.

(** [m] is acceptable from every valid state with at most [n] tokens left. *)
Definition safe {A : Type} (n : nat) (Q : A -> bool) (R : A -> Prop) (m : M A)
  : Prop :=
  forall s, valid s -> List.length tokens - pos s <= n -> goodP (pos s) Q R (m s).

(** What is shown of a statement the parser returns. *)
Definition RS (stmt : StatementNode) : Prop :=
  no_TEMPLATE_TEXT tokens -> interpolations_only stmt = true.

Definition RB (body : list StatementNode) : Prop :=
  no_TEMPLATE_TEXT tokens -> forallb interpolations_only body = true.

Definition RP (parts : list TemplatePart) : Prop :=
  no_TEMPLATE_TEXT tokens -> forallb isPartExpression parts = true.

(** The current token is the end-of-input token. *)
Definition at_end (s : State) : Prop :=
  exists t, nth_error tokens (pos s) = Some t /\ Token.type t = EOF.

Definition statement_keywords : list jsstring :=
  map str ["let"; "const"; "fn"; "if"; "for"; "return"; "import"; "export"]%string.

(** Where [synchronize] stops: at the end of the input, just after a
    semicolon, or on a keyword that starts a statement. *)
Definition synced (s : State) : Prop :=
  at_end s
  \/ (exists p, previous tokens s = Ok (Some p) s /\ Token.type p = SEMICOLON)
  \/ (exists t, nth_error tokens (pos s) = Some t
                /\ Token.type t = KEYWORD
                /\ includes statement_keywords (Token.value t) = true).

End ParserInvariants.

(** ** Syntax errors *)

Section ParserErrors.

Import Parser.

Variable tokens : list Token.t.

(** A method that records an error only to throw it: when it returns the
    error list is as it was, and when it throws a [ParseError] that error is
    the one new entry of the list, and its token is the current one. *)
Definition quiet {A : Type} (m : M A) : Prop :=
  forall s,
    match m s with
    | Ok _ s' => errors s' = errors s
    | Throw (EParseError e) s' =>
        errors s' = errors s ++ [e]
        /\ nth_error tokens (pos s') = Some (ParseError.token e)
    | Throw ETypeError _ => True
    | OutOfFuel => True
    end.

(** The errors are reported on the tokens at [positions], in this order. *)
Definition reported_at (positions : list nat) (errors : list ParseError.t)
  : Prop :=
  Forall2 (fun p e => nth_error tokens p = Some (ParseError.token e))
    positions errors.

(** The invariant of the statement loop: the errors so far are on tokens
    at increasing positions, all before the current one unless the input is
    exhausted. *)
Definition errors_upto (s : State) : Prop :=
  exists positions,
    reported_at positions (errors s)
    /\ StronglySorted lt positions
    /\ (at_end tokens s \/ Forall (fun p => p < pos s) positions).

End ParserErrors.

(** ** Where statements and expressions can start *)

(** The kinds of token [parseUnary] and [parsePrimary] have a case for. *)
Definition starts_expression (type : TokenType) : bool :=
  match type with
  | NUMBER | STRING | BOOLEAN | NULL | IDENTIFIER
  | LBRACKET | LBRACE | LPAREN | NOT | MINUS => true
  | _ => false
  end.

(** The tokens [parseStatement] has a case for: the keywords of its
    [switch], and what an expression can start with. *)
Definition starts_statement (t : Token.t) : bool :=
  match Token.type t with
  | KEYWORD =>
      Parser.includes
        (map str ["let"; "const"; "fn"; "return"; "if"; "for"; "import";
                  "export"; "template"]%string)
        (Token.value t)
  | type => starts_expression type
  end.

(** The outcome of [throw this.error(token, message)]. *)
Definition thrown (A : Type) (message : string) (t : Token.t)
    (s : Parser.State) : Parser.Outcome A :=
  let e := ParseError.mk (str message) t in
  Parser.Throw (EParseError e)
    (Parser.mkState (Parser.pos s) (Parser.errors s ++ [e])).

(** ** Token kinds and template markers *)

(** A word: a letter or underscore, then letters, digits and underscores. *)
Definition is_word (v : jsstring) : bool :=
  match v with
  | [] => false
  | c :: rest => Lexer.isAlpha c && forallb Lexer.isAlphaNumeric rest
  end.

Fixpoint after_digits (v : jsstring) : jsstring :=
  match v with
  | [] => []
  | c :: rest => if Lexer.isDigit c then after_digits rest else v
  end.

(** The text of a number: digits, then optionally a point and digits. *)
Definition is_number_text (v : jsstring) : bool :=
  match v with
  | [] => false
  | c :: _ =>
      Lexer.isDigit c
      && match after_digits v with
         | [] => true
         | point :: fraction =>
             (point =? chr ".")%N
             && match fraction with
                | [] => false
                | _ => forallb Lexer.isDigit fraction
                end
         end
  end.

(** The text of a comment: two slashes and the rest of the line, or a slash
    and a star and what follows. *)
Definition is_comment_text (v : jsstring) : bool :=
  match v with
  | c1 :: c2 :: rest =>
      (c1 =? chr "/")%N
      && (((c2 =? chr "/")%N && forallb (fun c => negb (c =? LF)%N) rest)
          || (c2 =? chr "*")%N)
  | _ => false
  end.

(** The text a token of each kind can have.  The lexer has no case that
    builds a [TEMPLATE_TEXT] or an [ERROR] token. *)
Definition kind_text (t : Token.t) : bool :=
  let v := Token.value t in
  match Token.type t with
  | LPAREN => jsstring_eqb v (str "(")
  | RPAREN => jsstring_eqb v (str ")")
  | LBRACE => jsstring_eqb v (str "{")
  | RBRACE => jsstring_eqb v (str "}")
  | LBRACKET => jsstring_eqb v (str "[")
  | RBRACKET => jsstring_eqb v (str "]")
  | COMMA => jsstring_eqb v (str ",")
  | DOT => jsstring_eqb v (str ".")
  | COLON => jsstring_eqb v (str ":")
  | SEMICOLON => jsstring_eqb v (str ";")
  | PLUS => jsstring_eqb v (str "+")
  | MINUS => jsstring_eqb v (str "-")
  | MULTIPLY => jsstring_eqb v (str "*")
  | DIVIDE => jsstring_eqb v (str "/")
  | MODULO => jsstring_eqb v (str "%")
  | ASSIGN => jsstring_eqb v (str "=")
  | EQUALS => jsstring_eqb v (str "==")
  | NOT_EQUALS => jsstring_eqb v (str "!=")
  | NOT => jsstring_eqb v (str "!")
  | AND => jsstring_eqb v (str "&&")
  | OR => jsstring_eqb v (str "||")
  | PIPE => jsstring_eqb v (str "|>") || jsstring_eqb v (str "|")
  | ARROW => jsstring_eqb v (str "->")
  | TEMPLATE_START => jsstring_eqb v (str "{{")
  | TEMPLATE_END => jsstring_eqb v (str "}}")
  | NEWLINE => jsstring_eqb v [LF]
  | EOF => jsstring_eqb v []
  | BOOLEAN => jsstring_eqb v (str "true") || jsstring_eqb v (str "false")
  | NULL => jsstring_eqb v (str "null")
  | KEYWORD =>
      has KEYWORDS v
      && negb (jsstring_eqb v (str "true") || jsstring_eqb v (str "false"))
      && negb (jsstring_eqb v (str "null"))
  | IDENTIFIER => is_word v && negb (has KEYWORDS v)
  | NUMBER => is_number_text v
  | COMMENT => is_comment_text v
  | STRING => true
  | TEMPLATE_TEXT | ERROR => false
  end.

(** Reading the template markers of a token sequence from left to right:
    whether a template is open after it, and whether every [TEMPLATE_END]
    came while one was open. *)
Fixpoint template_scan (open : bool) (tokens : list Token.t) : bool * bool :=
  match tokens with
  | [] => (open, true)
  | t :: rest =>
      match Token.type t with
      | TEMPLATE_START => template_scan true rest
      | TEMPLATE_END =>
          let '(open', ok) := template_scan false rest in (open', open && ok)
      | _ => template_scan open rest
      end
  end.

Definition template_ends_matched (tokens : list Token.t) : bool :=
  snd (template_scan false tokens).

(** The inner loops of the lexer leave the token list and the template flag
    alone. *)
Definition keeps
    (step : Lexer.State * jsstring -> option (LoopStep (Lexer.State * jsstring)))
  : Prop :=
  forall a a',
    step a = Some (Continue a') \/ step a = Some (Break a') ->
    Lexer.tokens (fst a') = Lexer.tokens (fst a)
    /\ Lexer.inTemplate (fst a') = Lexer.inTemplate (fst a).

(** The text an inner loop has gathered is the text it started with and
    then characters that satisfy [p]. *)
Definition grows (p : char -> bool) (v0 : jsstring)
    (a : Lexer.State * jsstring) : Prop :=
  exists w, snd a = v0 ++ w /\ forallb p w = true.

(** What one [scanToken] does to the token list and the template flag. *)
Definition kind_step (s s' : Lexer.State) : Prop :=
  (Lexer.tokens s' = Lexer.tokens s
   /\ Lexer.inTemplate s' = Lexer.inTemplate s)
  \/ (exists t,
        Lexer.tokens s' = Lexer.tokens s ++ [t]
        /\ kind_text t = true
        /\ Token.type t <> EOF
        /\ match Token.type t with
           | TEMPLATE_START => Lexer.inTemplate s' = true
           | TEMPLATE_END =>
               Lexer.inTemplate s = true /\ Lexer.inTemplate s' = false
           | _ => Lexer.inTemplate s' = Lexer.inTemplate s
           end).

(** The invariant of the scan loop: every token so far has the text of its
    kind and is not the end-of-input token, and the template flag is what
    the markers so far leave it at. *)
Definition kinds_upto (s : Lexer.State) : Prop :=
  Forall (fun t => kind_text t = true /\ Token.type t <> EOF) (Lexer.tokens s)
  /\ template_scan false (Lexer.tokens s) = (Lexer.inTemplate s, true).

(** ** Lexemes *)

(** The kind [identifier] gives a word. *)
Definition word_kind (v : jsstring) : TokenType :=
  if jsstring_eqb v (str "true") || jsstring_eqb v (str "false") then BOOLEAN
  else if jsstring_eqb v (str "null") then NULL
  else if has KEYWORDS v then KEYWORD
  else IDENTIFIER.

(** The state after a lexeme of [n] characters, all on the line of [s],
    for which the token [t] was appended. *)
Definition lexed (s : Lexer.State) (n : nat) (t : Token.t) : Lexer.State :=
  Lexer.mkState (Lexer.pos s + n) (Lexer.line s)
    (Lexer.column s + Z.of_nat n) (Lexer.tokens s ++ [t]) (Lexer.errors s)
    (Lexer.inTemplate s).

(** One or more digits. *)
Definition is_digits (v : jsstring) : bool :=
  match v with
  | [] => false
  | _ => forallb Lexer.isDigit v
  end.

(** ** Lines and columns *)

(** What one [scanToken] does to the position: lines and columns stay
    positive, and so are the line of a token and the line and column of an
    error it appends. *)
Definition positive (s : Lexer.State) : Prop :=
  (1 <= Lexer.line s /\ 1 <= Lexer.column s)%Z.

Definition positive_upto (s : Lexer.State) : Prop :=
  positive s
  /\ Forall (fun t => 1 <= Token.line t /\ 0 <= Token.length t)%Z
       (Lexer.tokens s)
  /\ Forall (fun e => 1 <= LexerError.line e /\ 1 <= LexerError.column e)%Z
       (Lexer.errors s).

(** An inner loop keeps lines and columns positive. *)
Definition keeps_positive
    (step : Lexer.State * jsstring -> option (LoopStep (Lexer.State * jsstring)))
  : Prop :=
  forall a a',
    step a = Some (Continue a') \/ step a = Some (Break a') ->
    positive (fst a) -> positive (fst a').

(** The line the lexer is on is one more than the number of line feeds it
    has consumed. *)
Definition counted (source : jsstring) (s : Lexer.State) : Prop :=
  Lexer.line s
  = (1 + Z.of_nat (count_occ N.eq_dec (firstn (Lexer.pos s) source) LF))%Z.

(** ** Diagnostics and hovers *)

(** A diagnostic as the server builds them: an error from [noteg], on one
    line that is not before the first, with a range that is not empty. *)
Definition well_formed (d : Diagnostic.t) : Prop :=
  Diagnostic.severity d = 1%Z
  /\ Diagnostic.source d = str "noteg"
  /\ Position.line (Range.start (Diagnostic.range d))
     = Position.line (Range.end_ (Diagnostic.range d))
  /\ (0 <= Position.line (Range.start (Diagnostic.range d)))%Z
  /\ (Position.character (Range.start (Diagnostic.range d))
      < Position.character (Range.end_ (Diagnostic.range d)))%Z.

(** The range starts on the line, not before its first column. *)
Definition on_line (d : Diagnostic.t) : Prop :=
  (0 <= Position.character (Range.start (Diagnostic.range d)))%Z.

(** A token [handleHover] answers for. *)
Definition hoverable (position : Position.t) (token : Token.t) : bool :=
  NotegLanguageServer.covers position token
  && (TokenType_eqb (Token.type token) KEYWORD
      || TokenType_eqb (Token.type token) IDENTIFIER).

(** * Properties *)

(** ** Loops *)

(** Total correctness of a loop: an invariant, a measure that every
    [Continue] decreases, and a postcondition that every [Break] meets. *)
Lemma loop_spec (A : Type) (step : A -> option (LoopStep A))
    (Inv Post : A -> Prop) (m : A -> nat) :
  (forall a, Inv a ->
     match step a with
     | Some (Continue a') => Inv a' /\ m a' < m a
     | Some (Break a') => Post a'
     | None => False
     end) ->
  forall fuel a, Inv a -> m a < fuel ->
  exists a', loop fuel step a = Some a' /\ Post a'.
Proof.
  intros Hstep fuel.
  induction fuel as [|fuel IH]; intros a Ha Hm; [lia|].
  simpl. specialize (Hstep a Ha).
  destruct (step a) as [[a'|a']|]; [|eauto|contradiction].
  destruct Hstep as [Ha' Hlt]. apply IH; [assumption|lia].
Qed.

(** Partial correctness of a loop. *)
Lemma loop_inv (A : Type) (step : A -> option (LoopStep A))
    (Inv Post : A -> Prop) :
  (forall a a', Inv a -> step a = Some (Continue a') -> Inv a') ->
  (forall a a', Inv a -> step a = Some (Break a') -> Post a') ->
  forall fuel a a', Inv a -> loop fuel step a = Some a' -> Post a'.
Proof.
  intros Hc Hb fuel.
  induction fuel as [|fuel IH]; intros a a' Ha Hl; [discriminate|].
  simpl in Hl. destruct (step a) as [[a1|a1]|] eqn:E; [|inversion Hl; subst|discriminate];
    eauto.
Qed.

(** ** The lexer terminates *)

Section LexerTermination.

Import Lexer.

Variable source : jsstring.
Local Abbreviation left := (left source).
Local Abbreviation advances := (advances source).

Lemma isAtEnd_false (s : State) :
  isAtEnd source s = false <-> pos s < List.length source.
Proof. unfold isAtEnd. rewrite Nat.leb_gt. reflexivity. Qed.

Lemma isAtEnd_true (s : State) :
  isAtEnd source s = true <-> List.length source <= pos s.
Proof. unfold isAtEnd. rewrite Nat.leb_le. reflexivity. Qed.

Lemma isDigit_peek (s : State) :
  isDigit (peek source s) = true -> pos s < List.length source.
Proof.
  unfold peek. destruct (isAtEnd source s) eqn:E.
  - discriminate.
  - intros _. now apply isAtEnd_false.
Qed.

Lemma isAlphaNumeric_peek (s : State) :
  isAlphaNumeric (peek source s) = true -> pos s < List.length source.
Proof.
  unfold peek. destruct (isAtEnd source s) eqn:E.
  - discriminate.
  - intros _. now apply isAtEnd_false.
Qed.

Lemma left_gas (a : State * jsstring) : left a < gas source.
Proof. unfold left, gas. lia. Qed.

Lemma advances_loop step (s : State) (v : jsstring) :
  advances step ->
  exists s' v', loop (gas source) step (s, v) = Some (s', v') /\ pos s <= pos s'.
Proof.
  intros H.
  destruct (@loop_spec _ step (fun a => pos s <= pos (fst a))
              (fun a => pos s <= pos (fst a)) left) with (fuel := gas source) (a := (s, v))
    as [[s' v'] [E Hp]].
  - intros a Ha. specialize (H a).
    destruct (step a) as [[a'|a']|]; [|lia|assumption].
    unfold left. split; lia.
  - simpl. lia.
  - apply left_gas.
  - eauto.
Qed.

Lemma string_step_advances (quote : char) : advances (string_step source quote).
Proof.
  intros [s v]. unfold string_step.
  destruct (isAtEnd source s) eqn:E; simpl; [lia|].
  apply isAtEnd_false in E.
  destruct (peek source s =? quote)%N; simpl; [lia|].
  destruct (peek source s =? LF)%N;
    match goal with |- context [if ?b then _ else _] => destruct b end;
    simpl; lia.
Qed.

Lemma digits_step_advances : advances (digits_step source).
Proof.
  intros [s v]. unfold digits_step.
  destruct (isDigit (peek source s)) eqn:E; simpl; [|lia].
  apply isDigit_peek in E. lia.
Qed.

Lemma identifier_step_advances : advances (identifier_step source).
Proof.
  intros [s v]. unfold identifier_step.
  destruct (isAlphaNumeric (peek source s)) eqn:E; simpl; [|lia].
  apply isAlphaNumeric_peek in E. lia.
Qed.

Lemma lineComment_step_advances : advances (lineComment_step source).
Proof.
  intros [s v]. unfold lineComment_step.
  destruct (isAtEnd source s) eqn:E; simpl; [lia|].
  apply isAtEnd_false in E.
  destruct (peek source s =? LF)%N; simpl; lia.
Qed.

Lemma blockComment_step_advances : advances (blockComment_step source).
Proof.
  intros [s v]. unfold blockComment_step.
  destruct (isAtEnd source s) eqn:E; simpl; [lia|].
  apply isAtEnd_false in E.
  repeat match goal with |- context [if ?b then _ else _] => destruct b end;
    simpl; lia.
Qed.

Lemma string_total (quote : char) (s : State) :
  exists s', string source quote s = Some s' /\ pos s <= pos s'.
Proof.
  unfold string.
  destruct (advances_loop s [] (string_step_advances quote)) as (s1 & v1 & E & Hp).
  rewrite E. destruct (isAtEnd source s1); eexists; split; try reflexivity; simpl; lia.
Qed.

Lemma number_total (first : char) (s : State) :
  exists s', number source first s = Some s' /\ pos s <= pos s'.
Proof.
  unfold number.
  destruct (advances_loop s [first] digits_step_advances) as (s1 & v1 & E & Hp).
  rewrite E.
  destruct ((peek source s1 =? chr ".")%N && isDigit (peekNext source s1)).
  - unfold advance; cbv beta iota.
    destruct (advances_loop
                (set_pos (S (pos s1)) (set_column (column s1 + 1) s1))
                (v1 ++ toStr (nth_error source (pos s1))) digits_step_advances)
      as (s2 & v2 & E2 & Hp2).
    rewrite E2. eexists; split; [reflexivity|]. simpl in *. lia.
  - eexists; split; [reflexivity|]. simpl. lia.
Qed.

Lemma identifier_total (first : char) (s : State) :
  exists s', identifier source first s = Some s' /\ pos s <= pos s'.
Proof.
  unfold identifier.
  destruct (advances_loop s [first] identifier_step_advances) as (s1 & v1 & E & Hp).
  rewrite E.
  repeat match goal with |- context [if ?b then _ else _] => destruct b end;
    eexists; split; try reflexivity; simpl; lia.
Qed.

Lemma lineComment_total (s : State) :
  exists s', lineComment source s = Some s' /\ pos s <= pos s'.
Proof.
  unfold lineComment, advance; cbv beta iota zeta.
  destruct (advances_loop (set_pos (S (pos s)) (set_column (column s + 1) s))
              (str "//") lineComment_step_advances) as (s1 & v1 & E & Hp).
  rewrite E. eexists; split; [reflexivity|]. simpl in *. lia.
Qed.

Lemma blockComment_total (s : State) :
  exists s', blockComment source s = Some s' /\ pos s <= pos s'.
Proof.
  unfold blockComment, advance; cbv beta iota zeta.
  destruct (advances_loop (set_pos (S (pos s)) (set_column (column s + 1) s))
              (str "/*") blockComment_step_advances) as (s1 & v1 & E & Hp).
  rewrite E. eexists; split; [reflexivity|]. simpl in *. lia.
Qed.

(** [scanToken] returns and consumes at least one character. *)
Lemma scanToken_total (s : State) :
  exists s', scanToken source s = Some s' /\ pos s < pos s'.
Proof.
  unfold scanToken, advance.
  destruct (nth_error source (pos s)) as [c|]; [|eexists; split; [reflexivity|simpl; lia]].
  repeat match goal with
         | |- context [if ?b then _ else _] => destruct b
         end;
    try (eexists; split; [reflexivity|simpl; lia]);
    match goal with
    | |- exists _, lineComment _ ?x = _ /\ _ =>
        destruct (lineComment_total x) as (s' & E & Hp)
    | |- exists _, blockComment _ ?x = _ /\ _ =>
        destruct (blockComment_total x) as (s' & E & Hp)
    | |- exists _, string _ ?q ?x = _ /\ _ =>
        destruct (string_total q x) as (s' & E & Hp)
    | |- exists _, number _ ?q ?x = _ /\ _ =>
        destruct (number_total q x) as (s' & E & Hp)
    | |- exists _, identifier _ ?q ?x = _ /\ _ =>
        destruct (identifier_total q x) as (s' & E & Hp)
    end;
    rewrite E; eexists; (split; [reflexivity|simpl in *; lia]).
Qed.

(** The scan loop returns, whatever the state it starts from. *)
Lemma tokenize_loop_total (s : State) :
  exists s', loop (gas source) (tokenize_step source) s = Some s'.
Proof.
  destruct (@loop_spec _ (tokenize_step source) (fun _ => True) (fun _ => True)
              (fun s => S (List.length source) - pos s)) with (fuel := gas source) (a := s)
    as (s' & E & _); eauto.
  - intros a _. unfold tokenize_step.
    destruct (isAtEnd source a) eqn:E; cbn [negb]; [exact I|].
    apply isAtEnd_false in E.
    destruct (scanToken_total a) as (s' & Es & Hp). rewrite Es. split; [exact I|lia].
  - unfold gas. lia.
Qed.

Lemma run_total : exists s, run source = Some s.
Proof.
  unfold run. destruct (tokenize_loop_total init) as (s & E). rewrite E. eauto.
Qed.

End LexerTermination.

(** ** What one [scanToken] appends *)

Section LexerEmits.

Import Lexer.

Variable source : jsstring.

Lemma frames_loop step fuel (a a' : State * jsstring) :
  frames step ->
  loop fuel step a = Some a' ->
  tokens (fst a') = tokens (fst a) /\ errors (fst a') = errors (fst a).
Proof.
  intros H.
  apply (@loop_inv _ step
           (fun x => tokens (fst x) = tokens (fst a) /\ errors (fst x) = errors (fst a))
           (fun x => tokens (fst x) = tokens (fst a) /\ errors (fst x) = errors (fst a))).
  - intros x x' [Ht He] E. destruct (H x x' (or_introl E)). split; congruence.
  - intros x x' [Ht He] E. destruct (H x x' (or_intror E)). split; congruence.
  - split; reflexivity.
Qed.

Ltac frames_tac :=
  intros [s v] a' [E|E]; cbv beta iota zeta delta
    [string_step digits_step identifier_step lineComment_step blockComment_step
     advance] in E;
  repeat match type of E with
         | context [if ?b then _ else _] => destruct b
         end;
  inversion E; subst; split; reflexivity.

Lemma string_step_frames quote : frames (string_step source quote).
Proof. frames_tac. Qed.
Lemma digits_step_frames : frames (digits_step source).
Proof. frames_tac. Qed.
Lemma identifier_step_frames : frames (identifier_step source).
Proof. frames_tac. Qed.
Lemma lineComment_step_frames : frames (lineComment_step source).
Proof. frames_tac. Qed.
Lemma blockComment_step_frames : frames (blockComment_step source).
Proof. frames_tac. Qed.

Ltac loop_frame L :=
  match goal with
  | H : loop _ ?step ?a = Some ?b |- _ =>
      let Ht := fresh "Ht" in
      let He := fresh "He" in
      destruct (frames_loop _ a (L : frames step) H) as [Ht He];
      simpl in Ht, He; clear H
  end.

Lemma string_appended quote s s' :
  string source quote s = Some s' -> appended s s'.
Proof.
  unfold string. destruct (loop _ _ _) as [[s1 v1]|] eqn:E; [|discriminate].
  loop_frame (string_step_frames quote).
  destruct (isAtEnd source s1); intros H; inversion H; subst; clear H.
  - right; right. split; [assumption|]. eexists. simpl. rewrite He. reflexivity.
  - left. split; [assumption|]. eexists _, _, _, _. simpl. rewrite Ht.
    split; [reflexivity|]. split; discriminate.
Qed.

Lemma number_appended first s s' :
  number source first s = Some s' -> appended s s'.
Proof.
  unfold number. destruct (loop _ _ _) as [[s1 v1]|] eqn:E; [|discriminate].
  loop_frame digits_step_frames.
  destruct (_ && _).
  - unfold advance; cbv beta iota.
    destruct (loop _ _ _) as [[s2 v2]|] eqn:E2; [|discriminate].
    loop_frame digits_step_frames.
    intros H; inversion H; subst; clear H.
    left. split; [simpl; congruence|]. eexists _, _, _, _. simpl. rewrite Ht0, Ht.
    split; [reflexivity|]. split; discriminate.
  - intros H; inversion H; subst; clear H.
    left. split; [simpl; congruence|]. eexists _, _, _, _. simpl. rewrite Ht.
    split; [reflexivity|]. split; discriminate.
Qed.

Lemma identifier_appended first s s' :
  identifier source first s = Some s' -> appended s s'.
Proof.
  unfold identifier. destruct (loop _ _ _) as [[s1 v1]|] eqn:E; [|discriminate].
  loop_frame identifier_step_frames.
  repeat match goal with |- context [if ?b then _ else _] => destruct b end;
    intros H; inversion H; subst; clear H;
    left; (split; [simpl; congruence|]); eexists _, _, _, _; simpl; rewrite Ht;
    (split; [reflexivity|]); split; discriminate.
Qed.

Lemma lineComment_appended s s' :
  lineComment source s = Some s' -> appended s s'.
Proof.
  unfold lineComment, advance; cbv beta iota zeta.
  destruct (loop _ _ _) as [[s1 v1]|] eqn:E; [|discriminate].
  loop_frame lineComment_step_frames.
  intros H; inversion H; subst; clear H.
  left. split; [simpl; congruence|]. eexists _, _, _, _. simpl. rewrite Ht.
  split; [reflexivity|]. split; discriminate.
Qed.

Lemma blockComment_appended s s' :
  blockComment source s = Some s' -> appended s s'.
Proof.
  unfold blockComment, advance; cbv beta iota zeta.
  destruct (loop _ _ _) as [[s1 v1]|] eqn:E; [|discriminate].
  loop_frame blockComment_step_frames.
  intros H; inversion H; subst; clear H.
  left. split; [simpl; congruence|]. eexists _, _, _, _. simpl. rewrite Ht.
  split; [reflexivity|]. split; discriminate.
Qed.

Lemma scanToken_appended s s' :
  scanToken source s = Some s' -> appended s s'.
Proof.
  unfold scanToken, advance.
  destruct (nth_error source (pos s)) as [c|].
  2:{ intros H; inversion H; subst. right; right. split; [reflexivity|].
      eexists. reflexivity. }
  repeat match goal with
         | |- context [if ?b then _ else _] => destruct b
         end;
    intros H;
    try (apply lineComment_appended in H; exact H);
    try (apply blockComment_appended in H; exact H);
    try (apply string_appended in H; exact H);
    try (apply number_appended in H; exact H);
    try (apply identifier_appended in H; exact H);
    inversion H; subst; clear H;
    try (left; split; [reflexivity|]; eexists _, _, _, _; simpl;
         split; [reflexivity|]; split; discriminate);
    try (right; left; split; reflexivity);
    try (right; right; split; [reflexivity|]; eexists; reflexivity).
Qed.

(** A property of tokens that [addToken] establishes, for every kind but
    [TEMPLATE_TEXT] and [EOF], holds of all tokens the scan loop appends. *)
Lemma tokenize_loop_Forall (P : Token.t -> Prop) :
  (forall type value l c,
     type <> TEMPLATE_TEXT -> type <> EOF ->
     P (Token.mk type value l (c - len value) (len value))) ->
  forall fuel s s',
    Forall P (tokens s) ->
    loop fuel (tokenize_step source) s = Some s' ->
    Forall P (tokens s').
Proof.
  intros HP fuel s s'.
  apply (@loop_inv _ (tokenize_step source) (fun x => Forall P (tokens x))
           (fun x => Forall P (tokens x))).
  - intros a a' Ha. unfold tokenize_step.
    destruct (negb _); [|discriminate].
    destruct (scanToken source a) as [s1|] eqn:E; [|discriminate].
    intros H; inversion H; subst; clear H.
    destruct (scanToken_appended _ E) as [[_ (ty & v & l & c & Ht & H1 & H2)]|[[Ht _]|[Ht _]]];
      rewrite Ht; auto.
    apply Forall_app. split; [assumption|]. constructor; [|constructor]. now apply HP.
  - intros a a' Ha. unfold tokenize_step.
    destruct (negb _); [destruct (scanToken source a); discriminate|].
    intros H; inversion H; subst; assumption.
Qed.

End LexerEmits.

Ltac loop_frame L :=
  match goal with
  | H : loop _ ?step ?a = Some ?b |- _ =>
      let Ht := fresh "Ht" in
      let He := fresh "He" in
      destruct (frames_loop _ a (L : frames step) H) as [Ht He];
      simpl in Ht, He; clear H
  end.


(** ** Token positions are ordered *)


Lemma len_nonneg (v : jsstring) : (0 <= Lexer.len v)%Z.
Proof. unfold Lexer.len. lia. Qed.

Lemma len_app (a b : jsstring) : Lexer.len (a ++ b) = (Lexer.len a + Lexer.len b)%Z.
Proof. unfold Lexer.len. rewrite length_app. lia. Qed.

Lemma len_cons (c : char) (v : jsstring) : Lexer.len (c :: v) = (1 + Lexer.len v)%Z.
Proof. unfold Lexer.len. simpl List.length. lia. Qed.

Lemma len_nil : Lexer.len [] = 0%Z.
Proof. reflexivity. Qed.

Ltac len_norm :=
  cbn [toStr app] in *; rewrite ?len_app, ?len_cons, ?len_nil in *.

Ltac len_eval :=
  repeat match goal with
         | |- context [Lexer.len (str ?x)] =>
             let n := eval vm_compute in (Lexer.len (str x)) in
             change (Lexer.len (str x)) with n
         end;
  rewrite ?len_cons, ?len_nil.

Lemma len_unescape (c : char) : Lexer.len (Lexer.unescape (Some c)) = 1%Z.
Proof.
  unfold Lexer.unescape.
  repeat match goal with |- context [if ?b then _ else _] => destruct b end;
    reflexivity.
Qed.

Lemma StronglySorted_snoc (A : Type) (R : A -> A -> Prop) (l : list A) (x : A) :
  StronglySorted R l -> Forall (fun y => R y x) l -> StronglySorted R (l ++ [x]).
Proof.
  induction 1 as [|a l Hs IH Ha]; intros Hx; simpl.
  - constructor; constructor.
  - inversion Hx; subst. constructor; [auto|].
    apply Forall_app. split; [assumption|]. constructor; [assumption|constructor].
Qed.

Section LexerOrder.

Import Lexer.

Variable source : jsstring.
Local Abbreviation tracks_string := (tracks_string source).

Lemma nth_error_defined (p : nat) :
  p < List.length source -> exists c, nth_error source p = Some c.
Proof.
  intros H. destruct (nth_error source p) eqn:E; [eauto|].
  apply nth_error_None in E. lia.
Qed.

Lemma peekNext_defined (s : State) (c : char) :
  peekNext source s = c -> c <> NUL -> pos s + 1 < List.length source.
Proof.
  unfold peekNext. destruct (_ <=? _)%nat eqn:E.
  - congruence.
  - intros _ _. now apply Nat.leb_gt in E.
Qed.

Lemma peek_defined (s : State) (c : char) :
  peek source s = c -> c <> NUL -> pos s < List.length source.
Proof.
  unfold peek. destruct (isAtEnd source s) eqn:E.
  - congruence.
  - intros _ _. now apply isAtEnd_false in E.
Qed.

Ltac st_simpl :=
  cbn [fst snd pos line column tokens errors inTemplate set_pos set_line
       set_column push_token push_error set_inTemplate addToken] in *.

Ltac split_ifs :=
  repeat match goal with
         | |- context [if ?b then _ else _] => destruct b eqn:?
         | H : context [if ?b then _ else _] |- _ => destruct b eqn:?
         end.

Ltac one_char s :=
  let c := fresh "c" in
  let E := fresh "E" in
  let H := fresh "H" in
  assert (H : pos s < List.length source)
    by (first [ now apply isAtEnd_false
              | now apply isDigit_peek
              | now apply isAlphaNumeric_peek ]);
  destruct (nth_error_defined H) as [c E]; try rewrite E in *.

Lemma digits_step_tracks l0 c0 a a' :
  tracks l0 c0 a ->
  digits_step source a = Some (Continue a') \/ digits_step source a = Some (Break a') ->
  tracks l0 c0 a'.
Proof.
  destruct a as [s v]. unfold digits_step, advance, tracks, position_le.
  intros T [E|E]; destruct (isDigit (peek source s)) eqn:D;
    inversion E; subst; clear E; simpl in *; auto.
  one_char s. len_norm. lia.
Qed.

Lemma identifier_step_tracks l0 c0 a a' :
  tracks l0 c0 a ->
  identifier_step source a = Some (Continue a')
  \/ identifier_step source a = Some (Break a') ->
  tracks l0 c0 a'.
Proof.
  destruct a as [s v]. unfold identifier_step, advance, tracks, position_le.
  intros T [E|E]; destruct (isAlphaNumeric (peek source s)) eqn:D;
    inversion E; subst; clear E; simpl in *; auto.
  one_char s. len_norm. lia.
Qed.

Lemma lineComment_step_tracks l0 c0 a a' :
  tracks l0 c0 a ->
  lineComment_step source a = Some (Continue a')
  \/ lineComment_step source a = Some (Break a') ->
  tracks l0 c0 a'.
Proof.
  destruct a as [s v]. unfold lineComment_step, advance, tracks, position_le.
  intros T [E|E]; destruct (isAtEnd source s) eqn:D;
    destruct (peek source s =? LF)%N;
    inversion E; subst; clear E; simpl in *; auto.
  one_char s. len_norm. lia.
Qed.

Lemma blockComment_step_tracks l0 c0 a a' :
  tracks l0 c0 a ->
  blockComment_step source a = Some (Continue a')
  \/ blockComment_step source a = Some (Break a') ->
  tracks l0 c0 a'.
Proof.
  destruct a as [s v]. unfold blockComment_step, advance, tracks, position_le.
  intros T [E|E]; destruct (isAtEnd source s) eqn:D; cbn [negb] in E;
    cbv beta iota zeta in E; try (inversion E; subst; assumption).
  - destruct (_ && _); [discriminate|].
    destruct (peek source s =? LF)%N; inversion E; subst; clear E; simpl in *;
      one_char s; len_norm; lia.
  - destruct ((peek source s =? chr "*")%N && (peekNext source s =? chr "/")%N) eqn:B.
    + inversion E; subst; clear E. apply andb_true_iff in B. destruct B as [B1 B2].
      apply N.eqb_eq in B2. apply peekNext_defined in B2; [|discriminate].
      one_char s.
      destruct (@nth_error_defined (S (pos s))) as [c2 E2]; [lia|].
      simpl in *. rewrite E2. len_norm. lia.
    + destruct (peek source s =? LF)%N; discriminate.
Qed.

Lemma string_step_tracks quote l0 c0 a a' :
  tracks_string l0 c0 a ->
  string_step source quote a = Some (Continue a')
  \/ string_step source quote a = Some (Break a') ->
  tracks_string l0 c0 a'.
Proof.
  destruct a as [s v]. unfold string_step, advance, tracks_string, tracks, position_le.
  intros [T1 T2] E.
  destruct (isAtEnd source s) eqn:D; cbn [negb andb] in E.
  { destruct E as [E|E]; inversion E; subst; auto. }
  destruct (peek source s =? quote)%N; cbn [negb] in E.
  { destruct E as [E|E]; inversion E; subst; auto. }
  destruct E as [E|E]; [|cbv zeta in E; split_ifs; discriminate].
  cbv zeta in E.
  assert (Hs : pos s < List.length source) by now apply isAtEnd_false.
  destruct (nth_error_defined Hs) as [c Ec].
  destruct (peek source s =? LF)%N;
    destruct (peek source _ =? BACKSLASH)%N; inversion E; subst; clear E;
    try (st_simpl; rewrite ?Ec; len_norm; split; [lia|]; right; lia);
    match goal with
    | |- context [unescape ?x] => destruct x as [c2|] eqn:E2
    end;
    try (st_simpl; rewrite ?len_app, ?len_unescape; split; [lia|]; right; lia);
    change (nth_error source (S (pos s)) = None) in E2;
    apply nth_error_None in E2; st_simpl; (split; [lia|]); left; lia.
Qed.

Lemma tracks_loop step l0 c0 fuel a a' :
  (forall x x', tracks l0 c0 x ->
     step x = Some (Continue x') \/ step x = Some (Break x') -> tracks l0 c0 x') ->
  tracks l0 c0 a -> loop fuel step a = Some a' -> tracks l0 c0 a'.
Proof.
  intros H. apply (@loop_inv _ step (tracks l0 c0) (tracks l0 c0)); eauto.
Qed.

Lemma tracks_string_loop quote l0 c0 fuel a a' :
  tracks_string l0 c0 a -> loop fuel (string_step source quote) a = Some a' ->
  tracks_string l0 c0 a'.
Proof.
  apply (@loop_inv _ (string_step source quote) (tracks_string l0 c0)
           (tracks_string l0 c0)); eauto using string_step_tracks.
Qed.

Ltac ordered_token Ht :=
  right; eexists; split; [st_simpl; rewrite Ht; reflexivity|];
  unfold position_le in *; st_simpl; cbn [Token.line Token.column]; split; lia.

Lemma string_ordered quote l0 c0 s s' :
  position_le l0 c0 (line s) (column s) ->
  string source quote s = Some s' -> ordered l0 c0 s s'.
Proof.
  intros P. unfold string. destruct (loop _ _ _) as [[s1 v1]|] eqn:E; [|discriminate].
  assert (T : tracks_string l0 c0 (s1, v1)).
  { eapply tracks_string_loop; [|exact E]. split; [exact P|]. right.
    unfold tracks. st_simpl. len_norm. unfold position_le in *.
    lia. }
  loop_frame (string_step_frames source quote).
  destruct T as [T1 T2]. simpl in T1, T2.
  destruct (isAtEnd source s1) eqn:D; intros H; inversion H; subst; clear H.
  - split; [exact T1|]. left. exact Ht.
  - apply isAtEnd_false in D. destruct T2 as [T2|T2]; [lia|].
    unfold tracks in T2. simpl in T2. pose proof (len_nonneg v1) as Hn1.
    split; [unfold position_le in *; simpl; lia|]. ordered_token Ht.
Qed.

Lemma number_ordered first l0 c0 s s' :
  position_le l0 c0 (line s) (column s - 1) ->
  number source first s = Some s' -> ordered l0 c0 s s'.
Proof.
  intros P. unfold number. destruct (loop _ _ _) as [[s1 v1]|] eqn:E; [|discriminate].
  assert (T : tracks l0 c0 (s1, v1)).
  { eapply tracks_loop; [apply digits_step_tracks| |exact E]. exact P. }
  loop_frame (digits_step_frames source).
  unfold tracks in T. simpl in T. pose proof (len_nonneg v1) as Hn1.
  destruct ((peek source s1 =? chr ".")%N && isDigit (peekNext source s1)) eqn:B.
  - unfold advance; cbv beta iota.
    destruct (loop _ _ _) as [[s2 v2]|] eqn:E2; [|discriminate].
    assert (T' : tracks l0 c0 (s2, v2)).
    { eapply tracks_loop; [apply digits_step_tracks| |exact E2].
      apply andb_true_iff in B. destruct B as [B _]. apply N.eqb_eq in B.
      apply peek_defined in B; [|discriminate].
      destruct (nth_error_defined B) as [c Ec]. rewrite Ec.
      unfold tracks. simpl. len_norm. unfold position_le in *. lia. }
    loop_frame (digits_step_frames source).
    unfold tracks in T'. simpl in T, T'. pose proof (len_nonneg v2) as Hn2.
    intros H; inversion H; subst; clear H.
    split; [unfold position_le in *; simpl; lia|].
    right; eexists; split; [simpl; rewrite Ht0; simpl; rewrite Ht; reflexivity|].
    unfold position_le in *; simpl in *; split; lia.
  - intros H; inversion H; subst; clear H.
    split; [unfold position_le in *; simpl; lia|]. ordered_token Ht.
Qed.

Lemma identifier_ordered first l0 c0 s s' :
  position_le l0 c0 (line s) (column s - 1) ->
  identifier source first s = Some s' -> ordered l0 c0 s s'.
Proof.
  intros P. unfold identifier. destruct (loop _ _ _) as [[s1 v1]|] eqn:E; [|discriminate].
  assert (T : tracks l0 c0 (s1, v1)).
  { eapply tracks_loop; [apply identifier_step_tracks| |exact E]. exact P. }
  loop_frame (identifier_step_frames source).
  unfold tracks in T. simpl in T. pose proof (len_nonneg v1) as Hn1.
  split_ifs; intros H; inversion H; subst; clear H;
    (split; [unfold position_le in *; simpl; lia|]); ordered_token Ht.
Qed.

Lemma lineComment_ordered l0 c0 s s' :
  position_le l0 c0 (line s) (column s - 1) ->
  lineComment source s = Some s' -> ordered l0 c0 s s'.
Proof.
  intros P. unfold lineComment, advance; cbv beta iota zeta.
  destruct (loop _ _ _) as [[s1 v1]|] eqn:E; [|discriminate].
  assert (T : tracks l0 c0 (s1, v1)).
  { eapply tracks_loop; [apply lineComment_step_tracks| |exact E].
    unfold tracks, position_le in *. st_simpl.
    change (len (str "//")) with 2%Z. lia. }
  loop_frame (lineComment_step_frames source).
  unfold tracks in T. simpl in T. pose proof (len_nonneg v1) as Hn1.
  intros H; inversion H; subst; clear H.
  split; [unfold position_le in *; simpl; lia|]. ordered_token Ht.
Qed.

Lemma blockComment_ordered l0 c0 s s' :
  position_le l0 c0 (line s) (column s - 1) ->
  blockComment source s = Some s' -> ordered l0 c0 s s'.
Proof.
  intros P. unfold blockComment, advance; cbv beta iota zeta.
  destruct (loop _ _ _) as [[s1 v1]|] eqn:E; [|discriminate].
  assert (T : tracks l0 c0 (s1, v1)).
  { eapply tracks_loop; [apply blockComment_step_tracks| |exact E].
    unfold tracks, position_le in *. st_simpl.
    change (len (str "/*")) with 2%Z. lia. }
  loop_frame (blockComment_step_frames source).
  unfold tracks in T. simpl in T. pose proof (len_nonneg v1) as Hn1.
  intros H; inversion H; subst; clear H.
  split; [unfold position_le in *; simpl; lia|]. ordered_token Ht.
Qed.

End LexerOrder.

Section LexerSorted.

Import Lexer.

Variable source : jsstring.

Lemma scanToken_ordered s s' :
  scanToken source s = Some s' -> ordered (line s) (column s) s s'.
Proof.
  unfold scanToken, advance.
  destruct (nth_error source (pos s)) as [c|].
  2:{ intros H; inversion H; subst. split; [unfold position_le; simpl; lia|].
      left; reflexivity. }
  assert (P0 : position_le (line s) (column s)
                 (line (set_pos (S (pos s)) (set_column (column s + 1) s)))
                 (column (set_pos (S (pos s)) (set_column (column s + 1) s))))
    by (unfold position_le; simpl; lia).
  assert (P1 : position_le (line s) (column s)
                 (line (set_pos (S (pos s)) (set_column (column s + 1) s)))
                 (column (set_pos (S (pos s)) (set_column (column s + 1) s)) - 1))
    by (unfold position_le; simpl; lia).
  repeat match goal with
         | |- context [if ?b then _ else _] => destruct b
         end;
    intros H;
    try (apply (@lineComment_ordered source _ _ _ _ P1) in H; exact H);
    try (apply (@blockComment_ordered source _ _ _ _ P1) in H; exact H);
    try (apply (@string_ordered source _ _ _ _ _ P0) in H; exact H);
    try (apply (@number_ordered source _ _ _ _ _ P1) in H; exact H);
    try (apply (@identifier_ordered source _ _ _ _ _ P1) in H; exact H);
    inversion H; subst; clear H P0 P1;
    (split; [unfold position_le; simpl; lia|]);
    try (left; reflexivity);
    right; eexists; (split; [reflexivity|]);
    unfold position_le; simpl; len_eval; split; lia.
Qed.

Lemma sorted_upto_step s s' :
  sorted_upto s -> ordered (line s) (column s) s s' -> sorted_upto s'.
Proof.
  intros [Hs Hb] [Hp Ht]. unfold sorted_upto.
  assert (Hb' : Forall (fun t => position_le (Token.line t) (Token.column t)
                                   (line s') (column s')) (tokens s)).
  { eapply Forall_impl; [|exact Hb]. intros t. unfold position_le in *. simpl. lia. }
  destruct Ht as [Ht|(t & Ht & H1 & H2)]; rewrite Ht.
  - split; assumption.
  - split.
    + apply StronglySorted_snoc; [assumption|].
      eapply Forall_impl; [|exact Hb]. intros t0. unfold Token_le, position_le in *.
      simpl. lia.
    + apply Forall_app. split; [assumption|]. constructor; [assumption|constructor].
Qed.

Lemma tokenize_loop_sorted fuel s s' :
  sorted_upto s -> loop fuel (tokenize_step source) s = Some s' -> sorted_upto s'.
Proof.
  apply (@loop_inv _ (tokenize_step source) sorted_upto sorted_upto).
  - intros a a' Ha. unfold tokenize_step.
    destruct (negb _); [|discriminate].
    destruct (scanToken source a) as [s1|] eqn:E; [|discriminate].
    intros H; inversion H; subst; clear H.
    eapply sorted_upto_step; [exact Ha|]. now apply scanToken_ordered.
  - intros a a' Ha. unfold tokenize_step.
    destruct (negb _); [destruct (scanToken source a); discriminate|].
    intros H; inversion H; subst; assumption.
Qed.

(** The shape of the result of [tokenize]: the tokens of the scan loop
    followed by the end-of-input token. *)
Lemma tokenize_shape :
  exists s,
    loop (gas source) (tokenize_step source) init = Some s
    /\ tokenize source
       = Some (tokens s ++ [Token.mk EOF [] (line s) (column s - 0) 0], errors s).
Proof.
  destruct (tokenize_loop_total source init) as [s E].
  exists s. split; [assumption|]. unfold tokenize, run. rewrite E. reflexivity.
Qed.

End LexerSorted.

(** C2. For every input string, [Lexer.tokenize] returns (the fuel it runs on
    is enough, and the lexer has no failing outcome), and the last token of
    the sequence it returns has kind [EOF]. *)
Theorem tokenize_total_EOF_last (source : jsstring) :
  exists tokens eof errors,
    Lexer.tokenize source = Some (tokens ++ [eof], errors)
    /\ Token.type eof = EOF.
Proof.
  destruct (tokenize_shape source) as (s & _ & E).
  eexists _, _, _. split; [exact E|reflexivity].
Qed.

(** C4. For every input string, the tokens of the lexer's output are in
    non-decreasing (line, column) order, every token before every later one,
    and the end-of-input token is last. *)
Theorem tokenize_positions_sorted (source : jsstring) :
  exists tokens eof errors,
    Lexer.tokenize source = Some (tokens ++ [eof], errors)
    /\ Token.type eof = EOF
    /\ StronglySorted Token_le (tokens ++ [eof]).
Proof.
  destruct (tokenize_shape source) as (s & L & E).
  eexists _, _, _. split; [exact E|]. split; [reflexivity|].
  assert (H : sorted_upto (Lexer.init)).
  { split; constructor. }
  apply (tokenize_loop_sorted _ _ H) in L. destruct L as [Hs Hb].
  apply StronglySorted_snoc; [assumption|].
  eapply Forall_impl; [|exact Hb]. intros t. unfold Token_le, position_le. simpl. lia.
Qed.

(** The order is not strict: an empty string literal and the token after
    it are given the same position. *)
Example positions_not_strict :
  Lexer.tokenize (DQUOTE :: DQUOTE :: str "x")
  = Some ([Token.mk STRING [] 1 3 0; Token.mk IDENTIFIER (str "x") 1 3 1;
           Token.mk EOF [] 1 4 0], []).
Proof. vm_compute. reflexivity. Qed.

(** ** The parser: primitives *)

Section ParserPrimitives.

Import Parser.
Local Open Scope parser_scope.

Variable tokens : list Token.t.

Section Current.

Variables (s : State) (t : Token.t).
Hypothesis Ht : nth_error tokens (pos s) = Some t.

Lemma peek_eq : peek tokens s = Ok (Some t) s.
Proof. unfold peek. now rewrite Ht. Qed.

Lemma isAtEnd_eq : isAtEnd tokens s = Ok (TokenType_eqb (Token.type t) EOF) s.
Proof. unfold isAtEnd, bind. now rewrite peek_eq. Qed.

Lemma check_eq type : check tokens type s = Ok (checkb type t) s.
Proof.
  unfold check, bind. rewrite isAtEnd_eq. unfold checkb.
  destruct (TokenType_eqb (Token.type t) EOF); [reflexivity|].
  now rewrite peek_eq.
Qed.

Lemma advance_eq :
  advance tokens s
  = if TokenType_eqb (Token.type t) EOF then previous tokens s
    else Ok (Some t) (next s).
Proof.
  unfold advance, bind. rewrite isAtEnd_eq.
  destruct (TokenType_eqb (Token.type t) EOF); simpl; [reflexivity|].
  unfold previous. simpl. now rewrite Ht.
Qed.

Lemma checkb_advance type :
  checkb type t = true -> advance tokens s = Ok (Some t) (next s).
Proof.
  unfold checkb. rewrite advance_eq.
  destruct (TokenType_eqb (Token.type t) EOF); [discriminate|reflexivity].
Qed.

Lemma match1_eq type :
  match_ tokens [type] s
  = if checkb type t then Ok true (next s) else Ok false s.
Proof.
  unfold match_, bind. rewrite check_eq.
  destruct (checkb type t) eqn:C; [|reflexivity].
  now rewrite (checkb_advance _ C).
Qed.

Lemma match2_eq type1 type2 :
  orM (match_ tokens [type1]) (match_ tokens [type2]) s
  = if checkb type1 t || checkb type2 t then Ok true (next s) else Ok false s.
Proof.
  unfold orM, bind. rewrite !match1_eq.
  destruct (checkb type1 t); [reflexivity|].
  rewrite match1_eq. destruct (checkb type2 t); reflexivity.
Qed.

Lemma match3_eq type1 type2 type3 :
  orM (match_ tokens [type1]) (orM (match_ tokens [type2]) (match_ tokens [type3])) s
  = if checkb type1 t || (checkb type2 t || checkb type3 t)
    then Ok true (next s) else Ok false s.
Proof.
  unfold orM at 1. unfold bind. rewrite match1_eq.
  destruct (checkb type1 t); [reflexivity|].
  rewrite match2_eq. reflexivity.
Qed.

Lemma expect_eq type message :
  expect tokens type message s
  = if checkb type t then Ok (Some t) (next s)
    else
      let e := ParseError.mk (str message) t in
      Throw (EParseError e) (mkState (pos s) (errors s ++ [e])).
Proof.
  unfold expect, bind. rewrite check_eq.
  destruct (checkb type t) eqn:C.
  - now rewrite (checkb_advance _ C).
  - rewrite peek_eq. reflexivity.
Qed.

Lemma previous_next : previous tokens (next s) = Ok (Some t) (next s).
Proof. unfold previous. simpl. now rewrite Ht. Qed.

Lemma checkb_true type :
  checkb type t = true -> Token.type t = type /\ Token.type t <> EOF.
Proof.
  unfold checkb, TokenType_eqb.
  destruct (TokenType_eq_dec (Token.type t) EOF); [discriminate|].
  destruct (TokenType_eq_dec (Token.type t) type); [auto|discriminate].
Qed.

End Current.

End ParserPrimitives.

(** ** The parser returns *)

Section ParserSafety.

Import Parser.
Local Open Scope parser_scope.

Variable tokens : list Token.t.
Local Abbreviation valid := (valid tokens).
Local Abbreviation goodP := (@goodP tokens _).
Local Abbreviation safe := (@safe tokens _).

(** The token list ends with the end-of-input token: a token that is not
    [EOF] has a successor. *)
Hypothesis Hlast :
  forall i t, nth_error tokens i = Some t -> Token.type t <> EOF ->
              S i < List.length tokens.

Lemma valid_current (s : State) :
  valid s -> exists t, nth_error tokens (pos s) = Some t.
Proof.
  unfold valid. intros H. destruct (nth_error tokens (pos s)) eqn:E; [eauto|].
  apply nth_error_None in E. lia.
Qed.

Lemma valid_next (s : State) (t : Token.t) (type : TokenType) :
  nth_error tokens (pos s) = Some t -> checkb type t = true -> valid (next s).
Proof.
  intros Ht C. apply checkb_true in C. destruct C as [_ C].
  unfold valid, next. simpl. eauto.
Qed.

Lemma goodP_bind (A B : Type) (m : M A) (k : A -> M B) (s : State) p0 Q R :
  match m s with
  | Ok a s' => goodP p0 Q R (k a s')
  | Throw (EParseError e) s' => valid s' /\ p0 <= pos s' /\ In e (errors s')
  | Throw ETypeError _ => False
  | OutOfFuel => False
  end ->
  goodP p0 Q R (bind m k s).
Proof. unfold bind. destruct (m s) as [a s'|[e|] s'|]; auto. Qed.

Lemma goodP_call (A B : Type) (m : M A) (k : A -> M B) (s : State) n p0 Q1 R1 Q R :
  safe n Q1 R1 m ->
  valid s -> List.length tokens - pos s <= n -> p0 <= pos s ->
  (forall a s', valid s' -> (if Q1 a then pos s < pos s' else pos s <= pos s') ->
                R1 a -> goodP p0 Q R (k a s')) ->
  goodP p0 Q R (bind m k s).
Proof.
  intros Hm Hv Hn Hp Hk. apply goodP_bind. specialize (Hm s Hv Hn).
  destruct (m s) as [a s'|[e|] s'|]; simpl in Hm; try contradiction.
  - destruct Hm as (H1 & H2 & H3). auto.
  - destruct Hm as (H1 & H2 & H3). repeat split; [assumption|lia|assumption].
Qed.

Lemma goodP_tail (A : Type) (m : M A) (s : State) n p0 Q1 R1 (Q : A -> bool)
    (R : A -> Prop) :
  safe n Q1 R1 m ->
  valid s -> List.length tokens - pos s <= n -> p0 <= pos s ->
  (forall a s', (if Q1 a then pos s < pos s' else pos s <= pos s') ->
                R1 a -> (if Q a then p0 < pos s' else p0 <= pos s') /\ R a) ->
  goodP p0 Q R (m s).
Proof.
  intros Hm Hv Hn Hp Hk. specialize (Hm s Hv Hn).
  destruct (m s) as [a s'|[e|] s'|]; simpl in *; try contradiction.
  - destruct Hm as (H1 & H2 & H3). destruct (Hk a s' H2 H3). auto.
  - destruct Hm as (H1 & H2 & H3). repeat split; [assumption|lia|assumption].
Qed.

(** A loop whose every [Continue] consumes a token. *)
Lemma loopM_safe (A : Type) (step : A -> M (LoopStep A)) (I R : A -> Prop) (N : nat) :
  (forall a, I a ->
     safe N (fun r => match r with Continue _ => true | Break _ => false end)
       (fun r => match r with Continue a' => I a' | Break a' => R a' end)
       (step a)) ->
  forall n a, I a ->
  forall s, valid s -> List.length tokens - pos s <= n ->
            List.length tokens - pos s <= N ->
            goodP (pos s) (fun _ => false) R (loopM n step a s).
Proof.
  intros Hstep n. induction n as [|n IH]; intros a Ia s Hv Hn HN.
  - unfold valid in Hv. lia.
  - simpl. apply goodP_bind. specialize (Hstep a Ia s Hv HN).
    destruct (step a s) as [[a'|a'] s'|[e|] s'|]; simpl in Hstep; try contradiction.
    + destruct Hstep as (H1 & H2 & H3).
      assert (G : goodP (pos s') (fun _ => false) R (loopM n step a' s')).
      { apply IH; [assumption|assumption|unfold valid in *; lia|unfold valid in *; lia]. }
      destruct (loopM n step a' s') as [b s2|[e|] s2|]; simpl in *; try contradiction.
      * destruct G as (G1 & G2 & G3). repeat split; [assumption|lia|assumption].
      * destruct G as (G1 & G2 & G3). repeat split; [assumption|lia|assumption].
    + destruct Hstep as (H1 & H2 & H3). simpl. auto.
    + assumption.
Qed.

Lemma loopM_safe' (A : Type) (step : A -> M (LoopStep A)) (I R : A -> Prop) (N : nat)
    (a : A) :
  (forall a, I a ->
     safe N (fun r => match r with Continue _ => true | Break _ => false end)
       (fun r => match r with Continue a' => I a' | Break a' => R a' end)
       (step a)) ->
  I a -> safe N (fun _ => false) R (loopM N step a).
Proof.
  intros Hstep Ia s Hv Hn. exact (@loopM_safe A step I R N Hstep N a Ia s Hv Hn Hn).
Qed.

End ParserSafety.

(** Symbolic execution of a parser method, one call at a time.  The goal
    is [goodP p0 Q R (m s)]; the context holds [valid s], the bound on the
    tokens left, the [safe] facts of the methods called, and after a
    primitive the token it looked at. *)

Ltac advanced :=
  match goal with
  | Ht : nth_error ?tokens (Parser.pos ?s) = Some ?t,
    C : checkb ?ty ?t = true,
    Hl : forall i t, nth_error ?tokens i = Some t -> _ -> _ |- _ =>
      lazymatch goal with
      | _ : valid tokens (next s) |- _ => fail
      | _ =>
          let Hv := fresh "Hv" in
          assert (Hv : valid tokens (next s)) by (eapply valid_next; eassumption)
      end
  end.

Ltac current_token s :=
  lazymatch goal with
  | H : nth_error _ (Parser.pos s) = Some _ |- _ => idtac
  | Hv : valid _ s |- _ =>
      let t := fresh "t" in
      let Ht := fresh "Ht" in
      destruct (@valid_current _ _ Hv) as [t Ht]
  | _ =>
      repeat advanced;
      lazymatch goal with
      | Hv : valid _ s |- _ =>
          let t := fresh "t" in
          let Ht := fresh "Ht" in
          destruct (@valid_current _ _ Hv) as [t Ht]
      end
  end.

Ltac prim_rewrite s :=
  current_token s;
  lazymatch goal with
  | Ht : nth_error _ (Parser.pos s) = Some _ |- _ =>
      first
        [ rewrite (@match3_eq _ _ _ Ht)
        | rewrite (@match2_eq _ _ _ Ht)
        | rewrite (@match1_eq _ _ _ Ht)
        | rewrite (@expect_eq _ _ _ Ht)
        | rewrite (@check_eq _ _ _ Ht)
        | rewrite (@isAtEnd_eq _ _ _ Ht)
        | match goal with
          | C : checkb _ _ = true |- _ => rewrite (@checkb_advance _ _ _ Ht _ C)
          end
        | rewrite (@advance_eq _ _ _ Ht)
        | rewrite (@peek_eq _ _ _ Ht) ]
  end.

Ltac goodP_leaf :=
  cbn [goodP Parser.pos next Parser.errors] in *;
  unfold valid in *; cbn [Parser.pos next] in *;
  repeat split; try lia; try exact I;
  try (apply in_or_app; right; left; reflexivity); auto.

Lemma TokenType_eqb_eq (a b : TokenType) : TokenType_eqb a b = true -> a = b.
Proof. unfold TokenType_eqb. destruct (TokenType_eq_dec a b); [auto|discriminate]. Qed.

Lemma checkb_KEYWORD (t : Token.t) :
  TokenType_eqb (Token.type t) KEYWORD = true -> checkb KEYWORD t = true.
Proof.
  intros H. unfold checkb. rewrite H. apply TokenType_eqb_eq in H. now rewrite H.
Qed.

Ltac keyword_fact :=
  match goal with
  | H : TokenType_eqb (Token.type ?t) KEYWORD = true |- _ =>
      lazymatch goal with
      | _ : checkb KEYWORD t = true |- _ => fail
      | _ => pose proof (checkb_KEYWORD t H)
      end
  end.

Ltac or_true :=
  repeat match goal with
         | H : (_ || _)%bool = true |- _ => apply orb_true_iff in H; destruct H as [H|H]
         end.

Lemma bind_assoc (A B C : Type) (m : Parser.M A) (f : A -> Parser.M B)
    (k : B -> Parser.M C) (s : Parser.State) :
  Parser.bind (Parser.bind m f) k s
  = Parser.bind m (fun x => Parser.bind (f x) k) s.
Proof. unfold Parser.bind. destruct (m s); reflexivity. Qed.

Ltac exec_step :=
  lazymatch goal with
  | |- goodP _ _ _ _ (Parser.bind (Parser.bind _ _) _ _) => rewrite bind_assoc
  | |- goodP _ _ _ _ (Parser.bind (Parser.previous _) _ (next ?s)) =>
      apply goodP_bind;
      lazymatch goal with
      | Ht : nth_error _ (Parser.pos s) = Some _ |- _ => rewrite (@previous_next _ _ _ Ht)
      end
  | |- goodP _ _ _ _ (Parser.bind (Parser.valueOf (Some _)) _ _) =>
      apply goodP_bind; cbn [Parser.valueOf Parser.ret]
  | |- goodP _ _ _ _ (Parser.bind (Parser.typeOf (Some _)) _ _) =>
      apply goodP_bind; cbn [Parser.typeOf Parser.ret]
  | |- goodP _ _ _ _ (Parser.bind (if ?b then _ else _) _ _) =>
      destruct b eqn:?
  | |- goodP _ _ _ _ (Parser.bind (Parser.error (Some _) _) _ _) =>
      apply goodP_bind; cbn [Parser.error]; cbv beta zeta
  | |- goodP _ _ _ _ (Parser.bind (Parser.ret _) _ _) =>
      apply goodP_bind; cbn [Parser.ret]
  | |- goodP _ _ _ _ (Parser.bind ?m _ ?s) =>
      first
        [ eapply goodP_call;
              [ first [ eassumption
                      | match goal with
                        | H : forall _, safe _ _ _ _ _ |- _ => apply H
                        end ]
              | assumption
              | unfold valid in *; cbn [Parser.pos next] in *; lia
              | unfold valid in *; cbn [Parser.pos next] in *; lia
              | let a := fresh "a" in
                let s' := fresh "s" in
                let Hv := fresh "Hv" in
                let Hp := fresh "Hp" in
                let Hr := fresh "Hr" in
                intros a s' Hv Hp Hr; cbv beta iota in Hp ]
        | apply goodP_bind; prim_rewrite s ]
  | |- goodP _ _ _ _ ((if ?b then _ else _) _) =>
      destruct b eqn:?; try keyword_fact; try advanced
  | |- goodP _ _ _ _ (if ?b then _ else _) => destruct b eqn:?; or_true; try advanced
  | |- goodP _ _ _ _ (Parser.ret _ _) => unfold Parser.ret; goodP_leaf
  | |- goodP _ _ _ _ (Parser.Ok _ _) => goodP_leaf
  | |- goodP _ _ _ _ (Parser.Throw _ _) => goodP_leaf
  | |- goodP _ _ _ _ (Parser.throw _ _) => unfold Parser.throw; goodP_leaf
  | |- goodP _ _ _ _ (let e := _ in _) => cbv zeta
  | |- goodP _ _ _ _ (?m ?s) =>
      first
        [ eapply goodP_tail;
              [ first [ eassumption
                      | match goal with
                        | H : forall _, safe _ _ _ _ _ |- _ => apply H
                        end ]
              | assumption
              | unfold valid in *; cbn [Parser.pos next] in *; lia
              | unfold valid in *; cbn [Parser.pos next] in *; lia
              | let a := fresh "a" in
                let s' := fresh "s" in
                let Hp := fresh "Hp" in
                let Hr := fresh "Hr" in
                intros a s' Hp Hr; cbv beta iota in Hp;
                cbn [Parser.pos next] in *; split; [lia|auto] ]
        | prim_rewrite s ]
  | |- match ?o with
       | Parser.Ok _ _ => _
       | Parser.Throw _ _ => _
       | Parser.OutOfFuel => _
       end =>
      lazymatch o with
      | (if ?b then _ else _) => destruct b eqn:?; or_true; try advanced
      | Parser.Ok _ _ => cbv beta iota
      | Parser.Throw _ _ => cbv beta iota zeta; goodP_leaf
      | (let e := _ in _) => cbv zeta
      end
  end.

Ltac exec := repeat exec_step.

Section ParserExpressions.

Import Parser.
Local Open Scope parser_scope.

Variable tokens : list Token.t.
Hypothesis Hlast :
  forall i t, nth_error tokens i = Some t -> Token.type t <> EOF ->
              S i < List.length tokens.

Variable parseExpression : M ExpressionNode.
Variables fuel fuel' : nat.
Hypothesis Hfuel : fuel = S fuel'.
Hypothesis HparseExpression :
  safe tokens fuel' (fun _ => true) (fun _ => True) parseExpression.

Abbreviation safeE m := (safe tokens fuel (fun _ : ExpressionNode => true) (fun _ => True) m).

Lemma expressions_step_safe (xs : list ExpressionNode) :
  safe tokens fuel'
    (fun r => match r with Continue _ => true | Break _ => false end)
    (fun _ => True)
    (expressions_step tokens parseExpression xs).
Proof.
  intros s Hv Hn. unfold expressions_step. exec.
Qed.

Lemma properties_step_safe (ps : list (jsstring * ExpressionNode)) :
  safe tokens fuel
    (fun r => match r with Continue _ => true | Break _ => false end)
    (fun _ => True)
    (properties_step tokens parseExpression ps).
Proof.
  intros s Hv Hn. unfold properties_step. exec.
Qed.

Lemma loopM_here (A : Type) (step : A -> M (LoopStep A)) (N : nat) (a : A) :
  (forall a,
     safe tokens N (fun r => match r with Continue _ => true | Break _ => false end)
       (fun _ => True) (step a)) ->
  N <= fuel ->
  safe tokens N (fun _ => false) (fun _ => True) (loopM fuel step a).
Proof.
  intros Hstep HN s Hv Hn.
  apply (@loopM_safe tokens A step (fun _ => True) (fun _ => True) N);
    auto; try lia.
  intros a0 _ s0 Hv0 Hn0. specialize (Hstep a0 s0 Hv0 Hn0).
  destruct (step a0 s0) as [[x|x] s1|[e|] s1|]; simpl in *; tauto.
Qed.

Lemma parsePrimary_safe : safeE (parsePrimary tokens parseExpression fuel).
Proof.
  pose proof (fun xs => @loopM_here _ _ fuel' xs expressions_step_safe
                          ltac:(lia)) as Hxs.
  pose proof (fun ps => @loopM_here _ _ fuel ps properties_step_safe
                          ltac:(lia)) as Hps.
  intros s Hv Hn. unfold parsePrimary. exec.
Qed.

Abbreviation safeStep m :=
  (safe tokens fuel
     (fun r : LoopStep ExpressionNode =>
        match r with Continue _ => true | Break _ => false end)
     (fun _ => True) m).

Lemma parseCall_step_safe (expr : ExpressionNode) :
  safeStep (parseCall_step tokens parseExpression fuel expr).
Proof.
  pose proof (fun xs => @loopM_here _ _ fuel' xs expressions_step_safe
                          ltac:(lia)) as Hxs.
  intros s Hv Hn. unfold parseCall_step. exec.
Qed.

Lemma parseCall_safe : safeE (parseCall tokens parseExpression fuel).
Proof.
  pose proof parsePrimary_safe as H1.
  pose proof (fun e => @loopM_here _ _ fuel e parseCall_step_safe ltac:(lia)) as H2.
  intros s Hv Hn. unfold parseCall. exec.
Qed.

Lemma parseUnary_safe_upto (depth n : nat) :
  n <= depth -> n <= fuel ->
  safe tokens n (fun _ => true) (fun _ => True)
    (parseUnary tokens parseExpression fuel depth).
Proof.
  revert n. induction depth as [|depth IH]; intros n Hd Hf s Hv Hn.
  - unfold valid in Hv. lia.
  - pose proof parseCall_safe as H1.
    assert (H2 := IH (n - 1) ltac:(lia) ltac:(lia)).
    cbn [parseUnary]. exec.
Qed.

Lemma parseUnary_safe : safeE (parseUnary tokens parseExpression fuel fuel).
Proof. apply parseUnary_safe_upto; lia. Qed.

Lemma parseFactor_step_safe (left : ExpressionNode) :
  safeStep (parseFactor_step tokens parseExpression fuel left).
Proof.
  pose proof parseUnary_safe as H1.
  intros s Hv Hn. unfold parseFactor_step. exec.
Qed.

Lemma parseFactor_safe : safeE (parseFactor tokens parseExpression fuel).
Proof.
  pose proof parseUnary_safe as H1.
  pose proof (fun e => @loopM_here _ _ fuel e parseFactor_step_safe ltac:(lia)) as H2.
  intros s Hv Hn. unfold parseFactor. exec.
Qed.

Lemma parseTerm_step_safe (left : ExpressionNode) :
  safeStep (parseTerm_step tokens parseExpression fuel left).
Proof.
  pose proof parseFactor_safe as H1.
  intros s Hv Hn. unfold parseTerm_step. exec.
Qed.

Lemma parseTerm_safe : safeE (parseTerm tokens parseExpression fuel).
Proof.
  pose proof parseFactor_safe as H1.
  pose proof (fun e => @loopM_here _ _ fuel e parseTerm_step_safe ltac:(lia)) as H2.
  intros s Hv Hn. unfold parseTerm. exec.
Qed.

Lemma parseComparison_safe : safeE (parseComparison tokens parseExpression fuel).
Proof. exact parseTerm_safe. Qed.

Lemma parseEquality_step_safe (left : ExpressionNode) :
  safeStep (parseEquality_step tokens parseExpression fuel left).
Proof.
  pose proof parseComparison_safe as H1.
  intros s Hv Hn. unfold parseEquality_step. exec.
Qed.

Lemma parseEquality_safe : safeE (parseEquality tokens parseExpression fuel).
Proof.
  pose proof parseComparison_safe as H1.
  pose proof (fun e => @loopM_here _ _ fuel e parseEquality_step_safe ltac:(lia)) as H2.
  intros s Hv Hn. unfold parseEquality. exec.
Qed.

Lemma parseAnd_step_safe (left : ExpressionNode) :
  safeStep (parseAnd_step tokens parseExpression fuel left).
Proof.
  pose proof parseEquality_safe as H1.
  intros s Hv Hn. unfold parseAnd_step. exec.
Qed.

Lemma parseAnd_safe : safeE (parseAnd tokens parseExpression fuel).
Proof.
  pose proof parseEquality_safe as H1.
  pose proof (fun e => @loopM_here _ _ fuel e parseAnd_step_safe ltac:(lia)) as H2.
  intros s Hv Hn. unfold parseAnd. exec.
Qed.

Lemma parseOr_step_safe (left : ExpressionNode) :
  safeStep (parseOr_step tokens parseExpression fuel left).
Proof.
  pose proof parseAnd_safe as H1.
  intros s Hv Hn. unfold parseOr_step. exec.
Qed.

Lemma parseOr_safe : safeE (parseOr tokens parseExpression fuel).
Proof.
  pose proof parseAnd_safe as H1.
  pose proof (fun e => @loopM_here _ _ fuel e parseOr_step_safe ltac:(lia)) as H2.
  intros s Hv Hn. unfold parseOr. exec.
Qed.

Lemma parsePipe_step_safe (left : ExpressionNode) :
  safeStep (parsePipe_step tokens parseExpression fuel left).
Proof.
  pose proof parseOr_safe as H1.
  intros s Hv Hn. unfold parsePipe_step. exec.
Qed.

Lemma parsePipe_safe : safeE (parsePipe tokens parseExpression fuel).
Proof.
  pose proof parseOr_safe as H1.
  pose proof (fun e => @loopM_here _ _ fuel e parsePipe_step_safe ltac:(lia)) as H2.
  intros s Hv Hn. unfold parsePipe. exec.
Qed.

End ParserExpressions.

Section ParserStatements.

Import Parser.
Local Open Scope parser_scope.

Variable tokens : list Token.t.
Hypothesis Hlast :
  forall i t, nth_error tokens i = Some t -> Token.type t <> EOF ->
              S i < List.length tokens.

(** [parseExpression] returns or throws a [ParseError], and a returned
    expression has consumed at least one token. *)
Lemma parseExpression_safe (fuel : nat) :
  safe tokens fuel (fun _ => true) (fun _ => True) (parseExpression tokens fuel).
Proof.
  induction fuel as [|fuel IH].
  - intros s Hv Hn. unfold valid in Hv. lia.
  - cbn [parseExpression]. now apply parsePipe_safe with (fuel' := fuel).
Qed.

End ParserStatements.

Section ParserStatement.

Import Parser.
Local Open Scope parser_scope.

Variable tokens : list Token.t.
Local Abbreviation RS := (RS tokens).
Local Abbreviation RB := (RB tokens).
Local Abbreviation RP := (RP tokens).
Hypothesis Hlast :
  forall i t, nth_error tokens i = Some t -> Token.type t <> EOF ->
              S i < List.length tokens.

Lemma checkb_TEMPLATE_TEXT (s : State) (t : Token.t) :
  nth_error tokens (pos s) = Some t -> checkb TEMPLATE_TEXT t = true ->
  no_TEMPLATE_TEXT tokens -> False.
Proof.
  intros Ht C H. apply checkb_true in C. destruct C as [C _].
  apply nth_error_In in Ht. unfold no_TEMPLATE_TEXT in H.
  rewrite Forall_forall in H. exact (H _ Ht C).
Qed.

Variable parseStatement : M StatementNode.
Variables fuel fuel' : nat.
Hypothesis Hfuel : fuel = S fuel'.
Hypothesis HparseStatement : safe tokens fuel' (fun _ => true) RS parseStatement.

Lemma block_step_safe (body : list StatementNode) :
  RB body ->
  safe tokens fuel'
    (fun r => match r with Continue _ => true | Break _ => false end)
    (fun r => match r with Continue b => RB b | Break b => RB b end)
    (block_step tokens parseStatement body).
Proof.
  intros Hb s Hv Hn. unfold block_step. exec.
  intros H. rewrite forallb_app. rewrite (Hb H). simpl. now rewrite (Hr H).
Qed.

Lemma block_safe :
  safe tokens fuel' (fun _ => false) RB
    (loopM fuel (block_step tokens parseStatement) []).
Proof.
  intros s Hv Hn.
  apply (@loopM_safe tokens _ (block_step tokens parseStatement) RB RB fuel');
    auto; try lia.
  - apply block_step_safe.
  - intros _. reflexivity.
Qed.

Lemma names_step_safe (message : string) (names : list jsstring) :
  safe tokens fuel
    (fun r => match r with Continue _ => true | Break _ => false end)
    (fun _ => True)
    (names_step tokens message names).
Proof.
  intros s Hv Hn. unfold names_step. exec.
Qed.

Lemma names_safe (message : string) :
  safe tokens fuel (fun _ => false) (fun _ => True)
    (loopM fuel (names_step tokens message) []).
Proof.
  intros s Hv Hn.
  apply (@loopM_safe tokens _ (names_step tokens message) (fun _ => True)
           (fun _ => True) fuel); auto.
  intros a _ s0 Hv0 Hn0. pose proof (names_step_safe message a Hv0 Hn0) as G.
  destruct (names_step tokens message a s0) as [[x|x] s1|[e|] s1|]; simpl in *; tauto.
Qed.

Lemma template_step_safe (parts : list TemplatePart) :
  RP parts ->
  safe tokens fuel'
    (fun r => match r with Continue _ => true | Break _ => false end)
    (fun r => match r with Continue b => RP b | Break b => RP b end)
    (template_step tokens fuel parts).
Proof.
  pose proof (@parseExpression_safe tokens Hlast fuel) as HE.
  intros Hb s Hv Hn. unfold template_step. exec.
  - intros H. rewrite forallb_app. rewrite (Hb H). reflexivity.
  - intros H. exfalso. eapply checkb_TEMPLATE_TEXT; eassumption.
Qed.

Lemma template_safe :
  safe tokens fuel' (fun _ => false) RP
    (loopM fuel (template_step tokens fuel) []).
Proof.
  intros s Hv Hn.
  apply (@loopM_safe tokens _ (template_step tokens fuel) RP RP fuel');
    auto; try lia.
  - apply template_step_safe.
  - intros _. reflexivity.
Qed.

Lemma parseStatement__safe :
  safe tokens fuel (fun _ => true) RS (parseStatement_ tokens parseStatement fuel).
Proof.
  pose proof (@parseExpression_safe tokens Hlast fuel) as HE.
  pose proof block_safe as HB.
  pose proof names_safe as HN.
  pose proof template_safe as HT.
  intros s Hv Hn.
  unfold parseStatement_, parseVariableDeclaration, parseFunctionDeclaration,
    parseReturnStatement, parseIfStatement, parseForStatement,
    parseImportStatement, parseExportStatement, parseTemplateStatement,
    parseExpressionStatement.
  exec.
  all: unfold RS, RB, RP in *; intros HnoTT; cbn [interpolations_only];
    repeat match goal with
           | H : no_TEMPLATE_TEXT _ -> _ |- _ => specialize (H HnoTT)
           end;
    repeat match goal with
           | H : _ = true |- _ => rewrite H
           end;
    try reflexivity.
Qed.

End ParserStatement.

Section ParserParse.

Import Parser.
Local Open Scope parser_scope.

Variable tokens : list Token.t.
Local Abbreviation at_end := (at_end tokens).
Local Abbreviation synced := (synced tokens).
Hypothesis Hlast :
  forall i t, nth_error tokens i = Some t -> Token.type t <> EOF ->
              S i < List.length tokens.

(** [parseStatement] returns or throws a recorded [ParseError]; a returned
    statement has consumed at least one token. *)
Lemma parseStatement_safe (fuel : nat) :
  safe tokens fuel (fun _ => true) (RS tokens) (parseStatement tokens fuel).
Proof.
  induction fuel as [|fuel IH].
  - intros s Hv Hn. unfold valid in Hv. lia.
  - cbn [parseStatement]. now apply parseStatement__safe with (fuel' := fuel).
Qed.

Lemma synchronize_step_ok (s : State) :
  valid tokens s -> 1 <= pos s \/ at_end s ->
  exists r s',
    synchronize_step tokens tt s = Ok r s'
    /\ errors s' = errors s
    /\ match r with
       | Continue _ => s' = next s /\ valid tokens s'
       | Break _ => s' = s /\ synced s
       end.
Proof.
  intros Hv Hp. destruct (@valid_current _ _ Hv) as [t Ht].
  unfold synchronize_step, bind. rewrite (@isAtEnd_eq _ _ _ Ht).
  destruct (TokenType_eqb (Token.type t) EOF) eqn:E.
  { apply TokenType_eqb_eq in E. eexists _, _. split; [reflexivity|].
    split; [reflexivity|]. split; [reflexivity|]. left. exists t. auto. }
  assert (Hpos : 1 <= pos s).
  { destruct Hp as [Hp|(t' & Ht' & E')]; [assumption|].
    rewrite Ht in Ht'. inversion Ht'; subst. rewrite E' in E. discriminate. }
  unfold previous at 1. destruct (pos s) as [|p] eqn:Ep; [lia|].
  destruct (nth_error tokens p) as [q|] eqn:Eq.
  2:{ apply nth_error_None in Eq. unfold valid in Hv. lia. }
  cbn [typeOf ret].
  destruct (TokenType_eqb (Token.type q) SEMICOLON) eqn:Es.
  { apply TokenType_eqb_eq in Es. eexists _, _. split; [reflexivity|].
    split; [reflexivity|]. split; [reflexivity|]. right; left. exists q.
    split; [|assumption]. unfold previous. rewrite Ep, Eq. reflexivity. }
  rewrite <- Ep in *. rewrite (@check_eq _ _ _ Ht).
  assert (Hnext : valid tokens (next s)).
  { unfold valid, next. simpl. apply (Hlast _ Ht). intros C. rewrite C in E.
    discriminate. }
  assert (Hadv : advance tokens s = Ok (Some t) (next s)).
  { rewrite (@advance_eq _ _ _ Ht), E. reflexivity. }
  destruct (checkb KEYWORD t) eqn:C.
  - rewrite (@peek_eq _ _ _ Ht). cbn [valueOf ret].
    destruct (includes _ (Token.value t)) eqn:I.
    + eexists _, _. split; [reflexivity|]. split; [reflexivity|].
      split; [reflexivity|]. right; right. exists t. apply checkb_true in C.
      destruct C as [C _]. auto.
    + rewrite Hadv. eexists _, _. split; [reflexivity|]. split; [reflexivity|]. auto.
  - rewrite Hadv. eexists _, _. split; [reflexivity|]. split; [reflexivity|]. auto.
Qed.

Lemma synchronize_loop_ok (fuel : nat) :
  forall s,
    valid tokens s -> 1 <= pos s \/ at_end s -> List.length tokens - pos s <= fuel ->
    exists s',
      loopM fuel (synchronize_step tokens) tt s = Ok tt s'
      /\ errors s' = errors s /\ valid tokens s' /\ pos s <= pos s' /\ synced s'.
Proof.
  induction fuel as [|fuel IH]; intros s Hv Hp Hn.
  - unfold valid in Hv. lia.
  - cbn [loopM]. unfold bind at 1.
    destruct (@synchronize_step_ok s Hv Hp) as (r & s' & E & He & Hr). rewrite E.
    destruct r as [[]|[]].
    + destruct Hr as [-> Hv'].
      destruct (IH (next s) Hv') as (s2 & E2 & He2 & Hv2 & Hp2 & Hs2).
      * left. simpl. lia.
      * simpl. unfold valid in Hv. lia.
      * exists s2. simpl in *. repeat split; auto; lia.
    + destruct Hr as [-> Hs]. exists s. repeat split; auto.
Qed.

(** [synchronize] returns; it records nothing, skips at least one token
    unless the input is exhausted, and stops at a synchronization point. *)
Lemma synchronize_ok (fuel : nat) (s : State) :
  valid tokens s -> List.length tokens - pos s <= fuel ->
  exists s',
    synchronize tokens fuel s = Ok tt s'
    /\ errors s' = errors s /\ valid tokens s' /\ pos s <= pos s'
    /\ (at_end s \/ pos s < pos s') /\ synced s'.
Proof.
  intros Hv Hn. destruct (@valid_current _ _ Hv) as [t Ht].
  unfold synchronize, bind. rewrite (@advance_eq _ _ _ Ht).
  destruct (TokenType_eqb (Token.type t) EOF) eqn:E.
  - assert (Ha : at_end s) by (exists t; split; [assumption|now apply TokenType_eqb_eq]).
    unfold previous at 1.
    destruct (@synchronize_loop_ok fuel s Hv (or_intror Ha) Hn)
      as (s' & E' & He & Hv' & Hp & Hs).
    rewrite E'. exists s'. repeat split; auto.
  - assert (Hnext : valid tokens (next s)).
    { unfold valid, next. simpl. apply (Hlast _ Ht). intros C. rewrite C in E.
      discriminate. }
    destruct (@synchronize_loop_ok fuel (next s) Hnext) as (s' & E' & He & Hv' & Hp & Hs).
    + left. simpl. lia.
    + simpl. lia.
    + rewrite E'. exists s'. simpl in *. repeat split; auto; try lia; try (right; lia).
Qed.

(** One iteration of the statement loop: it never throws, and consumes at
    least one token unless the input is exhausted. *)
Lemma parse_step_ok (fuel : nat) (body : list StatementNode) (s : State) :
  valid tokens s -> List.length tokens - pos s <= fuel -> RB tokens body ->
  exists r s',
    parse_step tokens fuel body s = Ok r s'
    /\ valid tokens s'
    /\ match r with
       | Continue body' => pos s < pos s' /\ RB tokens body'
       | Break body' => RB tokens body'
       end.
Proof.
  intros Hv Hn Hb. destruct (@valid_current _ _ Hv) as [t Ht].
  unfold parse_step, bind at 1. rewrite (@isAtEnd_eq _ _ _ Ht).
  destruct (TokenType_eqb (Token.type t) EOF) eqn:E; cbn [negb].
  { eexists _, _. split; [reflexivity|]. auto. }
  unfold tryCatch, bind.
  pose proof (@parseStatement_safe fuel s Hv Hn) as G.
  destruct (parseStatement tokens fuel s) as [stmt s1|[e|] s1|]; simpl in G;
    try contradiction.
  - destruct G as (Hv1 & Hp1 & Hr1). eexists _, _. split; [reflexivity|].
    split; [assumption|]. split; [assumption|].
    intros H. rewrite forallb_app. rewrite (Hb H). simpl. now rewrite (Hr1 H).
  - destruct G as (Hv1 & Hp1 & _).
    destruct (@synchronize_ok fuel s1 Hv1) as (s2 & E2 & He2 & Hv2 & Hp2 & Hq2 & _).
    { lia. }
    rewrite E2. eexists _, _. split; [reflexivity|]. split; [assumption|].
    split; [|assumption].
    destruct Hq2 as [(t1 & Ht1 & E1)|Hq2]; [|lia].
    assert (pos s <> pos s1).
    { intros C. rewrite <- C in Ht1. rewrite Ht in Ht1. inversion Ht1; subst.
      rewrite E1 in E. discriminate. }
    lia.
Qed.

Lemma parse_loop_ok (fuel : nat) :
  forall n body s,
    valid tokens s -> List.length tokens - pos s <= n ->
    List.length tokens - pos s <= fuel -> RB tokens body ->
    exists body' s',
      loopM n (parse_step tokens fuel) body s = Ok body' s' /\ RB tokens body'.
Proof.
  induction n as [|n IH]; intros body s Hv Hn Hf Hb.
  - unfold valid in Hv. lia.
  - cbn [loopM]. unfold bind at 1.
    destruct (@parse_step_ok fuel body s Hv Hf Hb) as (r & s' & E & Hv' & Hr). rewrite E.
    destruct r as [body'|body'].
    + destruct Hr as [Hp Hb']. apply IH; auto; unfold valid in *; lia.
    + eexists _, _. split; [reflexivity|assumption].
Qed.

End ParserParse.

(** ** Token lists that end with the end-of-input token *)

Lemma last_EOF (tokens : list Token.t) (eof : Token.t) :
  Token.type eof = EOF ->
  forall i t, nth_error (tokens ++ [eof]) i = Some t -> Token.type t <> EOF ->
              S i < List.length (tokens ++ [eof]).
Proof.
  intros He i t Hi Ht. rewrite length_app. simpl.
  assert (i < List.length (tokens ++ [eof])) by (apply nth_error_Some; congruence).
  rewrite length_app in H. simpl in H.
  destruct (Nat.eq_dec i (List.length tokens)) as [->|]; [|lia].
  rewrite nth_error_app2 in Hi by lia. rewrite Nat.sub_diag in Hi. simpl in Hi.
  inversion Hi; subst. contradiction.
Qed.

Lemma new_snoc (tokens : list Token.t) (eof : Token.t) :
  Token.type eof = EOF -> Parser.new (tokens ++ [eof]) = Parser.new tokens ++ [eof].
Proof.
  intros He. unfold Parser.new. rewrite filter_app. simpl. rewrite He. reflexivity.
Qed.

Lemma new_no_TEMPLATE_TEXT (tokens : list Token.t) :
  no_TEMPLATE_TEXT tokens -> no_TEMPLATE_TEXT (Parser.new tokens).
Proof.
  unfold no_TEMPLATE_TEXT, Parser.new. rewrite !Forall_forall.
  intros H t Ht. apply filter_In in Ht. destruct Ht. auto.
Qed.

(** The statement loop of [parse] returns on every token list that ends
    with the end-of-input token. *)
Lemma parse_returns (tokens : list Token.t) (eof : Token.t) :
  Token.type eof = EOF ->
  exists body errors s,
    Parser.parse (tokens ++ [eof]) = Parser.Ok (Program body, errors) s
    /\ (no_TEMPLATE_TEXT (tokens ++ [eof]) ->
        forallb interpolations_only body = true).
Proof.
  intros He. unfold Parser.parse. cbv zeta. rewrite (@new_snoc tokens eof He).
  set (toks := Parser.new tokens ++ [eof]).
  assert (Hlast := @last_EOF (Parser.new tokens) eof He). fold toks in Hlast.
  assert (Hv : valid toks Parser.init).
  { unfold valid, toks. rewrite length_app. simpl. lia. }
  destruct (@parse_loop_ok toks Hlast (S (List.length toks)) (S (List.length toks))
              [] Parser.init Hv) as (body & s & E & Hb).
  - simpl. lia.
  - simpl. lia.
  - intros _. reflexivity.
  - unfold Parser.parse_, Parser.bind. rewrite E. unfold Parser.ret.
    eexists _, _, _. split; [reflexivity|].
    intros H. apply Hb. unfold toks. rewrite <- (@new_snoc tokens eof He).
    now apply new_no_TEMPLATE_TEXT.
Qed.

Section ParserRecovery.

Import Parser.
Local Open Scope parser_scope.

Variable tokens : list Token.t.
Hypothesis Hlast :
  forall i t, nth_error tokens i = Some t -> Token.type t <> EOF ->
              S i < List.length tokens.

(** A statement that throws: the exception is a [ParseError] already in the
    error list; the loop of [parse] catches it, keeps the statements and the
    errors it has, and resumes further on at a synchronization point. *)
Lemma parse_step_recovers (fuel : nat) (body : list StatementNode) (s s1 : State)
    (e : Exception) :
  valid tokens s -> List.length tokens - pos s <= fuel -> ~ at_end tokens s ->
  parseStatement tokens fuel s = Throw e s1 ->
  (exists err, e = EParseError err /\ In err (errors s1))
  /\ exists s2,
       parse_step tokens fuel body s = Ok (Continue body) s2
       /\ errors s2 = errors s1 /\ pos s < pos s2 /\ synced tokens s2.
Proof.
  intros Hv Hn Hne E. destruct (@valid_current _ _ Hv) as [t Ht].
  pose proof (@parseStatement_safe tokens Hlast fuel s Hv Hn) as G.
  rewrite E in G. destruct e as [err|]; simpl in G; [|contradiction].
  destruct G as (Hv1 & Hp1 & Hi). split; [eauto|].
  unfold parse_step, bind at 1. rewrite (@isAtEnd_eq _ _ _ Ht).
  destruct (TokenType_eqb (Token.type t) EOF) eqn:Et.
  { exfalso. apply Hne. exists t. split; [assumption|now apply TokenType_eqb_eq]. }
  cbn [negb]. unfold tryCatch, bind. rewrite E.
  destruct (@synchronize_ok tokens Hlast fuel s1 Hv1) as (s2 & E2 & He2 & Hv2 & Hp2 & Hq2 & Hs2).
  { lia. }
  rewrite E2. exists s2. split; [reflexivity|]. split; [assumption|].
  split; [|assumption].
  destruct Hq2 as [(t1 & Ht1 & E1)|Hq2]; [|lia].
  assert (pos s <> pos s1).
  { intros C. rewrite <- C in Ht1. rewrite Ht in Ht1. inversion Ht1; subst.
    rewrite E1 in Et. discriminate. }
  lia.
Qed.

End ParserRecovery.



(** The lexer's output always parses. *)
Lemma parseSource_returns (source : jsstring) :
  exists body errors s,
    parseSource source = Some (Parser.Ok (Program body, errors) s).
Proof.
  destruct (tokenize_shape source) as (st & _ & E).
  unfold parseSource. rewrite E.
  destruct (@parse_returns (Lexer.tokens st)
              (Token.mk EOF [] (Lexer.line st) (Lexer.column st - 0) 0) eq_refl)
    as (body & errors & s & Ep & _).
  rewrite Ep. eauto.
Qed.



(** C9. [template {{ user.name }}] lexes and parses to one template-block
    statement with exactly one part, the interpolation of a non-computed
    member access whose object is the identifier [user] and whose property
    is the identifier [name]; no error is reported. *)
Theorem template_member_interpolation :
  exists s,
    parseSource (str "template {{ user.name }}")
    = Some (Parser.Ok
              (Program
                 [TemplateStatement
                    [PartExpression
                       (MemberExpression (Identifier (str "user"))
                          (Identifier (str "name")) false)]],
               []) s).
Proof. eexists. vm_compute. reflexivity. Qed.

(** C8. [1 + 2 * 3] parses to a binary [+] whose left operand is the literal
    1 and whose right operand is the binary [*] of the literals 2 and 3.  In
    general, for number tokens [a], [b], [c] and binary operator tokens
    [op1], [op2], the tokens [a op1 b op2 c] parse to [a op1 (b op2 c)] when
    [op2] binds tighter than [op1], and to [(a op1 b) op2 c] otherwise: a
    tighter level binds first and every level associates to the left. *)
Theorem precedence_and_associativity :
  (exists s,
     parseSource (str "1 + 2 * 3")
     = Some (Parser.Ok
               (Program
                  [ExpressionStatement
                     (BinaryExpression (str "+")
                        (Literal (VNumber (str "1")) (str "1"))
                        (BinaryExpression (str "*")
                           (Literal (VNumber (str "2")) (str "2"))
                           (Literal (VNumber (str "3")) (str "3"))))],
                []) s))
  /\ (forall (a b c op1 op2 eof : Token.t) (l1 l2 : nat),
        Token.type a = NUMBER -> Token.type b = NUMBER -> Token.type c = NUMBER ->
        Token.type eof = EOF ->
        binary_level (Token.type op1) = Some l1 ->
        binary_level (Token.type op2) = Some l2 ->
        exists s,
          Parser.parse [a; op1; b; op2; c; eof]
          = Parser.Ok
              (Program
                 [ExpressionStatement
                    (if (l1 <? l2)%nat
                     then binary_node op1 (number_literal a)
                            (binary_node op2 (number_literal b) (number_literal c))
                     else binary_node op2
                            (binary_node op1 (number_literal a) (number_literal b))
                            (number_literal c))],
               []) s).
Proof.
  split; [eexists; vm_compute; reflexivity|].
  intros a b c op1 op2 eof l1 l2 Ha Hb Hc He H1 H2.
  destruct a as [ta va la ca na], b as [tb vb lb cb nb], c as [tc vc lc cc nc],
    eof as [te ve le ce ne], op1 as [t1 v1 p1 q1 n1], op2 as [t2 v2 p2 q2 n2].
  simpl in Ha, Hb, Hc, He, H1, H2. subst ta tb tc te.
  destruct t1; simpl in H1; try discriminate; inversion H1; subst l1; clear H1;
    destruct t2; simpl in H2; try discriminate; inversion H2; subst l2; clear H2;
    eexists; vm_compute; reflexivity.
Qed.

Lemma precedence_and_associativity_witness :
  (exists s,
     Parser.parse
       [Token.mk NUMBER (str "1") 1 1 1; Token.mk PLUS (str "+") 1 3 1;
        Token.mk NUMBER (str "2") 1 5 1; Token.mk MULTIPLY (str "*") 1 7 1;
        Token.mk NUMBER (str "3") 1 9 1; Token.mk EOF [] 1 10 0]
     = Parser.Ok
         (Program
            [ExpressionStatement
               (BinaryExpression (str "+")
                  (Literal (VNumber (str "1")) (str "1"))
                  (BinaryExpression (str "*")
                     (Literal (VNumber (str "2")) (str "2"))
                     (Literal (VNumber (str "3")) (str "3"))))],
          []) s)
  /\ (exists s,
        Parser.parse
          [Token.mk NUMBER (str "1") 1 1 1; Token.mk MINUS (str "-") 1 3 1;
           Token.mk NUMBER (str "2") 1 5 1; Token.mk PLUS (str "+") 1 7 1;
           Token.mk NUMBER (str "3") 1 9 1; Token.mk EOF [] 1 10 0]
        = Parser.Ok
            (Program
               [ExpressionStatement
                  (BinaryExpression (str "+")
                     (BinaryExpression (str "-")
                        (Literal (VNumber (str "1")) (str "1"))
                        (Literal (VNumber (str "2")) (str "2")))
                     (Literal (VNumber (str "3")) (str "3")))],
             []) s).
Proof.
  destruct precedence_and_associativity as [_ H]. split.
  - apply (H (Token.mk NUMBER (str "1") 1 1 1) (Token.mk NUMBER (str "2") 1 5 1)
             (Token.mk NUMBER (str "3") 1 9 1) (Token.mk PLUS (str "+") 1 3 1)
             (Token.mk MULTIPLY (str "*") 1 7 1) (Token.mk EOF [] 1 10 0) 5 6);
      reflexivity.
  - apply (H (Token.mk NUMBER (str "1") 1 1 1) (Token.mk NUMBER (str "2") 1 5 1)
             (Token.mk NUMBER (str "3") 1 9 1) (Token.mk MINUS (str "-") 1 3 1)
             (Token.mk PLUS (str "+") 1 7 1) (Token.mk EOF [] 1 10 0) 5 5);
      reflexivity.
Defined.

(** C10. For every input string the lexer emits no token of kind
    [TEMPLATE_TEXT]; hence the tree the parser builds from the lexer's
    tokens has, in every template-block statement at any depth, only
    interpolated expressions as parts and no literal text. *)
Theorem no_template_text (source : jsstring) :
  exists tokens errors,
    Lexer.tokenize source = Some (tokens, errors)
    /\ Forall (fun t => Token.type t <> TEMPLATE_TEXT) tokens
    /\ exists body parse_errors s,
         Parser.parse tokens = Parser.Ok (Program body, parse_errors) s
         /\ forallb interpolations_only body = true.
Proof.
  destruct (tokenize_shape source) as (st & L & E).
  eexists _, _. split; [exact E|].
  assert (H : no_TEMPLATE_TEXT
                (Lexer.tokens st
                   ++ [Token.mk EOF [] (Lexer.line st) (Lexer.column st - 0) 0])).
  { apply Forall_app. split.
    - apply (@tokenize_loop_Forall source
               (fun t => Token.type t <> TEMPLATE_TEXT)) with (2 := Forall_nil _) (3 := L).
      intros type value l c Ht _. exact Ht.
    - constructor; [discriminate|constructor]. }
  split; [exact H|].
  destruct (@parse_returns (Lexer.tokens st)
              (Token.mk EOF [] (Lexer.line st) (Lexer.column st - 0) 0) eq_refl)
    as (body & errors & s & Ep & Hb).
  eexists _, _, _. split; [exact Ep|]. exact (Hb H).
Qed.

(** C5 (what the lexer does instead).  The string literal of three
    characters between double quotes that starts the input at line 1, column 1
    is given column 3; a string literal whose source spans a line break is
    given the line of its closing quote and a column counted back from there,
    here -6.  The [length] field is the length of the resolved text. *)
Theorem string_token_position_off :
  Lexer.tokenize (DQUOTE :: str "abc" ++ [DQUOTE])
  = Some ([Token.mk STRING (str "abc") 1 3 3; Token.mk EOF [] 1 6 0], [])
  /\ Lexer.tokenize (str "x" ++ DQUOTE :: str "aaaaaaaa" ++ [LF; DQUOTE])
     = Some ([Token.mk IDENTIFIER (str "x") 1 1 1;
              Token.mk STRING (str "aaaaaaaa" ++ [LF]) 2 (-6) 9;
              Token.mk EOF [] 2 3 0], []).
Proof. split; vm_compute; reflexivity. Qed.

(** ** Unterminated strings *)

Section LexerUnterminated.

Import Lexer.

Variable source : jsstring.
Variable quote : char.

(** No character from position [from] on is the quote. *)
Hypothesis Hquote :
  forall p, 1 <= p -> p < List.length source -> nth p source NUL <> quote.

Lemma string_loop_runs_out (s : State) (v : jsstring) :
  1 <= pos s ->
  exists s' v',
    loop (gas source) (string_step source quote) (s, v) = Some (s', v')
    /\ isAtEnd source s' = true
    /\ tokens s' = tokens s /\ errors s' = errors s.
Proof.
  intros Hp.
  destruct (@loop_spec _ (string_step source quote)
              (fun a => 1 <= pos (fst a))
              (fun a => isAtEnd source (fst a) = true)
              (@left source)) with (fuel := gas source) (a := (s, v))
    as ([s' v'] & E & Hend).
  - intros [s0 v0] H0. simpl in H0.
    pose proof (@string_step_advances source quote (s0, v0)) as A.
    unfold string_step in *.
    destruct (isAtEnd source s0) eqn:E0; cbn [negb andb] in *; [exact E0|].
    destruct (peek source s0 =? quote)%N eqn:Eq; cbn [negb] in *.
    + exfalso. apply N.eqb_eq in Eq. apply isAtEnd_false in E0.
      unfold peek in Eq.
      destruct (isAtEnd source s0) eqn:E1; [apply isAtEnd_true in E1; lia|].
      exact (Hquote H0 E0 Eq).
    + cbv zeta in *. unfold advance in *. apply isAtEnd_false in E0.
      repeat match goal with |- context [if ?b then _ else _] => destruct b end;
        unfold left; cbn [fst snd pos set_pos set_column set_line] in *;
        split; lia.
  - exact Hp.
  - apply left_gas.
  - exists s', v'. split; [exact E|]. split; [exact Hend|].
    exact (frames_loop _ _ (@string_step_frames source quote) E).
Qed.

End LexerUnterminated.

Lemma scanToken_quote (source : jsstring) (s : Lexer.State) (quote : char) :
  nth_error source (Lexer.pos s) = Some quote ->
  quote = DQUOTE \/ quote = SQUOTE ->
  Lexer.scanToken source s
  = Lexer.string source quote
      (Lexer.set_pos (S (Lexer.pos s)) (Lexer.set_column (Lexer.column s + 1) s)).
Proof.
  intros H Hq. unfold Lexer.scanToken, Lexer.advance. rewrite H.
  destruct Hq; subst; reflexivity.
Qed.

Lemma loop_two_steps (A : Type) (step : A -> option (LoopStep A)) (n : nat)
    (a a1 a2 : A) :
  step a = Some (Continue a1) -> step a1 = Some (Break a2) ->
  loop (S (S n)) step a = Some a2.
Proof. intros H1 H2. simpl. rewrite H1, H2. reflexivity. Qed.



(** ** The round trip *)

Lemma claimed_characters (pieces : list Piece) :
  Forall piece_claimed pieces -> errors_of pieces = [] ->
  forall c, In c (List.concat (map raw_of pieces)) ->
            is_blank c \/ exists t, In t (tokens_of pieces) /\ In c (Token.value t).
Proof.
  induction 1 as [|p ps Hp Hps IH]; intros He c Hc; [contradiction|].
  simpl in Hc. apply in_app_or in Hc.
  destruct p as [t raw|b|e raw|b]; simpl in *.
  - destruct Hc as [Hc|Hc].
    + right. exists t. subst raw. auto.
    + destruct (IH He c Hc) as [|(t' & Ht' & Hin)]; [auto|]. right. eauto.
  - destruct Hc as [[<-|[]]|Hc]; [auto|]. exact (IH He c Hc).
  - discriminate.
  - contradiction.
Qed.

Lemma firstn_snoc (source : jsstring) (p : nat) (c : char) :
  nth_error source p = Some c -> firstn (S p) source = firstn p source ++ [c].
Proof.
  revert p. induction source as [|x xs IH]; intros [|p] H; simpl in *;
    try discriminate.
  - inversion H; reflexivity.
  - f_equal. now apply IH.
Qed.

Lemma firstn_past (source : jsstring) (p : nat) :
  nth_error source p = None -> firstn (S p) source = firstn p source.
Proof.
  intros H. apply nth_error_None in H.
  rewrite !firstn_all2 by lia. reflexivity.
Qed.

Section LexerRoundTrip.

Import Lexer.

Variable source : jsstring.
Local Abbreviation accumulates := (accumulates source).

Lemma pos_set_pos (p : nat) (s : State) : pos (set_pos p s) = p.
Proof. reflexivity. Qed.

Lemma peek_nth_error (s : State) (c : char) :
  nth_error source (pos s) = Some c -> peek source s = c.
Proof.
  intros H. unfold peek.
  assert (pos s < List.length source) by (apply nth_error_Some; congruence).
  destruct (isAtEnd source s) eqn:E; [apply isAtEnd_true in E; lia|].
  now apply nth_error_nth.
Qed.

Lemma peekNext_nth_error (s : State) (c : char) :
  peekNext source s = c -> c <> NUL -> nth_error source (S (pos s)) = Some c.
Proof.
  intros H Hc. pose proof (peekNext_defined _ _ H Hc) as Hd.
  unfold peekNext in H. destruct (_ <=? _)%nat eqn:E; [congruence|].
  rewrite Nat.add_1_r in *.
  destruct (nth_error_defined source Hd) as [c' Hc'].
  rewrite Hc'. f_equal. rewrite <- H. symmetry. now apply nth_error_nth.
Qed.

Ltac acc_step :=
  match goal with
  | H : pos ?s < List.length source |- _ =>
      let c := fresh "c" in
      let Ec := fresh "Ec" in
      destruct (nth_error_defined source H) as [c Ec];
      cbn [fst snd pos set_pos set_column set_line]; rewrite Ec;
      rewrite (firstn_snoc _ _ Ec); cbn [toStr];
      rewrite app_assoc; f_equal; assumption
  end.

Lemma digits_step_accumulates base a a' :
  accumulates base a ->
  digits_step source a = Some (Continue a') \/ digits_step source a = Some (Break a') ->
  accumulates base a'.
Proof.
  destruct a as [s v]. unfold digits_step, advance, accumulates.
  intros T [E|E]; destruct (isDigit (peek source s)) eqn:D;
    inversion E; subst; clear E; auto.
  apply isDigit_peek in D. simpl in T. acc_step.
Qed.

Lemma identifier_step_accumulates base a a' :
  accumulates base a ->
  identifier_step source a = Some (Continue a')
  \/ identifier_step source a = Some (Break a') ->
  accumulates base a'.
Proof.
  destruct a as [s v]. unfold identifier_step, advance, accumulates.
  intros T [E|E]; destruct (isAlphaNumeric (peek source s)) eqn:D;
    inversion E; subst; clear E; auto.
  apply isAlphaNumeric_peek in D. simpl in T. acc_step.
Qed.

Lemma lineComment_step_accumulates base a a' :
  accumulates base a ->
  lineComment_step source a = Some (Continue a')
  \/ lineComment_step source a = Some (Break a') ->
  accumulates base a'.
Proof.
  destruct a as [s v]. unfold lineComment_step, advance, accumulates.
  intros T [E|E]; destruct (isAtEnd source s) eqn:D;
    destruct (peek source s =? LF)%N;
    inversion E; subst; clear E; auto.
  apply isAtEnd_false in D. simpl in T. acc_step.
Qed.

Lemma blockComment_step_accumulates base a a' :
  accumulates base a ->
  blockComment_step source a = Some (Continue a')
  \/ blockComment_step source a = Some (Break a') ->
  accumulates base a'.
Proof.
  destruct a as [s v]. unfold blockComment_step, advance, accumulates.
  intros T [E|E]; destruct (isAtEnd source s) eqn:D; cbn [negb] in E;
    cbv beta iota zeta in E; try (inversion E; subst; assumption).
  - destruct (_ && _); [discriminate|]. apply isAtEnd_false in D. simpl in T.
    destruct (peek source s =? LF)%N; inversion E; subst; clear E; acc_step.
  - destruct ((peek source s =? chr "*")%N && (peekNext source s =? chr "/")%N) eqn:B.
    + inversion E; subst; clear E. apply andb_true_iff in B. destruct B as [B1 B2].
      apply N.eqb_eq in B2. apply peekNext_nth_error in B2; [|discriminate].
      apply isAtEnd_false in D. destruct (nth_error_defined source D) as [c Ec].
      cbn [fst snd] in *. rewrite !pos_set_pos, Ec.
      change (match source with
              | [] => None
              | _ :: l' => nth_error l' (pos s)
              end) with (nth_error source (S (pos s))).
      rewrite B2.
      rewrite (firstn_snoc _ _ B2), (firstn_snoc _ _ Ec), T. cbn [toStr].
      rewrite <- !app_assoc. reflexivity.
    + destruct (peek source s =? LF)%N; discriminate.
Qed.

Lemma accumulates_loop step base fuel a a' :
  (forall x x', accumulates base x ->
     step x = Some (Continue x') \/ step x = Some (Break x') -> accumulates base x') ->
  accumulates base a -> loop fuel step a = Some a' -> accumulates base a'.
Proof.
  intros H. apply (@loop_inv _ step (accumulates base) (accumulates base)); eauto.
Qed.

End LexerRoundTrip.

Section LexerPieces.

Import Lexer.

Variable source : jsstring.
Local Abbreviation string_inv := (string_inv source).
Local Abbreviation scanned := (scanned source).

Lemma string_step_inv base quote a a' :
  string_inv base quote a ->
  string_step source quote a = Some (Continue a') ->
  string_inv base quote a'.
Proof.
  destruct a as [s v]. unfold string_step, string_inv. cbn [fst snd].
  intros (body & Hf & Hr) E.
  destruct (isAtEnd source s) eqn:D; cbn [negb andb] in E; [discriminate|].
  destruct (peek source s =? quote)%N eqn:Q; cbn [negb] in E; [discriminate|].
  apply isAtEnd_false in D. destruct (nth_error_defined source D) as [c Ec].
  pose proof (peek_nth_error source s Ec) as Hpeek.
  apply N.eqb_neq in Q. specialize (Hr ltac:(lia)).
  cbv zeta in E.
  assert (Hpk : forall l k, peek source (set_column k (set_line l s)) = peek source s)
    by reflexivity.
  assert (E' :
    (if (peek source s =? BACKSLASH)%N
     then a' = (set_pos (S (S (pos s)))
                  (set_column (column (fst a') ) (set_line (line (fst a')) s)),
                v ++ unescape (nth_error source (S (pos s))))
     else a' = (set_pos (S (pos s))
                  (set_column (column (fst a')) (set_line (line (fst a')) s)),
                v ++ toStr (nth_error source (pos s))))).
  { destruct (peek source s =? LF)%N; rewrite ?Hpk in E;
      destruct (peek source s =? BACKSLASH)%N; unfold advance in E;
      inversion E; subst; reflexivity. }
  clear E. destruct (peek source s =? BACKSLASH)%N eqn:B; rewrite E'; cbn [fst snd pos set_pos].
  - apply N.eqb_eq in B. rewrite Hpeek in B, Q. clear Hpeek. subst c.
    destruct (nth_error source (S (pos s))) as [c2|] eqn:E2.
    + exists (body ++ [BACKSLASH; c2]). split.
      * rewrite (firstn_snoc _ _ E2), (firstn_snoc _ _ Ec), Hf.
        rewrite <- !app_assoc. reflexivity.
      * intros _. now apply resolves_escape.
    + exists (body ++ [BACKSLASH]). split.
      * rewrite (firstn_past _ _ E2), (firstn_snoc _ _ Ec), Hf.
        rewrite <- !app_assoc. reflexivity.
      * apply nth_error_None in E2. lia.
  - apply N.eqb_neq in B. rewrite Hpeek in B, Q. rewrite Ec.
    exists (body ++ [c]). split.
    + rewrite (firstn_snoc _ _ Ec), Hf. rewrite <- !app_assoc. reflexivity.
    + intros _. cbn [toStr]. now apply resolves_char.
Qed.

Lemma string_loop_inv base quote fuel a a' :
  string_inv base quote a ->
  loop fuel (string_step source quote) a = Some a' ->
  string_inv base quote a'
  /\ (isAtEnd source (fst a') = true \/ peek source (fst a') = quote).
Proof.
  apply (@loop_inv _ (string_step source quote) (string_inv base quote)
           (fun x => string_inv base quote x
                     /\ (isAtEnd source (fst x) = true \/ peek source (fst x) = quote))).
  - intros x x' Hx E. eapply string_step_inv; eassumption.
  - intros [s v] x' Hx E. unfold string_step in E.
    destruct (isAtEnd source s) eqn:D; cbn [negb andb] in E.
    + inversion E; subst. auto.
    + destruct (peek source s =? quote)%N eqn:Q; cbn [negb] in E.
      * inversion E; subst. apply N.eqb_eq in Q. auto.
      * cbv zeta in E. unfold advance in E.
        repeat match type of E with
               | context [if ?b then _ else _] => destruct b
               end; discriminate.
Qed.

Lemma scanned_token base s s' type value l c :
  type <> STRING ->
  firstn (pos s') source = base ++ value ->
  tokens s' = tokens s ++ [Token.mk type value l c (len value)] ->
  errors s' = errors s ->
  scanned base s s'.
Proof.
  intros Hty Hf Ht He. exists (PToken (Token.mk type value l c (len value)) value).
  split; [exact Hf|]. split; [exact Ht|]. split; [simpl; now rewrite app_nil_r|].
  simpl. split; [reflexivity|]. destruct type; congruence.
Qed.

Lemma string_scanned base quote s s' :
  quote = DQUOTE \/ quote = SQUOTE ->
  firstn (pos s) source = base ++ [quote] ->
  string source quote s = Some s' -> scanned base s s'.
Proof.
  intros Hq Hb. unfold string.
  destruct (loop _ _ _) as [[s1 v1]|] eqn:E; [|discriminate].
  assert (H0 : string_inv base quote (s, [])).
  { exists []. split; [exact Hb|]. intros _. constructor. }
  destruct (@string_loop_inv base quote _ (s, []) (s1, v1) H0 E)
    as [(body & Hf & Hr) Hend].
  clear H0. cbn [fst snd] in *.
  loop_frame (string_step_frames source quote).
  destruct (isAtEnd source s1) eqn:D; intros H; inversion H; subst; clear H.
  - exists (PError (LexerError.mk (str "Unterminated string") (line s1) (column s1))
              (quote :: body)).
    split; [exact Hf|]. split; [simpl; now rewrite app_nil_r|].
    split; [simpl; now rewrite He|]. right. exists quote, body. auto.
  - destruct Hend as [Hend|Hend]; [congruence|].
    apply isAtEnd_false in D. destruct (nth_error_defined source D) as [c Ec].
    rewrite (peek_nth_error source s1 Ec) in Hend. subst c.
    exists (PToken (Token.mk STRING v1 (line s1) (column s1 + 1 - len v1) (len v1))
              (quote :: body ++ [quote])).
    split.
    { cbn [addToken push_token pos set_pos raw_of].
      rewrite (firstn_snoc _ _ Ec), Hf. rewrite <- app_assoc. reflexivity. }
    split; [simpl; now rewrite Ht|].
    split; [simpl; rewrite He; now rewrite app_nil_r|].
    simpl. split; [reflexivity|]. exists quote, body.
    split; [assumption|]. split; [reflexivity|]. apply Hr. lia.
Qed.

Lemma number_scanned base first s s' :
  firstn (pos s) source = base ++ [first] ->
  number source first s = Some s' -> scanned base s s'.
Proof.
  intros Hb. unfold number. destruct (loop _ _ _) as [[s1 v1]|] eqn:E; [|discriminate].
  assert (A : accumulates source base (s1, v1)).
  { eapply accumulates_loop; [apply digits_step_accumulates| |exact E]. exact Hb. }
  loop_frame (digits_step_frames source).
  unfold accumulates in A. cbn [fst snd] in A.
  destruct ((peek source s1 =? chr ".")%N && isDigit (peekNext source s1)) eqn:B.
  - unfold advance; cbv beta iota.
    destruct (loop _ _ _) as [[s2 v2]|] eqn:E2; [|discriminate].
    assert (A' : accumulates source base (s2, v2)).
    { eapply accumulates_loop; [apply digits_step_accumulates| |exact E2].
      apply andb_true_iff in B. destruct B as [B _]. apply N.eqb_eq in B.
      apply peek_defined in B; [|discriminate].
      destruct (nth_error_defined source B) as [c Ec]. rewrite Ec.
      unfold accumulates. cbn [fst snd pos set_pos toStr].
      rewrite (firstn_snoc _ _ Ec), A. now rewrite <- app_assoc. }
    loop_frame (digits_step_frames source).
    unfold accumulates in A'. cbn [fst snd] in A'.
    intros H; inversion H; subst; clear H.
    eapply scanned_token with (type := NUMBER); [discriminate|exact A'| |].
    + cbn [addToken push_token tokens]. rewrite Ht0. cbn [tokens set_pos set_column].
      rewrite Ht. reflexivity.
    + cbn [addToken push_token errors]. rewrite He0. cbn [errors set_pos set_column].
      exact He.
  - intros H; inversion H; subst; clear H.
    eapply scanned_token with (type := NUMBER); [discriminate|exact A| |].
    + cbn [addToken push_token tokens]. rewrite Ht. reflexivity.
    + cbn [addToken push_token errors]. exact He.
Qed.

Lemma identifier_scanned base first s s' :
  firstn (pos s) source = base ++ [first] ->
  identifier source first s = Some s' -> scanned base s s'.
Proof.
  intros Hb. unfold identifier.
  destruct (loop _ _ _) as [[s1 v1]|] eqn:E; [|discriminate].
  assert (A : accumulates source base (s1, v1)).
  { eapply accumulates_loop; [apply identifier_step_accumulates| |exact E]. exact Hb. }
  loop_frame (identifier_step_frames source).
  unfold accumulates in A. cbn [fst snd] in A.
  repeat match goal with |- context [if ?b then _ else _] => destruct b end;
    intros H; inversion H; subst; clear H;
    (eapply scanned_token;
     [ | exact A
       | cbn [addToken push_token tokens]; rewrite Ht; reflexivity
       | cbn [addToken push_token errors]; exact He ];
     discriminate).
Qed.

Lemma lineComment_scanned base s s' :
  firstn (pos s) source = base ++ [chr "/"] ->
  peek source s = chr "/" ->
  lineComment source s = Some s' -> scanned base s s'.
Proof.
  intros Hb Hpk. unfold lineComment, advance; cbv beta iota zeta.
  destruct (loop _ _ _) as [[s1 v1]|] eqn:E; [|discriminate].
  assert (A : accumulates source base (s1, v1)).
  { eapply accumulates_loop; [apply lineComment_step_accumulates| |exact E].
    pose proof (peek_defined _ _ Hpk ltac:(discriminate)) as Hd.
    destruct (nth_error_defined source Hd) as [c Ec].
    rewrite (peek_nth_error source s Ec) in Hpk. subst c.
    unfold accumulates. cbn [fst snd pos set_pos].
    rewrite (firstn_snoc _ _ Ec), Hb. now rewrite <- app_assoc. }
  loop_frame (lineComment_step_frames source).
  unfold accumulates in A. cbn [fst snd] in A.
  intros H; inversion H; subst; clear H.
  eapply scanned_token with (type := COMMENT); [discriminate|exact A| |].
  - cbn [addToken push_token tokens]. rewrite Ht. reflexivity.
  - cbn [addToken push_token errors]. exact He.
Qed.

Lemma blockComment_scanned base s s' :
  firstn (pos s) source = base ++ [chr "/"] ->
  peek source s = chr "*" ->
  blockComment source s = Some s' -> scanned base s s'.
Proof.
  intros Hb Hpk. unfold blockComment, advance; cbv beta iota zeta.
  destruct (loop _ _ _) as [[s1 v1]|] eqn:E; [|discriminate].
  assert (A : accumulates source base (s1, v1)).
  { eapply accumulates_loop; [apply blockComment_step_accumulates| |exact E].
    pose proof (peek_defined _ _ Hpk ltac:(discriminate)) as Hd.
    destruct (nth_error_defined source Hd) as [c Ec].
    rewrite (peek_nth_error source s Ec) in Hpk. subst c.
    unfold accumulates. cbn [fst snd pos set_pos].
    rewrite (firstn_snoc _ _ Ec), Hb. now rewrite <- app_assoc. }
  loop_frame (blockComment_step_frames source).
  unfold accumulates in A. cbn [fst snd] in A.
  intros H; inversion H; subst; clear H.
  eapply scanned_token with (type := COMMENT); [discriminate|exact A| |].
  - cbn [addToken push_token tokens]. rewrite Ht. reflexivity.
  - cbn [addToken push_token errors]. exact He.
Qed.

End LexerPieces.

Section LexerScanned.

Import Lexer.

Variable source : jsstring.

Lemma peek_is (s : State) (k : char) :
  (peek source s =? k)%N = true -> k <> NUL -> nth_error source (pos s) = Some k.
Proof.
  intros H Hk. apply N.eqb_eq in H. pose proof (peek_defined _ _ H Hk) as Hd.
  destruct (nth_error_defined source Hd) as [c Ec].
  rewrite (peek_nth_error source s Ec) in H. congruence.
Qed.

Lemma scanned_two (s s' : State) (c k : char) type l col :
  nth_error source (pos s) = Some c ->
  nth_error source (S (pos s)) = Some k ->
  pos s' = S (S (pos s)) ->
  tokens s' = tokens s ++ [Token.mk type [c; k] l col (len [c; k])] ->
  errors s' = errors s ->
  type <> STRING ->
  scanned source (firstn (pos s) source) s s'.
Proof.
  intros Hc Hk Hp Ht He Hty.
  eapply scanned_token; [exact Hty| |exact Ht|exact He].
  rewrite Hp, (firstn_snoc _ _ Hk), (firstn_snoc _ _ Hc), <- app_assoc. reflexivity.
Qed.

Lemma scanned_other (s s' : State) (c : char) (p : Piece) :
  nth_error source (pos s) = Some c ->
  pos s' = S (pos s) ->
  raw_of p = [c] ->
  tokens s' = tokens s ++ tokens_of [p] ->
  errors s' = errors s ++ errors_of [p] ->
  piece_scanned p ->
  scanned source (firstn (pos s) source) s s'.
Proof.
  intros Hc Hp Hr Ht He Hs. exists p.
  rewrite Hp, (firstn_snoc _ _ Hc), Hr. auto.
Qed.

Ltac two_chars Hc :=
  match goal with
  | P : (peek source _ =? _)%N = true |- _ =>
      apply peek_is in P; [|discriminate]; rewrite pos_set_pos in P;
      eapply (@scanned_two _ _ _ _ _ _ _ Hc P);
      [reflexivity|reflexivity|reflexivity|discriminate]
  end.

Lemma scanToken_scanned (s s' : State) (c : char) :
  nth_error source (pos s) = Some c ->
  scanToken source s = Some s' ->
  scanned source (firstn (pos s) source) s s'.
Proof.
  intros Hc. unfold scanToken, advance. rewrite Hc.
  pose proof (firstn_snoc _ _ Hc) as Hb.
  change (S (pos s))
    with (pos (set_pos (S (pos s)) (set_column (column s + 1) s))) in Hb.
  repeat match goal with
         | |- context [if ?b then _ else _] => destruct b eqn:?
         end;
    repeat match goal with
           | H : (c =? _)%N = true |- _ => apply N.eqb_eq in H; subst c
           | H : (_ || _)%bool = true |- _ =>
               apply orb_true_iff in H; destruct H as [H|H]
           | H : (_ && _)%bool = true |- _ =>
               apply andb_true_iff in H; destruct H as [H ?]
           end;
    intros Hscan;
    try (eapply lineComment_scanned in Hscan;
         [exact Hscan|exact Hb|apply N.eqb_eq; eassumption]);
    try (eapply blockComment_scanned in Hscan;
         [exact Hscan|exact Hb|apply N.eqb_eq; eassumption]);
    try (eapply string_scanned in Hscan; [exact Hscan|auto|exact Hb]);
    try (eapply number_scanned in Hscan; [exact Hscan|exact Hb]);
    try (eapply identifier_scanned in Hscan; [exact Hscan|exact Hb]);
    inversion Hscan; subst s'; clear Hscan;
    try (eapply scanned_token; [ |exact Hb|reflexivity|reflexivity]; discriminate);
    try (two_chars Hc);
    try (eapply (@scanned_other _ _ _ (PBlank _) Hc);
         [reflexivity|reflexivity|simpl; now rewrite app_nil_r
         |simpl; now rewrite app_nil_r|simpl; solve [auto]]);
    try (eapply (@scanned_other _ _ _ (PSkipped _) Hc);
         [reflexivity|reflexivity|simpl; now rewrite app_nil_r
         |simpl; now rewrite app_nil_r|reflexivity]).
  eapply (@scanned_other _ _ _
           (PError (LexerError.mk (str "Unexpected character: " ++ [c]) (line s)
                      (column s + 1 - 1)) [c]) Hc);
    [reflexivity|reflexivity|simpl; now rewrite app_nil_r|reflexivity|].
  left. exists c. auto.
Qed.

End LexerScanned.

Section LexerCovered.

Import Lexer.

Variable source : jsstring.
Local Abbreviation covered := (covered source).

Lemma covered_snoc (s s' : State) :
  covered s -> scanned source (firstn (pos s) source) s s' -> covered s'.
Proof.
  intros (pieces & Hc & Ht & He & Hf) (p & Hp & Ht' & He' & Hs).
  exists (pieces ++ [p]). repeat split.
  - rewrite map_app, concat_app, Hc, Hp. simpl. now rewrite app_nil_r.
  - unfold tokens_of in *. rewrite flat_map_app, Ht, Ht'. reflexivity.
  - unfold errors_of in *. rewrite flat_map_app, He, He'. reflexivity.
  - apply Forall_app. split; [assumption|]. constructor; [assumption|constructor].
Qed.

Lemma tokenize_loop_covered fuel s s' :
  covered s -> loop fuel (tokenize_step source) s = Some s' ->
  covered s' /\ isAtEnd source s' = true.
Proof.
  apply (@loop_inv _ (tokenize_step source) covered
           (fun x => covered x /\ isAtEnd source x = true)).
  - intros a a' Ha. unfold tokenize_step.
    destruct (isAtEnd source a) eqn:D; cbn [negb]; [discriminate|].
    destruct (scanToken source a) as [s1|] eqn:E; [|discriminate].
    intros H; inversion H; subst; clear H.
    apply isAtEnd_false in D. destruct (nth_error_defined source D) as [c Ec].
    eapply covered_snoc; [exact Ha|]. eapply scanToken_scanned; eassumption.
  - intros a a' Ha. unfold tokenize_step.
    destruct (isAtEnd source a) eqn:D; cbn [negb].
    + intros H; inversion H; subst. auto.
    + destruct (scanToken source a); discriminate.
Qed.

End LexerCovered.



(** * Further properties *)

(** ** The lexer: token kinds and template markers *)

Lemma after_digits_app (w r : jsstring) :
  forallb Lexer.isDigit w = true -> after_digits (w ++ r) = after_digits r.
Proof.
  induction w as [|c w IH]; [reflexivity|]. simpl.
  intros H. apply andb_true_iff in H. destruct H as [Hc Hw].
  rewrite Hc. auto.
Qed.

Lemma after_digits_all (w : jsstring) :
  forallb Lexer.isDigit w = true -> after_digits w = [].
Proof.
  intros H. rewrite <- (app_nil_r w). now rewrite after_digits_app.
Qed.

Lemma is_number_text_integer (first : char) (w : jsstring) :
  Lexer.isDigit first = true -> forallb Lexer.isDigit w = true ->
  is_number_text (first :: w) = true.
Proof.
  intros Hf Hw. unfold is_number_text. rewrite Hf.
  rewrite after_digits_all; [reflexivity|]. simpl. now rewrite Hf.
Qed.

Lemma is_number_text_decimal (first d : char) (w w' : jsstring) :
  Lexer.isDigit first = true -> forallb Lexer.isDigit w = true ->
  Lexer.isDigit d = true -> forallb Lexer.isDigit w' = true ->
  is_number_text ((first :: w) ++ chr "." :: d :: w') = true.
Proof.
  intros Hf Hw Hd Hw'. unfold is_number_text. cbn [app]. rewrite Hf.
  rewrite (app_comm_cons w (chr "." :: d :: w') first).
  rewrite after_digits_app; [|simpl; now rewrite Hf].
  simpl. now rewrite Hd.
Qed.

Lemma loop_S (A : Type) (step : A -> option (LoopStep A)) (n : nat) (a : A) :
  loop (S n) step a
  = match step a with
    | Some (Continue a') => loop n step a'
    | Some (Break a') => Some a'
    | None => None
    end.
Proof. reflexivity. Qed.

Section LexerKinds.

Import Lexer.

Variable source : jsstring.

Lemma keeps_loop step fuel (a a' : State * jsstring) :
  keeps step ->
  loop fuel step a = Some a' ->
  tokens (fst a') = tokens (fst a) /\ inTemplate (fst a') = inTemplate (fst a).
Proof.
  intros H.
  apply (@loop_inv _ step
           (fun x => tokens (fst x) = tokens (fst a)
                     /\ inTemplate (fst x) = inTemplate (fst a))
           (fun x => tokens (fst x) = tokens (fst a)
                     /\ inTemplate (fst x) = inTemplate (fst a))).
  - intros x x' [Ht He] E. destruct (H x x' (or_introl E)). split; congruence.
  - intros x x' [Ht He] E. destruct (H x x' (or_intror E)). split; congruence.
  - split; reflexivity.
Qed.

Ltac keeps_tac :=
  intros [s v] a' [E|E]; cbv beta iota zeta delta
    [string_step digits_step identifier_step lineComment_step blockComment_step
     advance] in E;
  repeat match type of E with
         | context [if ?b then _ else _] => destruct b
         end;
  inversion E; subst; split; reflexivity.

Lemma string_step_keeps quote : keeps (string_step source quote).
Proof. keeps_tac. Qed.
Lemma digits_step_keeps : keeps (digits_step source).
Proof. keeps_tac. Qed.
Lemma identifier_step_keeps : keeps (identifier_step source).
Proof. keeps_tac. Qed.
Lemma lineComment_step_keeps : keeps (lineComment_step source).
Proof. keeps_tac. Qed.
Lemma blockComment_step_keeps : keeps (blockComment_step source).
Proof. keeps_tac. Qed.

Lemma grows_loop p v0 step fuel (a a' : State * jsstring) :
  (forall x x', grows p v0 x ->
     step x = Some (Continue x') \/ step x = Some (Break x') -> grows p v0 x') ->
  grows p v0 a -> loop fuel step a = Some a' -> grows p v0 a'.
Proof.
  intros H. apply (@loop_inv _ step (grows p v0) (grows p v0)); eauto.
Qed.

Lemma grows_snoc p v0 (s s' : State) (v : jsstring) (c : char) :
  grows p v0 (s, v) -> p c = true -> grows p v0 (s', v ++ [c]).
Proof.
  intros [w [Hv Hw]] Hc. exists (w ++ [c]). simpl in *. subst v.
  split; [now rewrite app_assoc|]. rewrite forallb_app, Hw. simpl. now rewrite Hc.
Qed.

(** The character [advance] returns is the one [peek] showed. *)
Lemma advance_peek (s : State) :
  pos s < List.length source ->
  toStr (nth_error source (pos s)) = [peek source s].
Proof.
  intros H. destruct (nth_error_defined source H) as [c Ec].
  rewrite Ec, (peek_nth_error source s Ec). reflexivity.
Qed.

Lemma digits_step_grows v0 x x' :
  grows isDigit v0 x ->
  digits_step source x = Some (Continue x') \/ digits_step source x = Some (Break x') ->
  grows isDigit v0 x'.
Proof.
  destruct x as [s v]. unfold digits_step, advance.
  intros G [E|E]; destruct (isDigit (peek source s)) eqn:D;
    inversion E; subst; clear E; auto.
  rewrite (advance_peek s (isDigit_peek _ _ D)).
  eapply grows_snoc; eassumption.
Qed.

Lemma identifier_step_grows v0 x x' :
  grows isAlphaNumeric v0 x ->
  identifier_step source x = Some (Continue x')
  \/ identifier_step source x = Some (Break x') ->
  grows isAlphaNumeric v0 x'.
Proof.
  destruct x as [s v]. unfold identifier_step, advance.
  intros G [E|E]; destruct (isAlphaNumeric (peek source s)) eqn:D;
    inversion E; subst; clear E; auto.
  rewrite (advance_peek s (isAlphaNumeric_peek _ _ D)).
  eapply grows_snoc; eassumption.
Qed.

Lemma lineComment_step_grows v0 x x' :
  grows (fun c => negb (c =? LF)%N) v0 x ->
  lineComment_step source x = Some (Continue x')
  \/ lineComment_step source x = Some (Break x') ->
  grows (fun c => negb (c =? LF)%N) v0 x'.
Proof.
  destruct x as [s v]. unfold lineComment_step, advance.
  intros G [E|E]; destruct (isAtEnd source s) eqn:D;
    destruct (peek source s =? LF)%N eqn:L;
    inversion E; subst; clear E; auto.
  apply isAtEnd_false in D. rewrite (advance_peek s D).
  eapply grows_snoc; [eassumption|]. cbv beta. now rewrite L.
Qed.

Lemma grows_refl p (s : State) (v : jsstring) : grows p v (s, v).
Proof. exists []. split; [now rewrite app_nil_r|reflexivity]. Qed.

Ltac loop_keeps L :=
  match goal with
  | H : loop _ ?step ?a = Some ?b |- _ =>
      let Ht := fresh "Ht" in
      let Hi := fresh "Hi" in
      destruct (keeps_loop _ a (L : keeps step) H) as [Ht Hi];
      simpl in Ht, Hi
  end.

Lemma string_kind quote s s' : string source quote s = Some s' -> kind_step s s'.
Proof.
  unfold string. destruct (loop _ _ _) as [[s1 v1]|] eqn:E; [|discriminate].
  loop_keeps (string_step_keeps quote).
  destruct (isAtEnd source s1); intros H; inversion H; subst; clear H.
  - left. split; assumption.
  - right. eexists.
    split; [cbn [addToken push_token tokens advance snd set_pos set_column];
            rewrite Ht; reflexivity|].
    split; [reflexivity|]. split; [discriminate|]. exact Hi.
Qed.

(** [peekNext] is what [peek] shows after one [advance]. *)
Lemma peekNext_advance (s : State) :
  peek source (snd (advance source s)) = peekNext source s.
Proof.
  unfold peek, peekNext, isAtEnd, advance. cbn [snd pos set_pos set_column].
  rewrite Nat.add_1_r. reflexivity.
Qed.

Lemma number_kind first s s' :
  isDigit first = true -> number source first s = Some s' -> kind_step s s'.
Proof.
  intros Hf. unfold number.
  destruct (loop _ _ _) as [[s1 v1]|] eqn:E; [|discriminate].
  loop_keeps digits_step_keeps.
  apply (@grows_loop _ _ _ _ _ _ (@digits_step_grows [first]) (grows_refl _ _ _)) in E.
  destruct E as [w [Hv Hw]]. cbn [snd] in Hv. subst v1.
  destruct ((peek source s1 =? chr ".")%N && isDigit (peekNext source s1)) eqn:B.
  - apply andb_true_iff in B. destruct B as [B1 B2].
    apply peek_is in B1; [|discriminate].
    pose proof (peekNext_advance s1) as PN. unfold advance in PN |- *.
    cbv beta iota. cbn [snd] in PN. rewrite B1. cbn [toStr].
    unfold gas at 1. rewrite loop_S. unfold digits_step at 1, advance.
    rewrite PN, B2.
    destruct (loop _ _ _) as [[s2 v2]|] eqn:E2; [|discriminate].
    loop_keeps digits_step_keeps.
    apply (@grows_loop _ _ _ _ _ _ (@digits_step_grows _) (grows_refl _ _ _)) in E2.
    destruct E2 as [w' [Hv' Hw']]. cbn [snd] in Hv'. subst v2.
    assert (Hd : pos s1 + 1 < List.length source).
    { rewrite <- PN in B2. apply isDigit_peek in B2. simpl in B2. lia. }
    rewrite Nat.add_1_r in Hd.
    rewrite (advance_peek (set_pos (S (pos s1)) (set_column (column s1 + 1) s1)) Hd),
      PN.
    intros H; inversion H; subst; clear H.
    right. eexists.
    split; [cbn [addToken push_token tokens]; rewrite Ht0, Ht; reflexivity|].
    split.
    { unfold kind_text. cbn [Token.type Token.value].
      rewrite <- !app_assoc.
      now apply (@is_number_text_decimal first (peekNext source s1) w w'). }
    split; [discriminate|]. cbn. congruence.
  - intros H; inversion H; subst; clear H.
    right. eexists.
    split; [cbn [addToken push_token tokens]; rewrite Ht; reflexivity|].
    split.
    { unfold kind_text. cbn [Token.type Token.value].
      now apply (@is_number_text_integer first w). }
    split; [discriminate|]. exact Hi.
Qed.

Lemma identifier_kind first s s' :
  isAlpha first = true -> identifier source first s = Some s' -> kind_step s s'.
Proof.
  intros Hf. unfold identifier.
  destruct (loop _ _ _) as [[s1 v1]|] eqn:E; [|discriminate].
  loop_keeps identifier_step_keeps.
  apply (@grows_loop _ _ _ _ _ _ (@identifier_step_grows [first]) (grows_refl _ _ _)) in E.
  destruct E as [w [Hv Hw]]. cbn [snd] in Hv.
  assert (W : is_word v1 = true).
  { subst v1. simpl. now rewrite Hf. }
  destruct (jsstring_eqb v1 (str "true") || jsstring_eqb v1 (str "false")) eqn:B;
    [|destruct (jsstring_eqb v1 (str "null")) eqn:N;
      [|destruct (has KEYWORDS v1) eqn:K]];
    intros H; inversion H; subst s'; clear H;
    right; eexists;
    (split; [cbn [addToken push_token tokens]; rewrite Ht; reflexivity|]);
    (split; [unfold kind_text; cbn [Token.type Token.value];
             rewrite ?B, ?N, ?K, ?W; reflexivity|]);
    (split; [discriminate|]); exact Hi.
Qed.

Lemma lineComment_kind s s' : lineComment source s = Some s' -> kind_step s s'.
Proof.
  unfold lineComment, advance; cbv beta iota zeta.
  destruct (loop _ _ _) as [[s1 v1]|] eqn:E; [|discriminate].
  loop_keeps lineComment_step_keeps.
  apply (@grows_loop _ _ _ _ _ _ (@lineComment_step_grows (str "//")) (grows_refl _ _ _)) in E.
  destruct E as [w [Hv Hw]]. cbn [snd] in Hv. subst v1.
  intros H; inversion H; subst; clear H.
  right. eexists.
  split; [cbn [addToken push_token tokens]; rewrite Ht; reflexivity|].
  split; [unfold kind_text, is_comment_text; cbn [Token.type Token.value];
          rewrite Hw; reflexivity|].
  split; [discriminate|]. exact Hi.
Qed.

Lemma blockComment_step_prefix x x' :
  (exists w, snd x = str "/*" ++ w) ->
  blockComment_step source x = Some (Continue x')
  \/ blockComment_step source x = Some (Break x') ->
  exists w, snd x' = str "/*" ++ w.
Proof.
  destruct x as [s v]. intros [w Hw]. cbn [snd] in Hw. subst v.
  unfold blockComment_step, advance.
  intros [E|E];
    repeat match type of E with
           | context [if ?b then _ else _] => destruct b
           end;
    inversion E; subst; clear E; cbn [snd];
    first [ eexists; reflexivity
          | rewrite <- app_assoc; eexists; reflexivity ].
Qed.

Lemma blockComment_kind s s' : blockComment source s = Some s' -> kind_step s s'.
Proof.
  unfold blockComment, advance; cbv beta iota zeta.
  destruct (loop _ _ _) as [[s1 v1]|] eqn:E; [|discriminate].
  loop_keeps blockComment_step_keeps.
  apply (@loop_inv _ (blockComment_step source)
           (fun x => exists w, snd x = str "/*" ++ w)
           (fun x => exists w, snd x = str "/*" ++ w)) in E.
  2:{ intros x x' Hx Ex. eapply blockComment_step_prefix; eauto. }
  2:{ intros x x' Hx Ex. eapply blockComment_step_prefix; eauto. }
  2:{ exists []. reflexivity. }
  destruct E as [w Hv]. cbn [snd] in Hv. subst v1.
  intros H; inversion H; subst; clear H.
  right. eexists.
  split; [cbn [addToken push_token tokens]; rewrite Ht; reflexivity|].
  split; [reflexivity|]. split; [discriminate|]. exact Hi.
Qed.

Lemma scanToken_kind s s' : scanToken source s = Some s' -> kind_step s s'.
Proof.
  unfold scanToken, advance.
  destruct (nth_error source (pos s)) as [c|].
  2:{ intros H; inversion H; subst. left. split; reflexivity. }
  repeat match goal with
         | |- context [if ?b then _ else _] => destruct b eqn:?
         end;
    repeat match goal with
           | H : (c =? _)%N = true |- _ => apply N.eqb_eq in H; subst c
           | H : (_ && _)%bool = true |- _ =>
               apply andb_true_iff in H; destruct H as [? H]
           end;
    intros Hscan;
    try (apply lineComment_kind in Hscan; exact Hscan);
    try (apply blockComment_kind in Hscan; exact Hscan);
    try (apply string_kind in Hscan; exact Hscan);
    try (apply number_kind in Hscan; [exact Hscan|assumption]);
    try (apply identifier_kind in Hscan; [exact Hscan|assumption]);
    inversion Hscan; subst s'; clear Hscan;
    try (left; split; reflexivity);
    right; eexists; (split; [reflexivity|]); (split; [reflexivity|]);
    (split; [discriminate|]); cbn; auto.
Qed.

End LexerKinds.

Lemma template_scan_app (open : bool) (l r : list Token.t) :
  template_scan open (l ++ r)
  = let '(open1, ok1) := template_scan open l in
    let '(open2, ok2) := template_scan open1 r in
    (open2, ok1 && ok2).
Proof.
  revert open. induction l as [|t l IH]; intros open.
  - simpl. destruct (template_scan open r). reflexivity.
  - simpl. destruct (Token.type t); rewrite ?IH;
      repeat match goal with
             | |- context [template_scan ?o ?x] =>
                 is_var x; destruct (template_scan o x)
             end;
      try reflexivity.
    + destruct (template_scan b r). now rewrite andb_assoc.
Qed.

Section LexerKindsLoop.

Import Lexer.

Variable source : jsstring.

Lemma kinds_upto_step s s' : kinds_upto s -> kind_step s s' -> kinds_upto s'.
Proof.
  intros [Hk Ht] [[Et Ei]|(t & Et & K & Ne & Ei)]; unfold kinds_upto; rewrite Et.
  - rewrite Ei. split; assumption.
  - split.
    + apply Forall_app. split; [assumption|]. constructor; [split; assumption|constructor].
    + rewrite template_scan_app, Ht. simpl.
      destruct (Token.type t); try (rewrite Ei; reflexivity).
      destruct Ei as [E1 E2]. rewrite E1, E2. reflexivity.
Qed.

Lemma tokenize_loop_kinds fuel s s' :
  kinds_upto s -> loop fuel (tokenize_step source) s = Some s' -> kinds_upto s'.
Proof.
  apply (@loop_inv _ (tokenize_step source) kinds_upto kinds_upto).
  - intros a a' Ha. unfold tokenize_step.
    destruct (negb _); [|discriminate].
    destruct (scanToken source a) as [s1|] eqn:E; [|discriminate].
    intros H; inversion H; subst; clear H.
    eapply kinds_upto_step; [exact Ha|]. now apply scanToken_kind with (source := source).
  - intros a a' Ha. unfold tokenize_step.
    destruct (negb _); [destruct (scanToken source a); discriminate|].
    intros H; inversion H; subst; assumption.
Qed.

Lemma tokenize_kinds :
  exists s,
    tokenize source
    = Some (tokens s ++ [Token.mk EOF [] (line s) (column s - 0) 0], errors s)
    /\ kinds_upto s.
Proof.
  destruct (tokenize_shape source) as (s & L & E).
  exists s. split; [exact E|].
  eapply tokenize_loop_kinds; [|exact L]. split; [constructor|reflexivity].
Qed.

End LexerKindsLoop.

Lemma tokens_have_kind_text (source : jsstring) :
  exists tokens errors,
    Lexer.tokenize source = Some (tokens, errors)
    /\ Forall (fun t => kind_text t = true) tokens.
Proof.
  destruct (tokenize_kinds source) as (s & E & [Hk _]).
  eexists _, _. split; [exact E|].
  apply Forall_app. split.
  - eapply Forall_impl; [|exact Hk]. intros t [H _]. exact H.
  - constructor; [reflexivity|constructor].
Qed.

(** X1. For every input, each token the lexer returns has the text of its
    kind: a punctuation or operator token its own spelling; [BOOLEAN] one of
    [true] and [false]; [NULL] the word [null]; [KEYWORD] a reserved word
    other than those three; [IDENTIFIER] a letter or underscore followed by
    letters, digits and underscores, and not a reserved word; [NUMBER]
    digits, optionally followed by a point and more digits; [COMMENT] two
    slashes and no line break after them, or a slash and a star and what
    follows; [NEWLINE] one line feed; [EOF] the empty text.  No token has
    kind [TEMPLATE_TEXT] or [ERROR]. *)
Theorem token_text_of_kind (source : jsstring) :
  exists tokens errors,
    Lexer.tokenize source = Some (tokens, errors)
    /\ Forall (fun t => kind_text t = true) tokens.
Proof.
  destruct (tokenize_kinds source) as (s & E & [Hk _]).
  exists (Lexer.tokens s ++ [Token.mk EOF [] (Lexer.line s) (Lexer.column s - 0) 0]),
    (Lexer.errors s).
  split; [exact E|].
  apply Forall_app. split.
  - eapply Forall_impl; [|exact Hk]. intros t [H _]. exact H.
  - constructor; [reflexivity|constructor].
Qed.

(** X2. The end-of-input token comes once: no token before the last one has
    kind [EOF]. *)
Theorem EOF_only_last (source : jsstring) :
  exists tokens eof errors,
    Lexer.tokenize source = Some (tokens ++ [eof], errors)
    /\ Token.type eof = EOF
    /\ Forall (fun t => Token.type t <> EOF) tokens.
Proof.
  destruct (tokenize_kinds source) as (s & E & [Hk _]).
  eexists _, _, _. split; [exact E|]. split; [reflexivity|].
  eapply Forall_impl; [|exact Hk]. intros t [_ H]. exact H.
Qed.

(** X3. Template markers are matched on one side: reading the tokens from
    left to right, every [TEMPLATE_END] comes after a [TEMPLATE_START] that
    no [TEMPLATE_END] has closed yet.  (Closing braces outside a template
    lex as [RBRACE] tokens.) *)
Theorem template_ends_are_matched (source : jsstring) :
  exists tokens errors,
    Lexer.tokenize source = Some (tokens, errors)
    /\ template_ends_matched tokens = true.
Proof.
  destruct (tokenize_kinds source) as (s & E & [_ Ht]).
  eexists _, _. split; [exact E|].
  unfold template_ends_matched. rewrite template_scan_app, Ht. reflexivity.
Qed.

(** ** The lexer: words and numbers *)

Lemma skipn_cons (A : Type) (l : list A) (n : nat) (c : A) (r : list A) :
  skipn n l = c :: r -> nth_error l n = Some c /\ skipn (S n) l = r.
Proof.
  revert l. induction n as [|n IH]; intros l H.
  - destruct l; inversion H; subst. split; reflexivity.
  - destruct l as [|x l]; [discriminate|]. simpl in H. apply IH in H.
    exact H.
Qed.

Lemma skipn_length_le (A : Type) (l : list A) (n : nat) (w r : list A) :
  skipn n l = w ++ r -> List.length w <= List.length l.
Proof.
  intros H. assert (L := length_skipn n l). rewrite H, length_app in L. lia.
Qed.

Section LexerWords.

Import Lexer.

Variable source : jsstring.

Lemma peek_skipn (s : State) : peek source s = hd NUL (skipn (pos s) source).
Proof.
  unfold peek, isAtEnd. destruct (_ <=? _)%nat eqn:E.
  - apply Nat.leb_le in E. now rewrite skipn_all2.
  - apply Nat.leb_gt in E. destruct (nth_error_defined source E) as [c Ec].
    rewrite (nth_error_nth _ _ _ Ec).
    destruct (skipn (pos s) source) as [|c' r] eqn:K.
    + assert (L := length_skipn (pos s) source). rewrite K in L. simpl in L. lia.
    + apply skipn_cons in K. destruct K as [K _]. simpl. congruence.
Qed.

Lemma peekNext_skipn (s : State) :
  peekNext source s = hd NUL (skipn (S (pos s)) source).
Proof.
  rewrite <- (peekNext_advance source s). rewrite peek_skipn. reflexivity.
Qed.

Section While.

Variable p : char -> bool.
Variable step : State * jsstring -> option (LoopStep (State * jsstring)).
Hypothesis step_eq :
  forall s v,
    step (s, v)
    = if p (peek source s)
      then let '(c, s') := advance source s in Some (Continue (s', v ++ toStr c))
      else Some (Break (s, v)).

(** A loop that gathers characters while [p] holds gathers exactly the
    longest stretch of such characters. *)
Lemma while_run (w : jsstring) :
  forall (s : State) (v rest : jsstring) (fuel : nat),
    skipn (pos s) source = w ++ rest ->
    forallb p w = true -> p (hd NUL rest) = false ->
    List.length w < fuel ->
    loop fuel step (s, v)
    = Some (mkState (pos s + List.length w) (line s) (column s + len w)
              (tokens s) (errors s) (inTemplate s), v ++ w).
Proof.
  induction w as [|c w IH]; intros s v rest fuel Hs Hw Hr Hf;
    (destruct fuel as [|fuel]; [simpl in Hf; lia|]);
    rewrite loop_S, step_eq, peek_skipn, Hs.
  - simpl hd. rewrite Hr. destruct s. cbn [pos line column tokens errors inTemplate].
    rewrite Nat.add_0_r, app_nil_r. unfold len. simpl. rewrite Z.add_0_r.
    reflexivity.
  - simpl in Hw. apply andb_true_iff in Hw. destruct Hw as [Hc Hw].
    simpl hd. rewrite Hc. simpl in Hs. apply skipn_cons in Hs.
    destruct Hs as [Hn Hs]. unfold advance. rewrite Hn. cbn [toStr].
    rewrite (IH _ _ rest); [|exact Hs|exact Hw|exact Hr|simpl in Hf; lia].
    cbn [pos line column tokens errors inTemplate set_pos set_column].
    rewrite <- app_assoc. cbn [app]. rewrite len_cons.
    f_equal. f_equal. f_equal; [simpl; lia|lia].
Qed.

End While.

Lemma fits_gas (s : State) (w rest : jsstring) :
  skipn (pos s) source = w ++ rest -> List.length w < gas source.
Proof. intros H. apply skipn_length_le in H. unfold gas. lia. Qed.

Lemma identifier_run (first : char) (s : State) (w rest : jsstring) :
  skipn (pos s) source = w ++ rest ->
  forallb isAlphaNumeric w = true -> isAlphaNumeric (hd NUL rest) = false ->
  identifier source first s
  = Some (addToken (word_kind (first :: w)) (first :: w)
            (mkState (pos s + List.length w) (line s) (column s + len w)
               (tokens s) (errors s) (inTemplate s))).
Proof.
  intros Hs Hw Hr. unfold identifier.
  rewrite (@while_run isAlphaNumeric (identifier_step source)
             (fun _ _ => eq_refl) w s [first] rest (gas source) Hs Hw Hr
             (fits_gas _ _ _ Hs)).
  cbn [app]. unfold word_kind.
  repeat match goal with |- context [if ?b then _ else _] => destruct b end;
    reflexivity.
Qed.

Lemma digits_run (s : State) (v w rest : jsstring) :
  skipn (pos s) source = w ++ rest ->
  forallb isDigit w = true -> isDigit (hd NUL rest) = false ->
  loop (gas source) (digits_step source) (s, v)
  = Some (mkState (pos s + List.length w) (line s) (column s + len w)
            (tokens s) (errors s) (inTemplate s), v ++ w).
Proof.
  intros Hs Hw Hr.
  exact (@while_run isDigit (digits_step source) (fun _ _ => eq_refl) w s v rest
           (gas source) Hs Hw Hr (fits_gas _ _ _ Hs)).
Qed.

End LexerWords.

Lemma skipn_past (A : Type) (l : list A) (n : nat) (w r : list A) :
  skipn n l = w ++ r -> skipn (n + List.length w) l = r.
Proof.
  intros H. rewrite Nat.add_comm, <- skipn_skipn, H.
  rewrite skipn_app, skipn_all, Nat.sub_diag. reflexivity.
Qed.

Lemma skipn_S_tl (A : Type) (l : list A) (n : nat) :
  skipn (S n) l = tl (skipn n l).
Proof.
  revert l. induction n as [|n IH]; intros l.
  - destruct l; reflexivity.
  - destruct l as [|x l]; [reflexivity|]. exact (IH l).
Qed.

Lemma isAlpha_not_isDigit (c : char) :
  Lexer.isAlpha c = true -> Lexer.isDigit c = false.
Proof.
  unfold Lexer.isAlpha, Lexer.isDigit, chr. simpl N_of_ascii. intros H.
  apply not_true_is_false. intros D.
  rewrite !orb_true_iff, !andb_true_iff, !N.leb_le, N.eqb_eq in H.
  rewrite andb_true_iff, !N.leb_le in D. lia.
Qed.

Section LexerLexemes.

Import Lexer.

Variable source : jsstring.

Ltac not_this_char c Hf :=
  repeat match goal with
         | |- context [(c =? ?k)%N] =>
             let E := fresh "E" in
             destruct (N.eqb_spec c k) as [E|_];
             [rewrite E in Hf; vm_compute in Hf; discriminate|]
         end.

Lemma scanToken_alpha (s : State) (c : char) :
  nth_error source (pos s) = Some c -> isAlpha c = true ->
  scanToken source s = identifier source c (snd (advance source s)).
Proof.
  intros Hn Hf. pose proof (isAlpha_not_isDigit _ Hf) as Hd.
  unfold scanToken, advance. rewrite Hn. cbn [snd].
  not_this_char c Hf. cbn [orb]. rewrite Hd, Hf. reflexivity.
Qed.

Lemma scanToken_digit (s : State) (c : char) :
  nth_error source (pos s) = Some c -> isDigit c = true ->
  scanToken source s = number source c (snd (advance source s)).
Proof.
  intros Hn Hf. unfold scanToken, advance. rewrite Hn. cbn [snd].
  not_this_char c Hf. cbn [orb]. rewrite Hf. reflexivity.
Qed.

End LexerLexemes.



Lemma is_digits_cons (w : jsstring) :
  is_digits w = true ->
  exists c w', w = c :: w' /\ Lexer.isDigit c = true
               /\ forallb Lexer.isDigit w' = true.
Proof.
  destruct w as [|c w]; [discriminate|]. simpl. intros H.
  apply andb_true_iff in H. destruct H. eauto.
Qed.





(** ** The parser: what is recorded in the error list *)

Section ParserQuiet.

Import Parser.
Local Open Scope parser_scope.

Variable tokens : list Token.t.
Local Abbreviation quiet := (@quiet tokens _).

Lemma quiet_ret (A : Type) (a : A) : quiet (ret a).
Proof. intros s. reflexivity. Qed.

Lemma quiet_bind (A B : Type) (m : M A) (k : A -> M B) :
  quiet m -> (forall a, quiet (k a)) -> quiet (bind m k).
Proof.
  intros Hm Hk s. unfold bind. specialize (Hm s).
  destruct (m s) as [a s1|[e|] s1|]; auto.
  specialize (Hk a s1). destruct (k a s1) as [b s2|[e|] s2|]; auto.
  - congruence.
  - destruct Hk as [H1 H2]. split; congruence.
Qed.

Lemma quiet_peek : quiet (peek tokens).
Proof. intros s. reflexivity. Qed.

Lemma quiet_previous : quiet (previous tokens).
Proof. intros s. reflexivity. Qed.

Lemma quiet_typeOf (x : option Token.t) : quiet (typeOf x).
Proof. intros s. destruct x; simpl; auto. Qed.

Lemma quiet_valueOf (x : option Token.t) : quiet (valueOf x).
Proof. intros s. destruct x; simpl; auto. Qed.

Lemma quiet_isAtEnd : quiet (isAtEnd tokens).
Proof.
  unfold isAtEnd. apply quiet_bind; [apply quiet_peek|]. intros t.
  apply quiet_bind; [apply quiet_typeOf|]. intros ty. apply quiet_ret.
Qed.

Lemma quiet_advance : quiet (advance tokens).
Proof.
  unfold advance. apply quiet_bind; [apply quiet_isAtEnd|]. intros e.
  apply quiet_bind; [|intros _; apply quiet_previous].
  destruct e; intros s; reflexivity.
Qed.

Lemma quiet_check (type : TokenType) : quiet (check tokens type).
Proof.
  unfold check. apply quiet_bind; [apply quiet_isAtEnd|]. intros e.
  destruct e; [apply quiet_ret|].
  apply quiet_bind; [apply quiet_peek|]. intros t.
  apply quiet_bind; [apply quiet_typeOf|]. intros ty. apply quiet_ret.
Qed.

Lemma quiet_match (types : list TokenType) : quiet (match_ tokens types).
Proof.
  induction types as [|type types IH]; simpl; [apply quiet_ret|].
  apply quiet_bind; [apply quiet_check|]. intros c. destruct c; [|exact IH].
  apply quiet_bind; [apply quiet_advance|]. intros _. apply quiet_ret.
Qed.

Lemma quiet_orM (a b : M bool) : quiet a -> quiet b -> quiet (orM a b).
Proof.
  intros Ha Hb. unfold orM. apply quiet_bind; [exact Ha|].
  intros x. destruct x; [apply quiet_ret|exact Hb].
Qed.

(** [throw this.error(this.peek(), message)] *)
Lemma quiet_fail (A : Type) (message : jsstring) :
  quiet (t <- peek tokens ;; e <- error t message ;; @throw A (EParseError e)).
Proof.
  intros s. unfold bind, peek, error, throw.
  destruct (nth_error tokens (pos s)) as [t|] eqn:E; simpl; auto.
Qed.

Lemma quiet_expect (type : TokenType) (message : string) :
  quiet (expect tokens type message).
Proof.
  unfold expect. apply quiet_bind; [apply quiet_check|]. intros c.
  destruct c; [apply quiet_advance|apply quiet_fail].
Qed.

Lemma quiet_loopM (A : Type) (step : A -> M (LoopStep A)) (fuel : nat) :
  (forall a, quiet (step a)) -> forall a, quiet (loopM fuel step a).
Proof.
  intros Hstep. induction fuel as [|fuel IH]; intros a.
  - intros s. exact I.
  - simpl. apply quiet_bind; [apply Hstep|]. intros r.
    destruct r; [apply IH|apply quiet_ret].
Qed.

End ParserQuiet.

Ltac quiet_step :=
  first
    [ assumption
    | apply quiet_ret
    | apply quiet_fail
    | apply quiet_expect
    | apply quiet_match
    | apply quiet_check
    | apply quiet_advance
    | apply quiet_isAtEnd
    | apply quiet_peek
    | apply quiet_previous
    | apply quiet_typeOf
    | apply quiet_valueOf
    | apply quiet_orM
    | apply quiet_loopM; intros ?
    | apply quiet_bind; [|intros ?]
    | match goal with
      | |- quiet _ (if ?b then _ else _) => destruct b
      | H : forall _, quiet _ _ |- _ => apply H
      end ].

Ltac quiet_all := repeat quiet_step.

Section ParserQuietExpressions.

Import Parser.
Local Open Scope parser_scope.

Variable tokens : list Token.t.
Variable parseExpression : M ExpressionNode.
Variable fuel : nat.
Hypothesis HparseExpression : quiet tokens parseExpression.

Lemma parsePrimary_quiet : quiet tokens (parsePrimary tokens parseExpression fuel).
Proof.
  unfold parsePrimary, expressions_step, properties_step. quiet_all.
Qed.

Lemma parseCall_quiet : quiet tokens (parseCall tokens parseExpression fuel).
Proof.
  pose proof parsePrimary_quiet.
  unfold parseCall, parseCall_step, expressions_step. quiet_all.
Qed.

Lemma parseUnary_quiet (depth : nat) :
  quiet tokens (parseUnary tokens parseExpression fuel depth).
Proof.
  pose proof parseCall_quiet.
  induction depth as [|depth IH]; [intros s; exact I|].
  simpl. quiet_all.
Qed.

Lemma parsePipe_quiet : quiet tokens (parsePipe tokens parseExpression fuel).
Proof.
  pose proof (parseUnary_quiet fuel).
  unfold parsePipe, parsePipe_step, parseOr, parseOr_step, parseAnd,
    parseAnd_step, parseEquality, parseEquality_step, parseComparison,
    parseTerm, parseTerm_step, parseFactor, parseFactor_step.
  quiet_all.
Qed.

End ParserQuietExpressions.

Lemma parseExpression_quiet (tokens : list Token.t) (fuel : nat) :
  quiet tokens (Parser.parseExpression tokens fuel).
Proof.
  induction fuel as [|fuel IH]; [intros s; exact I|].
  simpl. now apply parsePipe_quiet.
Qed.

Section ParserQuietStatements.

Import Parser.
Local Open Scope parser_scope.

Variable tokens : list Token.t.
Variable parseStatement : M StatementNode.
Variable fuel : nat.
Hypothesis HparseStatement : quiet tokens parseStatement.

Lemma parseStatement__quiet :
  quiet tokens (parseStatement_ tokens parseStatement fuel).
Proof.
  pose proof (parseExpression_quiet tokens fuel).
  unfold parseStatement_, parseVariableDeclaration, parseFunctionDeclaration,
    parseReturnStatement, parseIfStatement, parseForStatement,
    parseImportStatement, parseExportStatement, parseTemplateStatement,
    parseExpressionStatement, block_step, names_step, template_step.
  quiet_all.
Qed.

End ParserQuietStatements.

Lemma parseStatement_quiet (tokens : list Token.t) (fuel : nat) :
  quiet tokens (Parser.parseStatement tokens fuel).
Proof.
  induction fuel as [|fuel IH]; [intros s; exact I|].
  simpl. now apply parseStatement__quiet.
Qed.

Section ParserErrorOrder.

Import Parser.
Local Open Scope parser_scope.

Variable tokens : list Token.t.
Local Abbreviation at_end := (at_end tokens).
Local Abbreviation errors_upto := (errors_upto tokens).
Hypothesis Hlast :
  forall i t, nth_error tokens i = Some t -> Token.type t <> EOF ->
              S i < List.length tokens.

(** At the end of the input [synchronize] does nothing. *)
Lemma synchronize_at_end (fuel : nat) (s : State) :
  at_end s -> synchronize tokens (S fuel) s = Ok tt s.
Proof.
  intros (t & Ht & E). unfold synchronize, bind.
  rewrite (@advance_eq _ _ _ Ht). rewrite E. cbn [TokenType_eqb].
  unfold TokenType_eqb. destruct (TokenType_eq_dec EOF EOF); [|contradiction].
  unfold previous at 1. cbn [loopM]. unfold bind, synchronize_step, bind.
  rewrite (@isAtEnd_eq _ _ _ Ht). rewrite E. unfold TokenType_eqb.
  destruct (TokenType_eq_dec EOF EOF); [|contradiction]. reflexivity.
Qed.

Lemma reported_at_snoc positions errs (p : nat) (e : ParseError.t) :
  reported_at tokens positions errs ->
  nth_error tokens p = Some (ParseError.token e) ->
  reported_at tokens (positions ++ [p]) (errs ++ [e]).
Proof.
  intros H Hp. apply Forall2_app; [exact H|]. constructor; [exact Hp|constructor].
Qed.

(** One iteration of the statement loop adds at most one error, on a token
    at or after the one the statement began with and before the one the
    next statement begins with. *)
Lemma parse_step_errors (fuel : nat) (body : list StatementNode) (s : State) :
  valid tokens s -> List.length tokens - pos s <= S fuel -> errors_upto s ->
  exists r s',
    parse_step tokens (S fuel) body s = Ok r s'
    /\ valid tokens s' /\ errors_upto s'
    /\ match r with
       | Continue _ => pos s < pos s'
       | Break _ => s' = s
       end.
Proof.
  intros Hv Hn (positions & Hr & Hs & Hb).
  destruct (@valid_current _ _ Hv) as [t Ht].
  unfold parse_step, bind at 1. rewrite (@isAtEnd_eq _ _ _ Ht).
  destruct (TokenType_eqb (Token.type t) EOF) eqn:E; cbn [negb].
  { eexists _, _. split; [reflexivity|]. split; [assumption|].
    split; [exists positions; auto|reflexivity]. }
  assert (Hne : ~ at_end s).
  { intros (t' & Ht' & E'). rewrite Ht in Ht'. inversion Ht'; subst t'.
    rewrite E' in E. unfold TokenType_eqb in E.
    destruct (TokenType_eq_dec EOF EOF); [discriminate|contradiction]. }
  destruct Hb as [Hb|Hb]; [contradiction|].
  unfold tryCatch, bind.
  pose proof (@parseStatement_safe tokens Hlast (S fuel) s Hv Hn) as G.
  pose proof (@parseStatement_quiet tokens (S fuel) s) as Q.
  destruct (parseStatement tokens (S fuel) s) as [stmt s1|[e|] s1|]; simpl in G;
    try contradiction.
  - destruct G as (Hv1 & Hp1 & _). eexists _, _. split; [reflexivity|].
    split; [assumption|]. split; [|assumption].
    exists positions. rewrite Q. split; [assumption|]. split; [assumption|].
    right. eapply Forall_impl; [|exact Hb]. intros p Hp. simpl in Hp. lia.
  - destruct G as (Hv1 & Hp1 & _). destruct Q as [Qe Qt].
    destruct (@synchronize_ok tokens Hlast (S fuel) s1 Hv1)
      as (s2 & E2 & He2 & Hv2 & Hp2 & Hq2 & _).
    { lia. }
    assert (Hsorted : StronglySorted lt (positions ++ [pos s1])).
    { apply StronglySorted_snoc; [assumption|].
      eapply Forall_impl; [|exact Hb]. intros p Hp. simpl in Hp. lia. }
    destruct Hq2 as [Hend|Hlt].
    + rewrite (synchronize_at_end fuel Hend). eexists _, _.
      split; [reflexivity|]. split; [assumption|]. split.
      * exists (positions ++ [pos s1]). rewrite Qe.
        split; [now apply reported_at_snoc|]. split; [assumption|]. now left.
      * destruct Hend as (t1 & Ht1 & E1).
        assert (pos s <> pos s1).
        { intros C. rewrite <- C in Ht1. rewrite Ht in Ht1. inversion Ht1; subst.
          rewrite E1 in E. discriminate. }
        lia.
    + rewrite E2. eexists _, _. split; [reflexivity|]. split; [assumption|].
      split; [|lia].
      exists (positions ++ [pos s1]). rewrite He2, Qe.
      split; [now apply reported_at_snoc|]. split; [assumption|]. right.
      apply Forall_app. split.
      * eapply Forall_impl; [|exact Hb]. intros p Hp. simpl in Hp. lia.
      * constructor; [assumption|constructor].
Qed.

Lemma parse_loop_errors (fuel : nat) :
  forall n body s,
    valid tokens s -> List.length tokens - pos s <= n ->
    List.length tokens - pos s <= S fuel -> errors_upto s ->
    exists body' s',
      loopM n (parse_step tokens (S fuel)) body s = Ok body' s'
      /\ errors_upto s' /\ at_end s'.
Proof.
  induction n as [|n IH]; intros body s Hv Hn Hf Hb.
  - unfold valid in Hv. lia.
  - cbn [loopM]. unfold bind at 1.
    destruct (@parse_step_errors fuel body s Hv Hf Hb)
      as (r & s' & E & Hv' & Hb' & Hr).
    pose proof E as E0. rewrite E.
    destruct r as [body'|body'].
    + apply IH; auto; unfold valid in *; lia.
    + subst s'. eexists _, _. split; [reflexivity|]. split; [assumption|].
      destruct (@valid_current _ _ Hv) as [t Ht].
      unfold parse_step, bind at 1 in E0. rewrite (@isAtEnd_eq _ _ _ Ht) in E0.
      destruct (TokenType_eqb (Token.type t) EOF) eqn:Et; cbn [negb] in E0.
      * exists t. split; [assumption|now apply TokenType_eqb_eq].
      * exfalso. unfold tryCatch, bind in E0.
        destruct (parseStatement tokens (S fuel) s) as [x s1|x s1|];
          [discriminate| |discriminate].
        destruct (synchronize tokens (S fuel) s1) as [[] s2|x2 s2|]; discriminate.
Qed.

End ParserErrorOrder.

(** [parse] returns, with its errors on tokens at increasing positions. *)
Lemma parse_reported (tokens : list Token.t) (eof : Token.t) :
  Token.type eof = EOF ->
  exists body errors s positions,
    Parser.parse (tokens ++ [eof]) = Parser.Ok (Program body, errors) s
    /\ reported_at (Parser.new (tokens ++ [eof])) positions errors
    /\ StronglySorted lt positions.
Proof.
  intros He. unfold Parser.parse. cbv zeta. rewrite (@new_snoc tokens eof He).
  set (toks := Parser.new tokens ++ [eof]).
  assert (Hlast := @last_EOF (Parser.new tokens) eof He). fold toks in Hlast.
  assert (Hv : valid toks Parser.init).
  { unfold valid, toks. rewrite length_app. simpl. lia. }
  destruct (@parse_loop_errors toks Hlast (List.length toks)
              (S (List.length toks)) [] Parser.init Hv)
    as (body & s & E & (positions & Hr & Hs & _) & _).
  - simpl. lia.
  - simpl. lia.
  - exists []. split; [constructor|]. split; [constructor|]. right. constructor.
  - unfold Parser.parse_, Parser.bind. rewrite E. unfold Parser.ret.
    eexists _, _, _, positions. split; [reflexivity|]. split; assumption.
Qed.


(** X7. Syntax errors are reported in token order, each on a token of its
    own.  For every token sequence that ends with the end-of-input token,
    [Parser.parse] returns, and there are strictly increasing positions in
    the parser's token list (the tokens without comments and newlines), as
    many as there are errors, such that each error carries the token at its
    position.  So every reported token is a token of the input, no token is
    reported twice, and there are no more errors than tokens. *)
Theorem parse_errors_in_token_order (tokens : list Token.t) (eof : Token.t) :
  Token.type eof = EOF ->
  exists body errors s positions,
    Parser.parse (tokens ++ [eof]) = Parser.Ok (Program body, errors) s
    /\ reported_at (Parser.new (tokens ++ [eof])) positions errors
    /\ StronglySorted lt positions.
Proof.
  intros He.
  destruct (@parse_reported tokens eof He)
    as (body & errors & s & positions & E & R & S).
  exists body, errors, s, positions. split; [exact E|]. split; assumption.
Qed.

Lemma parse_errors_in_token_order_witness :
  exists body errors s positions,
    Parser.parse
      ([Token.mk KEYWORD (str "let") 1 1 3; Token.mk SEMICOLON (str ";") 1 5 1;
        Token.mk RPAREN (str ")") 1 7 1] ++ [Token.mk EOF [] 1 8 0])
    = Parser.Ok (Program body, errors) s
    /\ reported_at
         (Parser.new
            ([Token.mk KEYWORD (str "let") 1 1 3; Token.mk SEMICOLON (str ";") 1 5 1;
              Token.mk RPAREN (str ")") 1 7 1] ++ [Token.mk EOF [] 1 8 0]))
         positions errors
    /\ StronglySorted lt positions.
Proof.
  apply (@parse_errors_in_token_order
           [Token.mk KEYWORD (str "let") 1 1 3; Token.mk SEMICOLON (str ";") 1 5 1;
            Token.mk RPAREN (str ")") 1 7 1] (Token.mk EOF [] 1 8 0)).
  reflexivity.
Defined.

(** ** The parser: where statements and expressions can start *)

Ltac no_start H :=
  repeat match goal with
         | |- context [checkb ?ty ?t] =>
             let C := fresh "C" in
             assert (C : checkb ty t = false)
               by (unfold checkb, TokenType_eqb;
                   destruct (Token.type t); (discriminate H || reflexivity));
             rewrite C; clear C
         end.

Section ParserStarts.

Import Parser.
Local Open Scope parser_scope.

Variable tokens : list Token.t.
Variable s : State.
Variable t : Token.t.
Hypothesis Ht : nth_error tokens (pos s) = Some t.

Lemma parsePrimary_fails (parseExpression : M ExpressionNode) (fuel : nat) :
  starts_expression (Token.type t) = false ->
  parsePrimary tokens parseExpression fuel s
  = thrown ExpressionNode "Expected expression" t s.
Proof.
  intros H. unfold parsePrimary, bind.
  repeat (rewrite (@match1_eq _ _ _ Ht); no_start H; cbv iota).
  rewrite (@peek_eq _ _ _ Ht). reflexivity.
Qed.

Lemma parseUnary_fails (parseExpression : M ExpressionNode) (fuel depth : nat) :
  starts_expression (Token.type t) = false ->
  parseUnary tokens parseExpression fuel (S depth) s
  = thrown ExpressionNode "Expected expression" t s.
Proof.
  intros H. cbn [parseUnary]. unfold bind at 1.
  rewrite (@match2_eq _ _ _ Ht). no_start H. cbn [orb]. cbv iota.
  unfold parseCall, bind. now rewrite parsePrimary_fails.
Qed.

Lemma parseExpression_fails (fuel : nat) :
  starts_expression (Token.type t) = false ->
  parseExpression tokens (S fuel) s
  = thrown ExpressionNode "Expected expression" t s.
Proof.
  intros H. cbn [parseExpression].
  unfold parsePipe, parseOr, parseAnd, parseEquality, parseComparison,
    parseTerm, parseFactor, bind.
  now rewrite parseUnary_fails.
Qed.

End ParserStarts.

(** X8. A statement starts with one of the keywords [let], [const], [fn],
    [return], [if], [for], [import], [export], [template], or with a token
    an expression can start with (a literal, an identifier, an opening
    bracket, brace or parenthesis, [!] or [-]).  On any other current token
    -- the keywords [else], [while], [from], [as], [content], [site],
    [and], [or], [not], a closing bracket, a binary operator, the
    end-of-input token -- [parseStatement] consumes nothing, records the
    error [Expected expression] on that token and throws it. *)
Theorem parseStatement_needs_start (tokens : list Token.t) (fuel : nat)
    (s : Parser.State) (t : Token.t) :
  nth_error tokens (Parser.pos s) = Some t ->
  starts_statement t = false ->
  Parser.parseStatement tokens (S fuel) s
  = thrown StatementNode "Expected expression" t s.
Proof.
  intros Ht H. cbn [Parser.parseStatement].
  unfold Parser.parseStatement_, Parser.bind at 1 2.
  rewrite (@peek_eq _ _ _ Ht). cbn [Parser.typeOf Parser.ret].
  unfold starts_statement in H.
  assert (E : Parser.parseExpressionStatement tokens (S fuel) s
              = thrown StatementNode "Expected expression" t s).
  { unfold Parser.parseExpressionStatement, Parser.bind.
    rewrite (@parseExpression_fails tokens s t Ht fuel); [reflexivity|].
    destruct (Token.type t); try exact H; reflexivity. }
  destruct (TokenType_eqb (Token.type t) KEYWORD) eqn:K; [|exact E].
  apply TokenType_eqb_eq in K. rewrite K in H.
  unfold Parser.bind. cbn [Parser.valueOf Parser.ret].
  unfold Parser.includes in H. cbn [map existsb] in H.
  repeat match type of H with
         | (_ || _)%bool = false =>
             let H1 := fresh "H" in
             apply orb_false_iff in H; destruct H as [H1 H]
         end.
  repeat match goal with
         | H1 : jsstring_eqb _ _ = false |- _ => rewrite H1; clear H1
         end.
  exact E.
Qed.

Lemma parseStatement_needs_start_witness :
  Parser.parseStatement
    [Token.mk KEYWORD (str "while") 1 1 5; Token.mk EOF [] 1 6 0] 1 Parser.init
  = thrown StatementNode "Expected expression"
      (Token.mk KEYWORD (str "while") 1 1 5) Parser.init.
Proof.
  apply (@parseStatement_needs_start
           [Token.mk KEYWORD (str "while") 1 1 5; Token.mk EOF [] 1 6 0] 0
           Parser.init (Token.mk KEYWORD (str "while") 1 1 5));
    reflexivity.
Defined.

(** ** The parser: [for] statements *)

Ltac eval_jsstring_eqb :=
  repeat match goal with
         | |- context [jsstring_eqb (str ?a) (str ?b)] =>
             let r := eval vm_compute in (jsstring_eqb (str a) (str b)) in
             change (jsstring_eqb (str a) (str b)) with r
         end.

(** After [for] and the loop variable, [parseForStatement] asks for a token
    of kind [KEYWORD], whatever its text. *)
Lemma parseForStatement_needs_keyword (tokens : list Token.t) (fuel : nat)
    (s : Parser.State) (kw x t : Token.t) :
  nth_error tokens (Parser.pos s) = Some kw ->
  Token.type kw = KEYWORD -> Token.value kw = str "for" ->
  nth_error tokens (S (Parser.pos s)) = Some x ->
  Token.type x = IDENTIFIER ->
  nth_error tokens (S (S (Parser.pos s))) = Some t ->
  Token.type t <> KEYWORD ->
  Parser.parseStatement tokens (S fuel) s
  = thrown StatementNode "Expected 'in'" t (next (next s)).
Proof.
  intros Hkw Tkw Vkw Hx Tx Ht Tt. cbn [Parser.parseStatement].
  unfold Parser.parseStatement_, Parser.bind at 1 2.
  rewrite (@peek_eq _ _ _ Hkw). cbn [Parser.typeOf Parser.valueOf Parser.ret].
  rewrite Tkw. unfold Parser.bind at 1. rewrite Vkw.
  change (TokenType_eqb KEYWORD KEYWORD) with true. cbv iota.
  unfold Parser.ret at 1. cbv beta iota.
  eval_jsstring_eqb. cbn [orb]. cbv iota.
  unfold Parser.parseForStatement, Parser.bind.
  rewrite (@advance_eq _ _ _ Hkw), Tkw.
  change (TokenType_eqb KEYWORD EOF) with false. cbv iota.
  rewrite (@expect_eq _ (next s) x Hx).
  unfold checkb at 1. rewrite Tx.
  change (TokenType_eqb IDENTIFIER EOF) with false.
  change (TokenType_eqb IDENTIFIER IDENTIFIER) with true. cbv iota.
  cbn [Parser.valueOf Parser.ret].
  rewrite (@expect_eq _ (next (next s)) t Ht).
  assert (C : checkb KEYWORD t = false).
  { unfold checkb, TokenType_eqb.
    destruct (TokenType_eq_dec (Token.type t) EOF); [reflexivity|].
    destruct (TokenType_eq_dec (Token.type t) KEYWORD); [contradiction|reflexivity]. }
  rewrite C. reflexivity.
Qed.

Lemma Forall_nth_error (A : Type) (P : A -> Prop) (l : list A) (i : nat) (x : A) :
  Forall P l -> nth_error l i = Some x -> P x.
Proof.
  intros H E. rewrite Forall_forall in H. apply H. eapply nth_error_In. exact E.
Qed.

(** X9. The word [in] is not among the lexer's reserved words, so it lexes
    as an identifier, while [parseForStatement] asks for a [KEYWORD] token
    after the loop variable.  Hence, in the tokens of any source text, a
    [for] followed by an identifier and a token with the text [in] never
    parses: [parseStatement] records the error [Expected 'in'] on that very
    token and throws it, having consumed [for] and the variable. *)
Theorem for_in_is_rejected (source : jsstring) (tokens : list Token.t)
    (errors : list LexerError.t) (fuel : nat) (s : Parser.State)
    (kw x t : Token.t) :
  Lexer.tokenize source = Some (tokens, errors) ->
  nth_error (Parser.new tokens) (Parser.pos s) = Some kw ->
  Token.type kw = KEYWORD -> Token.value kw = str "for" ->
  nth_error (Parser.new tokens) (S (Parser.pos s)) = Some x ->
  Token.type x = IDENTIFIER ->
  nth_error (Parser.new tokens) (S (S (Parser.pos s))) = Some t ->
  Token.value t = str "in" ->
  Parser.parseStatement (Parser.new tokens) (S fuel) s
  = thrown StatementNode "Expected 'in'" t (next (next s)).
Proof.
  intros Hlex Hkw Tkw Vkw Hx Tx Ht Vt.
  apply (@parseForStatement_needs_keyword _ fuel s kw x t); auto.
  destruct (tokens_have_kind_text source) as (tokens' & errors' & E & K).
  rewrite Hlex in E. inversion E; subst tokens' errors'; clear E.
  assert (Kt : kind_text t = true).
  { apply nth_error_In in Ht. unfold Parser.new in Ht. apply filter_In in Ht.
    destruct Ht as [Ht _]. rewrite Forall_forall in K. exact (K t Ht). }
  intros C. unfold kind_text in Kt. rewrite C, Vt in Kt. discriminate Kt.
Qed.

Lemma for_in_is_rejected_witness :
  Parser.parseStatement
    (Parser.new
       [Token.mk KEYWORD (str "for") 1 1 3; Token.mk IDENTIFIER (str "x") 1 5 1;
        Token.mk IDENTIFIER (str "in") 1 7 2; Token.mk IDENTIFIER (str "xs") 1 10 2;
        Token.mk LBRACE (str "{") 1 13 1; Token.mk RBRACE (str "}") 1 14 1;
        Token.mk EOF [] 1 15 0])
    1 Parser.init
  = thrown StatementNode "Expected 'in'" (Token.mk IDENTIFIER (str "in") 1 7 2)
      (next (next Parser.init)).
Proof.
  apply (@for_in_is_rejected (str "for x in xs {}") _ [] 0 Parser.init
           (Token.mk KEYWORD (str "for") 1 1 3)
           (Token.mk IDENTIFIER (str "x") 1 5 1)
           (Token.mk IDENTIFIER (str "in") 1 7 2));
    reflexivity.
Defined.

(** ** The lexer: lines and columns are positive *)

Section LexerPositive.

Import Lexer.

Variable source : jsstring.

Lemma keeps_positive_loop step fuel (a a' : State * jsstring) :
  keeps_positive step -> positive (fst a) ->
  loop fuel step a = Some a' -> positive (fst a').
Proof.
  intros H.
  apply (@loop_inv _ step (fun x => positive (fst x)) (fun x => positive (fst x))).
  - intros x x' Hx E. exact (H x x' (or_introl E) Hx).
  - intros x x' Hx E. exact (H x x' (or_intror E) Hx).
Qed.

Ltac keeps_positive_tac :=
  intros [s v] a' [E|E] [Hl Hc]; cbv beta iota zeta delta
    [string_step digits_step identifier_step lineComment_step blockComment_step
     advance] in E;
  repeat match type of E with
         | context [if ?b then _ else _] => destruct b
         end;
  inversion E; subst; unfold positive in *;
  cbn [fst line column set_pos set_column set_line] in *; lia.

Lemma string_step_positive quote : keeps_positive (string_step source quote).
Proof. keeps_positive_tac. Qed.
Lemma digits_step_positive : keeps_positive (digits_step source).
Proof. keeps_positive_tac. Qed.
Lemma identifier_step_positive : keeps_positive (identifier_step source).
Proof. keeps_positive_tac. Qed.
Lemma lineComment_step_positive : keeps_positive (lineComment_step source).
Proof. keeps_positive_tac. Qed.
Lemma blockComment_step_positive : keeps_positive (blockComment_step source).
Proof. keeps_positive_tac. Qed.

Ltac loop_positive L F :=
  match goal with
  | H : loop _ ?step ?a = Some ?b, P : positive _ |- _ =>
      let Hp := fresh "Hp" in
      let Ht := fresh "Ht" in
      let He := fresh "He" in
      pose proof (@keeps_positive_loop _ _ a _ (L : keeps_positive step) P H) as Hp;
      destruct (@frames_loop _ _ a _ (F : frames step) H) as [Ht He];
      cbn [fst] in Hp, Ht, He; clear H P
  end.

Ltac positive_done :=
  unfold positive_upto, positive in *;
  cbn [pos line column tokens errors addToken push_token push_error set_pos
       set_column set_line set_inTemplate unexpected
       Token.line Token.length LexerError.line LexerError.column] in *;
  repeat match goal with
         | H : _ /\ _ |- _ => destruct H
         | |- _ /\ _ => split
         | |- Forall _ (_ ++ [_]) =>
             apply Forall_app; split; [|constructor; [|constructor]]
         | H : ?x = _ |- Forall _ ?x => rewrite H
         end;
  cbn [Token.line Token.length LexerError.line LexerError.column];
  try assumption; try lia; try apply len_nonneg.

(** The state after [advance]. *)
Lemma advance_positive_upto (s : State) :
  positive_upto s ->
  positive_upto (set_pos (S (pos s)) (set_column (column s + 1) s)).
Proof. intros H. positive_done. Qed.

Lemma string_positive quote s s' :
  positive_upto s -> string source quote s = Some s' -> positive_upto s'.
Proof.
  intros (P & T & Er). unfold string.
  destruct (loop _ _ _) as [[s1 v1]|] eqn:E; [|discriminate].
  loop_positive (string_step_positive quote) (@string_step_frames source quote).
  destruct (isAtEnd source s1); intros H; inversion H; subst; clear H;
    unfold advance; cbv beta iota zeta; positive_done.
Qed.

Lemma number_positive first s s' :
  positive_upto s -> number source first s = Some s' -> positive_upto s'.
Proof.
  intros (P & T & Er). unfold number.
  destruct (loop _ _ _) as [[s1 v1]|] eqn:E; [|discriminate].
  loop_positive digits_step_positive (@digits_step_frames source).
  destruct (_ && _).
  - unfold advance; cbv beta iota.
    destruct (loop _ _ _) as [[s2 v2]|] eqn:E2; [|discriminate].
    assert (P2 : positive (set_pos (S (pos s1)) (set_column (column s1 + 1) s1))).
    { unfold positive in *. simpl. lia. }
    loop_positive digits_step_positive (@digits_step_frames source).
    intros H; inversion H; subst; clear H. positive_done.
  - intros H; inversion H; subst; clear H. positive_done.
Qed.

Lemma identifier_positive first s s' :
  positive_upto s -> identifier source first s = Some s' -> positive_upto s'.
Proof.
  intros (P & T & Er). unfold identifier.
  destruct (loop _ _ _) as [[s1 v1]|] eqn:E; [|discriminate].
  loop_positive identifier_step_positive (@identifier_step_frames source).
  repeat match goal with |- context [if ?b then _ else _] => destruct b end;
    intros H; inversion H; subst; clear H; positive_done.
Qed.

Lemma lineComment_positive s s' :
  positive_upto s -> lineComment source s = Some s' -> positive_upto s'.
Proof.
  intros (P & T & Er). unfold lineComment, advance; cbv beta iota zeta.
  destruct (loop _ _ _) as [[s1 v1]|] eqn:E; [|discriminate].
  assert (P2 : positive (set_pos (S (pos s)) (set_column (column s + 1) s))).
  { unfold positive in *. simpl. lia. }
  clear P. loop_positive lineComment_step_positive (@lineComment_step_frames source).
  intros H; inversion H; subst; clear H. positive_done.
Qed.

Lemma blockComment_positive s s' :
  positive_upto s -> blockComment source s = Some s' -> positive_upto s'.
Proof.
  intros (P & T & Er). unfold blockComment, advance; cbv beta iota zeta.
  destruct (loop _ _ _) as [[s1 v1]|] eqn:E; [|discriminate].
  assert (P2 : positive (set_pos (S (pos s)) (set_column (column s + 1) s))).
  { unfold positive in *. simpl. lia. }
  clear P. loop_positive blockComment_step_positive (@blockComment_step_frames source).
  intros H; inversion H; subst; clear H. positive_done.
Qed.

Lemma scanToken_positive s s' :
  positive_upto s -> scanToken source s = Some s' -> positive_upto s'.
Proof.
  intros Hs. pose proof (advance_positive_upto Hs) as Ha.
  unfold scanToken, advance.
  destruct (nth_error source (pos s)) as [c|].
  2:{ intros H; inversion H; subst. positive_done. }
  repeat match goal with
         | |- context [if ?b then _ else _] => destruct b
         end;
    intros Hscan;
    try (eapply lineComment_positive in Hscan; [exact Hscan|]);
    try (eapply blockComment_positive in Hscan; [exact Hscan|]);
    try (eapply string_positive in Hscan; [exact Hscan|]);
    try (eapply number_positive in Hscan; [exact Hscan|]);
    try (eapply identifier_positive in Hscan; [exact Hscan|]);
    try (inversion Hscan; subst s'; clear Hscan);
    positive_done.
Qed.

Lemma tokenize_loop_positive fuel s s' :
  positive_upto s -> loop fuel (tokenize_step source) s = Some s' ->
  positive_upto s'.
Proof.
  apply (@loop_inv _ (tokenize_step source) positive_upto positive_upto).
  - intros a a' Ha. unfold tokenize_step.
    destruct (negb _); [|discriminate].
    destruct (scanToken source a) as [s1|] eqn:E; [|discriminate].
    intros H; inversion H; subst; clear H.
    eapply scanToken_positive; eassumption.
  - intros a a' Ha. unfold tokenize_step.
    destruct (negb _); [destruct (scanToken source a); discriminate|].
    intros H; inversion H; subst; assumption.
Qed.

(** Every token is on a line from 1 on and has a length from 0 on; every
    lexical error is on a line and a column from 1 on. *)
Lemma tokenize_positive :
  exists tokens errors,
    tokenize source = Some (tokens, errors)
    /\ Forall (fun t => 1 <= Token.line t /\ 0 <= Token.length t)%Z tokens
    /\ Forall (fun e => 1 <= LexerError.line e /\ 1 <= LexerError.column e)%Z
         errors.
Proof.
  destruct (tokenize_shape source) as (s & L & E).
  eexists _, _. split; [exact E|].
  assert (H : positive_upto init).
  { repeat split; try constructor; simpl; lia. }
  apply (tokenize_loop_positive _ H) in L. destruct L as ((Hl & Hc) & Ht & He).
  split; [|assumption].
  apply Forall_app. split; [assumption|].
  constructor; [simpl; lia|constructor].
Qed.

End LexerPositive.

(** ** The language server *)

Lemma jsstring_eqb_eq (a b : jsstring) : jsstring_eqb a b = true -> a = b.
Proof.
  unfold jsstring_eqb. destruct (list_eq_dec N.eq_dec a b); [auto|discriminate].
Qed.

Lemma jsstring_eqb_refl (a : jsstring) : jsstring_eqb a a = true.
Proof.
  unfold jsstring_eqb. destruct (list_eq_dec N.eq_dec a a); [auto|contradiction].
Qed.

Lemma jsstring_eqb_neq (a b : jsstring) : a <> b -> jsstring_eqb a b = false.
Proof.
  unfold jsstring_eqb. destruct (list_eq_dec N.eq_dec a b); [contradiction|auto].
Qed.

Lemma reported_at_In (tokens : list Token.t) positions errors :
  reported_at tokens positions errors ->
  Forall (fun e => In (ParseError.token e) tokens) errors.
Proof.
  induction 1 as [|p e ps es H _ IH]; constructor; [|exact IH].
  eapply nth_error_In. exact H.
Qed.

Section ServerStore.

Import NotegLanguageServer.

Lemma get_set_same (documents : Documents) (uri : jsstring) (doc : Document.t) :
  get (set documents uri doc) uri = Some doc.
Proof.
  induction documents as [|[k d] rest IH]; simpl.
  - now rewrite jsstring_eqb_refl.
  - destruct (jsstring_eqb k uri) eqn:E; simpl; rewrite E; [reflexivity|exact IH].
Qed.

Lemma get_set_other (documents : Documents) (uri other : jsstring)
    (doc : Document.t) :
  other <> uri -> get (set documents uri doc) other = get documents other.
Proof.
  intros H. induction documents as [|[k d] rest IH]; simpl.
  - now rewrite (jsstring_eqb_neq (not_eq_sym H)).
  - destruct (jsstring_eqb k uri) eqn:E; simpl.
    + apply jsstring_eqb_eq in E. subst k.
      now rewrite (jsstring_eqb_neq (not_eq_sym H)).
    + destruct (jsstring_eqb k other); [reflexivity|exact IH].
Qed.

Lemma set_set (documents : Documents) (uri : jsstring) (d1 d2 : Document.t) :
  set (set documents uri d1) uri d2 = set documents uri d2.
Proof.
  induction documents as [|[k d] rest IH]; simpl.
  - now rewrite jsstring_eqb_refl.
  - destruct (jsstring_eqb k uri) eqn:E; simpl; rewrite E; [reflexivity|].
    now rewrite IH.
Qed.

End ServerStore.

Section ServerValidate.

Import NotegLanguageServer.

Lemma lexDiagnostic_well_formed (e : LexerError.t) :
  (1 <= LexerError.line e /\ 1 <= LexerError.column e)%Z ->
  well_formed (lexDiagnostic e) /\ on_line (lexDiagnostic e).
Proof.
  intros [Hl Hc]. unfold well_formed, on_line, lexDiagnostic. simpl.
  repeat split; lia.
Qed.

Lemma parseDiagnostic_well_formed (e : ParseError.t) :
  (1 <= Token.line (ParseError.token e)
   /\ 0 <= Token.length (ParseError.token e))%Z ->
  well_formed (parseDiagnostic e).
Proof.
  intros [Hl Hc]. unfold well_formed, parseDiagnostic. simpl.
  repeat split; lia.
Qed.

(** The lexer and the parser return on the text of a document, and the
    tokens and errors they return have positive lines. *)
Lemma pipeline_returns (text : jsstring) :
  exists tokens lexErrors ast parseErrors s,
    Lexer.tokenize text = Some (tokens, lexErrors)
    /\ Parser.parse tokens = Parser.Ok (ast, parseErrors) s
    /\ Forall (fun e => 1 <= LexerError.line e /\ 1 <= LexerError.column e)%Z
         lexErrors
    /\ Forall (fun e => 1 <= Token.line (ParseError.token e)
                        /\ 0 <= Token.length (ParseError.token e))%Z
         parseErrors.
Proof.
  destruct (tokenize_positive text) as (tokens & lexErrors & E & Ht & He).
  destruct (tokenize_shape text) as (st & _ & E').
  rewrite E in E'. inversion E'; subst tokens lexErrors; clear E'.
  destruct (@parse_reported (Lexer.tokens st)
              (Token.mk EOF [] (Lexer.line st) (Lexer.column st - 0) 0) eq_refl)
    as (body & parseErrors & s & positions & P & R & _).
  eexists _, _, _, _, _. split; [exact E|]. split; [exact P|].
  split; [exact He|].
  apply reported_at_In in R. eapply Forall_impl; [|exact R].
  intros e Hin. cbv beta in Hin. unfold Parser.new in Hin.
  apply filter_In in Hin. destruct Hin as [Hin _].
  rewrite Forall_forall in Ht. exact (Ht _ Hin).
Qed.

End ServerValidate.

(** X10. [validateDocument] returns for every document text: no exception
    escapes it and it runs out of no fuel.  For a document in the store it
    stores the syntax tree and returns one diagnostic for each lexical
    error followed by one for each syntax error.  Each diagnostic is an
    error (severity 1) from [noteg] whose range lies on one line, not before
    the first line, and is not empty; the range of a lexical diagnostic
    starts at a character position from 0 on.  For a document that is not
    in the store it returns no diagnostic and changes nothing. *)
Theorem validateDocument_diagnostics
    (documents : NotegLanguageServer.Documents) (uri : jsstring) :
  match NotegLanguageServer.get documents uri with
  | None =>
      NotegLanguageServer.validateDocument documents uri
      = Returned ([], documents)
  | Some doc =>
      exists tokens lexErrors ast parseErrors s,
        Lexer.tokenize (Document.text doc) = Some (tokens, lexErrors)
        /\ Parser.parse tokens = Parser.Ok (ast, parseErrors) s
        /\ NotegLanguageServer.validateDocument documents uri
           = Returned
               (map NotegLanguageServer.lexDiagnostic lexErrors
                ++ map NotegLanguageServer.parseDiagnostic parseErrors,
                NotegLanguageServer.set documents uri
                  (Document.mk (Document.text doc) (Document.version doc)
                     (Some ast)))
        /\ Forall (fun d => well_formed d /\ on_line d)
             (map NotegLanguageServer.lexDiagnostic lexErrors)
        /\ Forall well_formed
             (map NotegLanguageServer.parseDiagnostic parseErrors)
  end.
Proof.
  unfold NotegLanguageServer.validateDocument.
  destruct (NotegLanguageServer.get documents uri) as [doc|]; [|reflexivity].
  destruct (pipeline_returns (Document.text doc))
    as (tokens & lexErrors & ast & parseErrors & s & E & P & Hl & Hp).
  exists tokens, lexErrors, ast, parseErrors, s.
  split; [exact E|]. split; [exact P|]. rewrite E, P.
  split; [reflexivity|]. split.
  - apply Forall_map. eapply Forall_impl; [|exact Hl].
    intros e. apply lexDiagnostic_well_formed.
  - apply Forall_map. eapply Forall_impl; [|exact Hp].
    intros e. apply parseDiagnostic_well_formed.
Qed.

(** X11. Opening a document, or changing it, never fails, whatever the
    text: the handler returns, and afterwards the store holds the document
    with the text and version it was given and with the syntax tree the
    parser returns for that text; the other documents are as they were.  A
    change notification without content changes leaves the store as it
    is. *)
Theorem handleDidOpen_handleDidChange_store
    (documents : NotegLanguageServer.Documents) (uri text : jsstring)
    (version : Z) :
  exists documents' ast errors s,
    parseSource text = Some (Parser.Ok (ast, errors) s)
    /\ NotegLanguageServer.handleDidOpen documents uri text version
       = Returned documents'
    /\ (forall rest,
          NotegLanguageServer.handleDidChange documents uri version (text :: rest)
          = Returned documents')
    /\ NotegLanguageServer.handleDidChange documents uri version []
       = Returned documents
    /\ NotegLanguageServer.get documents' uri
       = Some (Document.mk text version (Some ast))
    /\ (forall other,
          other <> uri ->
          NotegLanguageServer.get documents' other
          = NotegLanguageServer.get documents other).
Proof.
  destruct (pipeline_returns text)
    as (tokens & lexErrors & ast & parseErrors & s & E & P & _ & _).
  set (doc := Document.mk text version (Some ast)).
  exists (NotegLanguageServer.set documents uri doc), ast, parseErrors, s.
  assert (H : NotegLanguageServer.handleDidOpen documents uri text version
              = Returned (NotegLanguageServer.set documents uri doc)).
  { unfold NotegLanguageServer.handleDidOpen,
      NotegLanguageServer.validateDocument. cbv zeta.
    rewrite get_set_same. cbn [Document.text Document.version].
    rewrite E, P, set_set. reflexivity. }
  split; [unfold parseSource; rewrite E, P; reflexivity|].
  split; [exact H|]. split; [intros rest; exact H|].
  split; [reflexivity|].
  split; [apply get_set_same|intros other Ho; now apply get_set_other].
Qed.

Section ServerHover.

Import NotegLanguageServer.

(** The documentation of a reserved word is a string that begins with the
    word in bold. *)
Lemma getKeywordDoc_keyword (v : jsstring) :
  has KEYWORDS v = true ->
  exists more, getKeywordDoc v = MString (str "**" ++ v ++ str "**" ++ more).
Proof.
  unfold has, KEYWORDS. cbn [map existsb]. intros H.
  repeat match type of H with
         | (jsstring_eqb v ?k || _)%bool = true =>
             apply orb_true_iff in H; destruct H as [H|H];
             [apply jsstring_eqb_eq in H; subst v; eexists; vm_compute;
              reflexivity|]
         end.
  discriminate H.
Qed.

Lemma hover_tokens_first (position : Position.t) (tokens : list Token.t) :
  Forall (fun t => kind_text t = true) tokens ->
  (hover_tokens position tokens = None
   /\ Forall (fun t => hoverable position t = false) tokens)
  \/ (exists before token after more,
        tokens = before ++ token :: after
        /\ Forall (fun t => hoverable position t = false) before
        /\ hoverable position token = true
        /\ hover_tokens position tokens
           = Some (Hover.mk
                     (MString (str "**" ++ Token.value token ++ str "**"
                               ++ more)))).
Proof.
  induction 1 as [|t tokens Kt _ IH].
  - left. split; [reflexivity|constructor].
  - cbn [hover_tokens].
    assert (Skip : hoverable position t = false ->
                   hover_tokens position tokens
                   = (if covers position t
                      then if TokenType_eqb (Token.type t) KEYWORD
                           then Some (Hover.mk (getKeywordDoc (Token.value t)))
                           else if TokenType_eqb (Token.type t) IDENTIFIER
                                then Some (Hover.mk
                                             (MString
                                                (str "**" ++ Token.value t
                                                 ++ str "**" ++ [LF; LF]
                                                 ++ str "Identifier")))
                                else hover_tokens position tokens
                      else hover_tokens position tokens)).
    { unfold hoverable. destruct (covers position t); [|reflexivity].
      destruct (TokenType_eqb (Token.type t) KEYWORD); [discriminate|].
      destruct (TokenType_eqb (Token.type t) IDENTIFIER); [discriminate|].
      reflexivity. }
    destruct (hoverable position t) eqn:Ho.
    + right. exists [], t, tokens. unfold hoverable in Ho.
      apply andb_true_iff in Ho. destruct Ho as [C Ty]. rewrite C.
      destruct (TokenType_eqb (Token.type t) KEYWORD) eqn:K.
      * apply TokenType_eqb_eq in K. unfold kind_text in Kt. rewrite K in Kt.
        apply andb_true_iff in Kt. destruct Kt as [Kt _].
        apply andb_true_iff in Kt. destruct Kt as [Kt _].
        destruct (getKeywordDoc_keyword _ Kt) as [more Hm]. exists more.
        rewrite Hm. unfold hoverable. rewrite C, K. simpl.
        repeat split. constructor.
      * cbn [orb] in Ty. rewrite Ty. eexists.
        unfold hoverable. rewrite C, K, Ty. simpl.
        repeat split. constructor.
    + rewrite <- (Skip eq_refl).
      destruct IH as [[E F]|(before & token & after & more & E & F & Ho' & Hh)].
      * left. split; [exact E|]. constructor; assumption.
      * right. exists (t :: before), token, after, more. subst tokens.
        repeat split; try assumption. constructor; assumption.
Qed.

End ServerHover.

(** X12. [handleHover] returns for every document text.  It answers for
    the first token, in the order of the lexer's output, that is a keyword
    or an identifier and whose line and columns cover the position asked
    for, and its answer is a string that begins with that token's text in
    bold; the documentation looked up for a keyword is never a member that
    the table inherits.  It answers [null] when there is no such token, and
    when the document is not in the store. *)
Theorem handleHover_first_token
    (documents : NotegLanguageServer.Documents) (uri : jsstring)
    (position : Position.t) :
  match NotegLanguageServer.get documents uri with
  | None => NotegLanguageServer.handleHover documents uri position = Returned None
  | Some doc =>
      exists tokens errors,
        Lexer.tokenize (Document.text doc) = Some (tokens, errors)
        /\ ((NotegLanguageServer.handleHover documents uri position
             = Returned None
             /\ Forall (fun t => hoverable position t = false) tokens)
            \/ (exists before token after more,
                  tokens = before ++ token :: after
                  /\ Forall (fun t => hoverable position t = false) before
                  /\ hoverable position token = true
                  /\ NotegLanguageServer.handleHover documents uri position
                     = Returned
                         (Some (Hover.mk
                                  (MString (str "**" ++ Token.value token
                                            ++ str "**" ++ more))))))
  end.
Proof.
  unfold NotegLanguageServer.handleHover.
  destruct (NotegLanguageServer.get documents uri) as [doc|]; [|reflexivity].
  destruct (tokens_have_kind_text (Document.text doc))
    as (tokens & errors & E & K).
  exists tokens, errors. split; [exact E|]. rewrite E.
  destruct (hover_tokens_first position K)
    as [[H F]|(before & token & after & more & Et & F & Ho & H)].
  - left. rewrite H. split; [reflexivity|exact F].
  - right. exists before, token, after, more. rewrite H.
    repeat split; assumption.
Qed.

(** ** The parser: unary and postfix operators *)

(** X13. Member access binds tighter than a unary operator, and a unary
    operator tighter than every binary one: for a unary operator token [u]
    ([!] or [-]), identifier tokens [a] and [b], a binary operator token
    [op] and a number token [c], the tokens [u a . b op c] parse to
    [(u (a.b)) op c].  Unary operators nest to the right: [u1 u2 a] parses
    to [u1 (u2 a)]. *)
Theorem unary_and_member_binding :
  (forall (u a dot b op c eof : Token.t) (l : nat),
     Token.type u = NOT \/ Token.type u = MINUS ->
     Token.type a = IDENTIFIER -> Token.type dot = DOT ->
     Token.type b = IDENTIFIER ->
     binary_level (Token.type op) = Some l ->
     Token.type c = NUMBER -> Token.type eof = EOF ->
     exists s,
       Parser.parse [u; a; dot; b; op; c; eof]
       = Parser.Ok
           (Program
              [ExpressionStatement
                 (binary_node op
                    (UnaryExpression (Token.value u)
                       (MemberExpression (Identifier (Token.value a))
                          (Identifier (Token.value b)) false))
                    (number_literal c))],
            []) s)
  /\ (forall (u1 u2 a eof : Token.t),
        Token.type u1 = NOT \/ Token.type u1 = MINUS ->
        Token.type u2 = NOT \/ Token.type u2 = MINUS ->
        Token.type a = IDENTIFIER -> Token.type eof = EOF ->
        exists s,
          Parser.parse [u1; u2; a; eof]
          = Parser.Ok
              (Program
                 [ExpressionStatement
                    (UnaryExpression (Token.value u1)
                       (UnaryExpression (Token.value u2)
                          (Identifier (Token.value a))))],
               []) s).
Proof.
  split.
  - intros u a dot b op c eof l Hu Ha Hd Hb Hop Hc He.
    destruct u as [tu vu lu cu nu], a as [ta va la ca na],
      dot as [td vd ld cd nd], b as [tb vb lb cb nb], op as [t1 v1 p1 q1 n1],
      c as [tc vc lc cc nc], eof as [te ve le ce ne].
    simpl in Hu, Ha, Hd, Hb, Hop, Hc, He. subst ta td tb tc te.
    destruct Hu; subst tu;
      destruct t1; simpl in Hop; try discriminate;
      eexists; vm_compute; reflexivity.
  - intros u1 u2 a eof H1 H2 Ha He.
    destruct u1 as [t1 v1 l1 c1 n1], u2 as [t2 v2 l2 c2 n2],
      a as [ta va la ca na], eof as [te ve le ce ne].
    simpl in H1, H2, Ha, He. subst ta te.
    destruct H1; subst t1; destruct H2; subst t2;
      eexists; vm_compute; reflexivity.
Qed.

Lemma unary_and_member_binding_witness :
  exists s,
    Parser.parse
      [Token.mk MINUS (str "-") 1 1 1; Token.mk IDENTIFIER (str "a") 1 2 1;
       Token.mk DOT (str ".") 1 3 1; Token.mk IDENTIFIER (str "b") 1 4 1;
       Token.mk MULTIPLY (str "*") 1 6 1; Token.mk NUMBER (str "2") 1 8 1;
       Token.mk EOF [] 1 9 0]
    = Parser.Ok
        (Program
           [ExpressionStatement
              (BinaryExpression (str "*")
                 (UnaryExpression (str "-")
                    (MemberExpression (Identifier (str "a"))
                       (Identifier (str "b")) false))
                 (Literal (VNumber (str "2")) (str "2")))],
         []) s.
Proof.
  apply (proj1 unary_and_member_binding
           (Token.mk MINUS (str "-") 1 1 1) (Token.mk IDENTIFIER (str "a") 1 2 1)
           (Token.mk DOT (str ".") 1 3 1) (Token.mk IDENTIFIER (str "b") 1 4 1)
           (Token.mk MULTIPLY (str "*") 1 6 1) (Token.mk NUMBER (str "2") 1 8 1)
           (Token.mk EOF [] 1 9 0) 6);
    try reflexivity.
  right. reflexivity.
Defined.

(** ** The lexer: block comments that are not closed *)

Section LexerUnclosed.

Import Lexer.

Variable source : jsstring.

(** No star from position 2 on is followed by a slash. *)
Hypothesis Hopen :
  forall p, 2 <= p -> nth_error source p = Some (chr "*") ->
            nth_error source (S p) <> Some (chr "/").

Lemma blockComment_loop_runs_out (s : State) (v : jsstring) :
  2 <= pos s -> pos s <= List.length source ->
  exists s' v',
    loop (gas source) (blockComment_step source) (s, v) = Some (s', v')
    /\ pos s' = List.length source
    /\ tokens s' = tokens s /\ errors s' = errors s.
Proof.
  intros Hp Hl.
  destruct (@loop_spec _ (blockComment_step source)
              (fun a => 2 <= pos (fst a) <= List.length source)
              (fun a => pos (fst a) = List.length source)
              (@left source)) with (fuel := gas source) (a := (s, v))
    as ([s' v'] & E & Hend).
  - intros [s0 v0] [H0 H1]. cbn [fst] in H0, H1. unfold blockComment_step.
    destruct (isAtEnd source s0) eqn:E0; cbn [negb].
    { apply isAtEnd_true in E0. cbn [fst]. lia. }
    apply isAtEnd_false in E0.
    destruct ((peek source s0 =? chr "*")%N && (peekNext source s0 =? chr "/")%N)
      eqn:B.
    + exfalso. apply andb_true_iff in B. destruct B as [B1 B2].
      apply peek_is in B1; [|discriminate].
      apply N.eqb_eq in B2. apply peekNext_nth_error in B2; [|discriminate].
      exact (Hopen H0 B1 B2).
    + unfold advance, left.
      destruct (peek source s0 =? LF)%N;
        cbn [fst pos set_pos set_column set_line]; lia.
  - cbn [fst]. lia.
  - apply left_gas.
  - exists s', v'. split; [exact E|]. split; [exact Hend|].
    exact (frames_loop _ _ (@blockComment_step_frames source) E).
Qed.

End LexerUnclosed.

Lemma scanToken_slash_star (source : jsstring) (s : Lexer.State) :
  nth_error source (Lexer.pos s) = Some (chr "/") ->
  nth_error source (S (Lexer.pos s)) = Some (chr "*") ->
  Lexer.scanToken source s
  = Lexer.blockComment source
      (Lexer.set_pos (S (Lexer.pos s)) (Lexer.set_column (Lexer.column s + 1) s)).
Proof.
  intros H1 H2. unfold Lexer.scanToken, Lexer.advance. rewrite H1.
  rewrite (@peek_nth_error source
             (Lexer.set_pos (S (Lexer.pos s))
                (Lexer.set_column (Lexer.column s + 1) s)) (chr "*") H2).
  reflexivity.
Qed.

(** X14. A block comment that is opened and never closed is no error: when
    no star after [/*] is followed by a slash, the lexer returns one
    [COMMENT] token whose text is the whole input, then the end-of-input
    token, and no lexical error.  (An unclosed string, by contrast, is an
    error and gives no token.) *)
Theorem unclosed_block_comment (body : jsstring) :
  (forall p, nth_error body p = Some (chr "*") ->
             nth_error body (S p) <> Some (chr "/")) ->
  exists comment eof,
    Lexer.tokenize (str "/*" ++ body) = Some ([comment; eof], [])
    /\ Token.type comment = COMMENT
    /\ Token.value comment = str "/*" ++ body
    /\ Token.type eof = EOF.
Proof.
  intros Hbody. set (source := str "/*" ++ body).
  assert (Hopen : forall p, 2 <= p -> nth_error source p = Some (chr "*") ->
                            nth_error source (S p) <> Some (chr "/")).
  { intros p Hp. destruct p as [|[|p]]; try lia. exact (Hbody p). }
  set (s2 := Lexer.set_pos 2 (Lexer.set_column 3 Lexer.init)).
  destruct (@blockComment_loop_runs_out source Hopen s2 (str "/*"))
    as (s' & v' & E & Hend & Ht & He).
  { simpl. lia. }
  { simpl. lia. }
  assert (Hv : v' = source).
  { pose proof (@accumulates_loop source (Lexer.blockComment_step source) [] _
                  (s2, str "/*") (s', v')
                  (@blockComment_step_accumulates source []) eq_refl E) as A.
    unfold accumulates in A. cbn [fst snd app] in A. rewrite <- A, Hend.
    apply firstn_all. }
  set (comment := Token.mk COMMENT v' (Lexer.line s')
                    (Lexer.column s' - Lexer.len v') (Lexer.len v')).
  assert (E1 : Lexer.tokenize_step source Lexer.init
               = Some (Continue (Lexer.push_token comment s'))).
  { unfold Lexer.tokenize_step.
    change (Lexer.isAtEnd source Lexer.init) with false. cbn [negb].
    rewrite (@scanToken_slash_star source Lexer.init eq_refl eq_refl).
    unfold Lexer.blockComment, Lexer.advance. cbv beta iota zeta.
    change (Lexer.set_pos _ (Lexer.set_column _ (Lexer.set_pos _ _))) with s2.
    rewrite E. reflexivity. }
  assert (E2 : Lexer.tokenize_step source (Lexer.push_token comment s')
               = Some (Break (Lexer.push_token comment s'))).
  { unfold Lexer.tokenize_step.
    change (Lexer.isAtEnd source (Lexer.push_token comment s'))
      with (Lexer.isAtEnd source s').
    assert (Hat : Lexer.isAtEnd source s' = true) by (apply isAtEnd_true; lia).
    rewrite Hat. reflexivity. }
  unfold Lexer.tokenize, Lexer.run, Lexer.gas.
  rewrite (loop_two_steps _ _ _ E1 E2).
  eexists _, _. split.
  - cbn [Lexer.addToken Lexer.push_token Lexer.push_error Lexer.tokens Lexer.errors].
    rewrite Ht, He. reflexivity.
  - split; [reflexivity|]. split; [exact Hv|reflexivity].
Qed.

Lemma unclosed_block_comment_witness :
  exists comment eof,
    Lexer.tokenize (str "/*" ++ str " a * b / c") = Some ([comment; eof], [])
    /\ Token.type comment = COMMENT
    /\ Token.value comment = str "/*" ++ str " a * b / c"
    /\ Token.type eof = EOF.
Proof.
  apply (@unclosed_block_comment (str " a * b / c")).
  intros p H.
  do 11 (destruct p as [|p]; [try discriminate H; try discriminate|]).
  destruct p; discriminate H.
Defined.

(** ** The lexer: counting lines *)

Lemma count_occ_snoc (l : jsstring) (c k : char) :
  count_occ N.eq_dec (l ++ [c]) k
  = count_occ N.eq_dec l k + (if (c =? k)%N then 1 else 0).
Proof.
  rewrite count_occ_app. simpl.
  destruct (N.eq_dec c k) as [->|H].
  - now rewrite N.eqb_refl.
  - apply N.eqb_neq in H. now rewrite H.
Qed.

Section LexerLines.

Import Lexer.

Variable source : jsstring.
Local Abbreviation counted := (counted source).

Hypothesis Hplain : ~ In BACKSLASH source.

(** Consuming one character. *)
Lemma counted_next (s s' : State) (c : char) :
  counted s -> nth_error source (pos s) = Some c ->
  pos s' = S (pos s) ->
  line s' = (line s + (if (c =? LF)%N then 1 else 0))%Z ->
  counted s'.
Proof.
  unfold counted. intros H Hn Hp Hl.
  rewrite Hp, (firstn_snoc _ _ Hn), count_occ_snoc, Hl, H.
  destruct (c =? LF)%N; lia.
Qed.

Lemma peek_here (s : State) :
  pos s < List.length source -> nth_error source (pos s) = Some (peek source s).
Proof.
  intros H. destruct (nth_error_defined source H) as [c Ec].
  now rewrite (peek_nth_error source s Ec).
Qed.

Lemma not_backslash (s : State) :
  pos s < List.length source -> (peek source s =? BACKSLASH)%N = false.
Proof.
  intros H. apply N.eqb_neq. intros C. apply Hplain. rewrite <- C.
  eapply nth_error_In. now apply peek_here.
Qed.

Ltac counted_one s :=
  eapply (@counted_next s);
  [ eassumption
  | apply peek_here; assumption
  | reflexivity
  | cbn [line set_pos set_column set_line];
    repeat match goal with
           | H : (_ =? _)%N = _ |- _ => rewrite H
           end;
    try lia ].

Lemma string_step_counted quote a a' :
  counted (fst a) ->
  string_step source quote a = Some (Continue a')
  \/ string_step source quote a = Some (Break a') ->
  counted (fst a').
Proof.
  destruct a as [s v]. cbn [fst]. intros C. unfold string_step.
  destruct (isAtEnd source s) eqn:E; cbn [negb andb].
  { intros [H|H]; inversion H; subst; exact C. }
  apply isAtEnd_false in E.
  destruct (peek source s =? quote)%N; cbn [negb].
  { intros [H|H]; inversion H; subst; exact C. }
  pose proof (not_backslash s E) as B.
  destruct (peek source s =? LF)%N eqn:L.
  - change (peek source (set_column 1 (set_line (line s + 1) s)))
      with (peek source s).
    rewrite B. unfold advance.
    intros [H|H]; inversion H; subst; clear H. cbn [fst]. counted_one s.
  - rewrite B. unfold advance.
    intros [H|H]; inversion H; subst; clear H. cbn [fst]. counted_one s.
Qed.

Lemma not_LF_digit (c : char) : isDigit c = true -> (c =? LF)%N = false.
Proof.
  intros H. apply N.eqb_neq. intros ->. discriminate H.
Qed.

Lemma not_LF_alnum (c : char) : isAlphaNumeric c = true -> (c =? LF)%N = false.
Proof.
  intros H. apply N.eqb_neq. intros ->. discriminate H.
Qed.

Lemma digits_step_counted a a' :
  counted (fst a) ->
  digits_step source a = Some (Continue a') \/ digits_step source a = Some (Break a') ->
  counted (fst a').
Proof.
  destruct a as [s v]. cbn [fst]. intros C. unfold digits_step, advance.
  destruct (isDigit (peek source s)) eqn:D;
    intros [H|H]; inversion H; subst; clear H; try exact C.
  pose proof (isDigit_peek _ _ D) as E. apply not_LF_digit in D.
  cbn [fst]. counted_one s.
Qed.

Lemma identifier_step_counted a a' :
  counted (fst a) ->
  identifier_step source a = Some (Continue a')
  \/ identifier_step source a = Some (Break a') ->
  counted (fst a').
Proof.
  destruct a as [s v]. cbn [fst]. intros C. unfold identifier_step, advance.
  destruct (isAlphaNumeric (peek source s)) eqn:D;
    intros [H|H]; inversion H; subst; clear H; try exact C.
  pose proof (isAlphaNumeric_peek _ _ D) as E. apply not_LF_alnum in D.
  cbn [fst]. counted_one s.
Qed.

Lemma lineComment_step_counted a a' :
  counted (fst a) ->
  lineComment_step source a = Some (Continue a')
  \/ lineComment_step source a = Some (Break a') ->
  counted (fst a').
Proof.
  destruct a as [s v]. cbn [fst]. intros C. unfold lineComment_step, advance.
  destruct (isAtEnd source s) eqn:E; cbn [negb andb].
  { intros [H|H]; inversion H; subst; exact C. }
  apply isAtEnd_false in E.
  destruct (peek source s =? LF)%N eqn:L; cbn [negb];
    intros [H|H]; inversion H; subst; clear H; try exact C.
  cbn [fst]. counted_one s.
Qed.

Lemma blockComment_step_counted a a' :
  counted (fst a) ->
  blockComment_step source a = Some (Continue a')
  \/ blockComment_step source a = Some (Break a') ->
  counted (fst a').
Proof.
  destruct a as [s v]. cbn [fst]. intros C. unfold blockComment_step.
  destruct (isAtEnd source s) eqn:E; cbn [negb].
  { intros [H|H]; inversion H; subst; exact C. }
  apply isAtEnd_false in E.
  destruct ((peek source s =? chr "*")%N && (peekNext source s =? chr "/")%N)
    eqn:B.
  - apply andb_true_iff in B. destruct B as [B1 B2].
    apply peek_is in B1; [|discriminate].
    apply N.eqb_eq in B2. apply peekNext_nth_error in B2; [|discriminate].
    unfold advance. intros [H|H]; inversion H; subst; clear H. cbn [fst].
    eapply (@counted_next (set_pos (S (pos s)) (set_column (column s + 1) s)));
      [|exact B2|reflexivity|simpl; lia].
    eapply (@counted_next s); [exact C|exact B1|reflexivity|simpl; lia].
  - destruct (peek source s =? LF)%N eqn:L; unfold advance;
      intros [H|H]; inversion H; subst; clear H; cbn [fst]; counted_one s.
Qed.

Lemma counted_loop step fuel (a a' : State * jsstring) :
  (forall x x', counted (fst x) ->
     step x = Some (Continue x') \/ step x = Some (Break x') ->
     counted (fst x')) ->
  counted (fst a) -> loop fuel step a = Some a' -> counted (fst a').
Proof.
  intros H.
  apply (@loop_inv _ step (fun x => counted (fst x)) (fun x => counted (fst x)));
    eauto.
Qed.

(** Where the loop of [string] stops. *)
Lemma string_loop_stops quote fuel (a a' : State * jsstring) :
  loop fuel (string_step source quote) a = Some a' ->
  isAtEnd source (fst a') = true \/ peek source (fst a') = quote.
Proof.
  apply (@loop_inv _ (string_step source quote) (fun _ => True)
           (fun x => isAtEnd source (fst x) = true \/ peek source (fst x) = quote));
    [auto| |exact I].
  intros [s v] x _. unfold string_step.
  destruct (isAtEnd source s) eqn:E; cbn [negb andb].
  { intros H; inversion H; subst. now left. }
  destruct (peek source s =? quote)%N eqn:Q; cbn [negb].
  { intros H; inversion H; subst. right. now apply N.eqb_eq. }
  unfold advance.
  repeat match goal with |- context [if ?b then _ else _] => destruct b end;
    discriminate.
Qed.

Lemma string_counted quote s s' :
  (quote =? LF)%N = false ->
  counted s -> string source quote s = Some s' -> counted s'.
Proof.
  intros Hq C. unfold string.
  destruct (loop _ _ _) as [[s1 v1]|] eqn:E; [|discriminate].
  pose proof (string_loop_stops _ _ _ E) as Stop.
  apply (@counted_loop _ _ _ _ (@string_step_counted quote)) in E; [|exact C].
  cbn [fst] in E, Stop.
  destruct (isAtEnd source s1) eqn:End; intros H; inversion H; subst; clear H.
  - exact E.
  - destruct Stop as [Stop|Stop]; [discriminate|].
    apply isAtEnd_false in End. unfold advance.
    eapply (@counted_next s1); [exact E|now apply peek_here|reflexivity|].
    rewrite Stop, Hq. simpl. lia.
Qed.

Lemma number_counted first s s' :
  counted s -> number source first s = Some s' -> counted s'.
Proof.
  intros C. unfold number.
  destruct (loop _ _ _) as [[s1 v1]|] eqn:E; [|discriminate].
  apply (@counted_loop _ _ _ _ digits_step_counted) in E; [|exact C].
  cbn [fst] in E.
  destruct ((peek source s1 =? chr ".")%N && isDigit (peekNext source s1)) eqn:B.
  - apply andb_true_iff in B. destruct B as [B1 _].
    apply peek_is in B1; [|discriminate].
    unfold advance. cbv beta iota.
    destruct (loop _ _ _) as [[s2 v2]|] eqn:E2; [|discriminate].
    apply (@counted_loop _ _ _ _ digits_step_counted) in E2.
    + intros H; inversion H; subst; clear H. exact E2.
    + cbn [fst]. eapply (@counted_next s1); [exact E|exact B1|reflexivity|].
      simpl. lia.
  - intros H; inversion H; subst; clear H. exact E.
Qed.

Lemma identifier_counted first s s' :
  counted s -> identifier source first s = Some s' -> counted s'.
Proof.
  intros C. unfold identifier.
  destruct (loop _ _ _) as [[s1 v1]|] eqn:E; [|discriminate].
  apply (@counted_loop _ _ _ _ identifier_step_counted) in E; [|exact C].
  cbn [fst] in E.
  repeat match goal with |- context [if ?b then _ else _] => destruct b end;
    intros H; inversion H; subst; clear H; exact E.
Qed.

Lemma lineComment_counted s s' :
  counted s -> nth_error source (pos s) = Some (chr "/") ->
  lineComment source s = Some s' -> counted s'.
Proof.
  intros C Hn. unfold lineComment, advance; cbv beta iota zeta.
  destruct (loop _ _ _) as [[s1 v1]|] eqn:E; [|discriminate].
  apply (@counted_loop _ _ _ _ lineComment_step_counted) in E.
  - intros H; inversion H; subst; clear H. exact E.
  - cbn [fst]. eapply (@counted_next s); [exact C|exact Hn|reflexivity|].
    simpl. lia.
Qed.

Lemma blockComment_counted s s' :
  counted s -> nth_error source (pos s) = Some (chr "*") ->
  blockComment source s = Some s' -> counted s'.
Proof.
  intros C Hn. unfold blockComment, advance; cbv beta iota zeta.
  destruct (loop _ _ _) as [[s1 v1]|] eqn:E; [|discriminate].
  apply (@counted_loop _ _ _ _ blockComment_step_counted) in E.
  - intros H; inversion H; subst; clear H. exact E.
  - cbn [fst]. eapply (@counted_next s); [exact C|exact Hn|reflexivity|].
    simpl. lia.
Qed.

Ltac counted_two s0 c :=
  match goal with
  | P : (peek source s0 =? ?k)%N = true |- _ =>
      apply peek_is in P; [|discriminate];
      eapply (@counted_next s0 _ k); [|exact P|reflexivity|simpl; lia]
  end.

Lemma scanToken_counted s s' :
  pos s < List.length source ->
  counted s -> scanToken source s = Some s' -> counted s'.
Proof.
  intros Hp C. destruct (nth_error_defined source Hp) as [c Hc].
  unfold scanToken, advance. rewrite Hc.
  set (s0 := set_pos (S (pos s)) (set_column (column s + 1) s)).
  assert (C0 : counted s0 \/ c = LF).
  { destruct (c =? LF)%N eqn:L; [right; now apply N.eqb_eq|left].
    eapply (@counted_next s); [exact C|exact Hc|reflexivity|].
    rewrite L. simpl. lia. }
  assert (CL : c = LF ->
               counted (set_column 1 (set_line (line s0 + 1)
                                        (addToken NEWLINE [c] s0)))).
  { intros ->. eapply (@counted_next s); [exact C|exact Hc|reflexivity|].
    simpl. lia. }
  repeat match goal with
         | |- context [if ?b then _ else _] => destruct b eqn:?
         end;
    repeat match goal with
           | H : (c =? _)%N = true |- _ => apply N.eqb_eq in H
           | H : (_ && _)%bool = true |- _ =>
               apply andb_true_iff in H; destruct H as [? H]
           | H : (_ || _)%bool = true |- _ =>
               apply orb_true_iff in H; destruct H as [H|H]
           end;
    try (destruct C0 as [C0|C0]; [|subst c; discriminate]);
    intros Hscan;
    try (eapply lineComment_counted in Hscan;
         [exact Hscan|exact C0|apply peek_is; [assumption|discriminate]]);
    try (eapply blockComment_counted in Hscan;
         [exact Hscan|exact C0|apply peek_is; [assumption|discriminate]]);
    try (eapply string_counted in Hscan; [exact Hscan|subst c; reflexivity|exact C0]);
    try (eapply number_counted in Hscan; [exact Hscan|exact C0]);
    try (eapply identifier_counted in Hscan; [exact Hscan|exact C0]);
    try (inversion Hscan; subst s'; clear Hscan);
    try exact C0;
    try (counted_two s0 c; exact C0);
    try (apply CL; assumption).
Qed.

Lemma tokenize_loop_counted fuel s s' :
  counted s -> loop fuel (tokenize_step source) s = Some s' ->
  counted s' /\ List.length source <= pos s'.
Proof.
  apply (@loop_inv _ (tokenize_step source) counted
           (fun x => counted x /\ List.length source <= pos x)).
  - intros a a' Ha. unfold tokenize_step.
    destruct (isAtEnd source a) eqn:E; cbn [negb]; [discriminate|].
    apply isAtEnd_false in E.
    destruct (scanToken source a) as [s1|] eqn:Es; [|discriminate].
    intros H; inversion H; subst; clear H.
    eapply scanToken_counted; eassumption.
  - intros a a' Ha. unfold tokenize_step.
    destruct (isAtEnd source a) eqn:E; cbn [negb];
      [|destruct (scanToken source a); discriminate].
    intros H; inversion H; subst. split; [assumption|now apply isAtEnd_true].
Qed.

End LexerLines.

(** X15. The lexer counts lines by line feeds.  For every input without a
    backslash, the line of the end-of-input token is one more than the
    number of line feeds in the input: line feeds between tokens, inside
    string literals and inside block comments all count once. *)
Theorem EOF_line_counts_line_feeds (source : jsstring) :
  ~ In BACKSLASH source ->
  exists tokens eof errors,
    Lexer.tokenize source = Some (tokens ++ [eof], errors)
    /\ Token.type eof = EOF
    /\ Token.line eof = (1 + Z.of_nat (count_occ N.eq_dec source LF))%Z.
Proof.
  intros Hplain. destruct (tokenize_shape source) as (s & L & E).
  eexists _, _, _. split; [exact E|]. split; [reflexivity|].
  apply (@tokenize_loop_counted source Hplain) in L; [|reflexivity].
  destruct L as [C Hend]. unfold counted in C.
  rewrite firstn_all2 in C by exact Hend. exact C.
Qed.

Lemma EOF_line_counts_line_feeds_witness :
  exists tokens eof errors,
    Lexer.tokenize (str "a" ++ [LF] ++ str "/* b" ++ [LF] ++ str "*/ c")
    = Some (tokens ++ [eof], errors)
    /\ Token.type eof = EOF
    /\ Token.line eof
       = (1 + Z.of_nat (count_occ N.eq_dec
                          (str "a" ++ [LF] ++ str "/* b" ++ [LF] ++ str "*/ c")
                          LF))%Z.
Proof.
  apply (@EOF_line_counts_line_feeds
           (str "a" ++ [LF] ++ str "/* b" ++ [LF] ++ str "*/ c")).
  vm_compute. intuition discriminate.
Defined.

(** ** The parser: keywords that are asked for by kind only *)

(** X16. Where the error messages say [in] and [from], the parser asks
    for a token of kind [KEYWORD] and does not look at its text: [for x kw
    xs { }] parses to a [for] statement, and [import { a } kw "path"] to an
    import statement, without error, for every keyword token [kw]. *)
Theorem keyword_text_is_not_checked :
  (forall (l c n : Z) (x kw xs lbrace rbrace eof : Token.t),
     Token.type x = IDENTIFIER -> Token.type kw = KEYWORD ->
     Token.type xs = IDENTIFIER -> Token.type lbrace = LBRACE ->
     Token.type rbrace = RBRACE -> Token.type eof = EOF ->
     exists s,
       Parser.parse
         [Token.mk KEYWORD (str "for") l c n; x; kw; xs; lbrace; rbrace; eof]
       = Parser.Ok
           (Program
              [ForStatement (Token.value x) (Identifier (Token.value xs)) []],
            []) s)
  /\ (forall (l c n : Z) (lbrace a rbrace kw path eof : Token.t),
        Token.type lbrace = LBRACE -> Token.type a = IDENTIFIER ->
        Token.type rbrace = RBRACE -> Token.type kw = KEYWORD ->
        Token.type path = STRING -> Token.type eof = EOF ->
        exists s,
          Parser.parse
            [Token.mk KEYWORD (str "import") l c n; lbrace; a; rbrace; kw; path;
             eof]
          = Parser.Ok
              (Program [ImportStatement [Token.value a] (Token.value path)],
               []) s).
Proof.
  split.
  - intros l c n x kw xs lbrace rbrace eof Hx Hk Hxs Hl Hr He.
    destruct x as [tx vx lx cx nx], kw as [tk vk lk ck nk],
      xs as [ts vs ls cs ns], lbrace as [tl vl ll cl nl],
      rbrace as [tr vr lr cr nr], eof as [te ve le ce ne].
    simpl in Hx, Hk, Hxs, Hl, Hr, He. subst tx tk ts tl tr te.
    eexists. vm_compute. reflexivity.
  - intros l c n lbrace a rbrace kw path eof Hl Ha Hr Hk Hp He.
    destruct lbrace as [tl vl ll cl nl], a as [ta va la ca na],
      rbrace as [tr vr lr cr nr], kw as [tk vk lk ck nk],
      path as [tp vp lp cp np], eof as [te ve le ce ne].
    simpl in Hl, Ha, Hr, Hk, Hp, He. subst tl ta tr tk tp te.
    eexists. vm_compute. reflexivity.
Qed.

Lemma keyword_text_is_not_checked_witness :
  exists s,
    Parser.parse
      [Token.mk KEYWORD (str "for") 1 1 3; Token.mk IDENTIFIER (str "x") 1 5 1;
       Token.mk KEYWORD (str "from") 1 7 4; Token.mk IDENTIFIER (str "xs") 1 12 2;
       Token.mk LBRACE (str "{") 1 15 1; Token.mk RBRACE (str "}") 1 16 1;
       Token.mk EOF [] 1 17 0]
    = Parser.Ok
        (Program [ForStatement (str "x") (Identifier (str "xs")) []], []) s.
Proof.
  apply (proj1 keyword_text_is_not_checked 1%Z 1%Z 3%Z
           (Token.mk IDENTIFIER (str "x") 1 5 1)
           (Token.mk KEYWORD (str "from") 1 7 4)
           (Token.mk IDENTIFIER (str "xs") 1 12 2)
           (Token.mk LBRACE (str "{") 1 15 1) (Token.mk RBRACE (str "}") 1 16 1)
           (Token.mk EOF [] 1 17 0));
    reflexivity.
Defined.
